(** * Melo: event dispatcher and simple playlist

    A shallow embedding of [melo_event.c] (client registration, event
    fan-out, events of the players and names of the events), of
    [melo_playlist_simple.c] (the in-memory playlist) and of the reading of
    the paths in [melo_browser_file.c], with the properties of these that
    the control plane relies on.

    Conventions of the embedding:
    - a C pointer is an address ([addr]); a nullable pointer is an [option];
    - a [GList] is the sequence of its cells, head first, each cell holding
      the address of its node and its [data] pointer, so that a [GList *]
      kept elsewhere (in a hash table, in [current]) is the address of a node
      and [->next] / [->prev] are read off the sequence;
    - reference-counted objects live in a heap, a finite map from addresses;
      an allocation takes the next address, and no address is used twice;
    - a function of the program is a computation in the monad [M]: it
      threads the program state and is undefined ([None]) where the C code
      dereferences a pointer that is [NULL] or no longer allocated;
    - calls into other components (the player, the tags, the mutex, the
      callbacks of event clients) are recorded, in order, in a trace; they
      do not come back into the component that makes them. *)

From Equations Require Import Equations.
From stdpp Require Import base option list strings gmap pretty.
From Stdlib Require Import ZArith Lia Ascii.

Open Scope Z_scope.

(** ** Addresses, state-and-failure monad *)

Abbreviation addr := nat.

Definition M (St A : Type) : Type := St → option (A * St).

#[global] Instance M_ret {St} : MRet (M St) := λ A x s, Some (x, s).
#[global] Instance M_bind {St} : MBind (M St) :=
  λ A B f m s, match m s with Some (x, s') => f x s' | None => None end.

(** The current state. *)
Definition get {St} : M St St := λ s, Some (s, s).
(** Apply [f] to the state. *)
Definition modify {St} (f : St → St) : M St unit := λ s, Some (tt, f s).
(** Undefined behaviour of the C program. *)
Definition undefined {St A} : M St A := λ _, None.
(** [when b m]: the statement [if (b) m;]. *)
Definition when {St} (b : bool) (m : M St unit) : M St unit :=
  if b then m else mret tt.
(** Dereference of a nullable value. *)
Definition deref {St A} (o : option A) : M St A :=
  match o with Some x => mret x | None => undefined end.

(** Evaluation of the monad's combinators in a goal. *)
Ltac msimpl :=
  repeat (simpl;
          unfold mbind, M_bind, mret, M_ret, get, modify, when, deref, undefined);
  simpl.

(** ** GLib doubly-linked lists *)

(** A cell: the address of the node, and its [data]. *)
Abbreviation GList := (list (addr * addr)).

(** [g_list_remove]: unlinks the first cell whose data is [d]. *)
Fixpoint g_list_remove (l : GList) (d : addr) : GList :=
  match l with
  | [] => []
  | c :: l' => if decide (c.2 = d) then l' else c :: g_list_remove l' d
  end.

(** Position of the node [n] in the list. *)
Fixpoint node_index (l : GList) (n : addr) : option nat :=
  match l with
  | [] => None
  | c :: l' => if decide (c.1 = n) then Some 0%nat else S <$> node_index l' n
  end.

(** [n->data], [n->next] and [n->prev] for a node of [l]; nothing is known of
    a node that is not in the list. *)
Definition node_data (l : GList) (n : addr) : option addr :=
  i ← node_index l n; snd <$> l !! i.
Definition node_next (l : GList) (n : addr) : option (option addr) :=
  i ← node_index l n; Some (fst <$> l !! S i).
Definition node_prev (l : GList) (n : addr) : option (option addr) :=
  i ← node_index l n;
  Some (match i with O => None | S j => fst <$> l !! j end).

(** ** The event dispatcher ([melo_event.c]) *)

Module Event.

Inductive MeloEventType :=
| MELO_EVENT_TYPE_GENERAL
| MELO_EVENT_TYPE_MODULE
| MELO_EVENT_TYPE_BROWSER
| MELO_EVENT_TYPE_PLAYER
| MELO_EVENT_TYPE_PLAYLIST.

(** Function pointers and untyped pointers are opaque words. *)
Definition MeloEventCallback := nat.
Definition GDestroyNotify := nat.
Definition gpointer := nat.

Record MeloEventClient := mkClient {
  callback : MeloEventCallback;
  user_data : gpointer;
}.

(** What the dispatcher does to the outside. *)
Inductive Action :=
| G_LOCK
| G_UNLOCK
| Callback (callback : MeloEventCallback) (client : addr)
    (type : MeloEventType) (event : N) (id : option string)
    (data : gpointer) (user_data : gpointer)
| FreeData (free_data_func : GDestroyNotify) (data : gpointer).

Record State := mkState {
  melo_event_clients : GList;
  clients : gmap addr MeloEventClient;
  next_addr : addr;
  trace : list Action;
}.

Definition init : State :=
  {| melo_event_clients := []; clients := ∅; next_addr := 1%nat; trace := [] |}.

Definition emit (a : Action) : M State unit :=
  modify (λ s, mkState (melo_event_clients s) (clients s) (next_addr s)
                 (trace s ++ [a])).
Definition set_clients_list (l : GList) : M State unit :=
  modify (λ s, mkState l (clients s) (next_addr s) (trace s)).
Definition set_clients (h : gmap addr MeloEventClient) : M State unit :=
  modify (λ s, mkState (melo_event_clients s) h (next_addr s) (trace s)).
(** A fresh address. *)
Definition alloc : M State addr :=
  λ s, Some (next_addr s,
             mkState (melo_event_clients s) (clients s) (S (next_addr s))
               (trace s)).

(** [g_list_prepend]: a fresh node in front of the list. *)
Definition g_list_prepend (l : GList) (d : addr) : M State GList :=
  n ← alloc; mret ((n, d) :: l).

(** [melo_event_register]. [g_slice_new0] aborts the process rather than
    return [NULL], so the client is always created. *)
Definition melo_event_register (cb : MeloEventCallback) (ud : gpointer)
  : M State addr :=
  client ← alloc;
  s ← get;
  set_clients (<[client := mkClient cb ud]> (clients s));;
  emit G_LOCK;;
  s ← get;
  l ← g_list_prepend (melo_event_clients s) client;
  set_clients_list l;;
  emit G_UNLOCK;;
  mret client.

(** [melo_event_unregister]. *)
Definition melo_event_unregister (client : addr) : M State unit :=
  emit G_LOCK;;
  s ← get;
  set_clients_list (g_list_remove (melo_event_clients s) client);;
  emit G_UNLOCK;;
  s ← get;
  set_clients (delete client (clients s)).

(** The loop of [melo_event_new] over the cells of the client list. *)
Fixpoint for_each_client (l : GList) (type : MeloEventType) (event : N)
    (id : option string) (data : gpointer) : M State unit :=
  match l with
  | [] => mret tt
  | c :: l' =>
      s ← get;
      client ← deref (clients s !! c.2);
      emit (Callback (callback client) c.2 type event id data
              (user_data client));;
      for_each_client l' type event id data
  end.

(** [melo_event_new]. *)
Definition melo_event_new (type : MeloEventType) (event : N)
    (id : option string) (data : gpointer)
    (free_data_func : option GDestroyNotify) : M State unit :=
  emit G_LOCK;;
  s ← get;
  for_each_client (melo_event_clients s) type event id data;;
  emit G_UNLOCK;;
  match free_data_func with
  | Some f => emit (FreeData f data)
  | None => mret tt
  end.

(** Registration of a sequence of clients, in order. *)
Fixpoint register_all (regs : list (MeloEventCallback * gpointer))
  : M State (list addr) :=
  match regs with
  | [] => mret []
  | r :: regs' =>
      c ← melo_event_register r.1 r.2;
      cs ← register_all regs';
      mret (c :: cs)
  end.

(** The callbacks invoked in a trace, in order. *)
Definition is_callback (a : Action) : bool :=
  match a with Callback _ _ _ _ _ _ _ => true | _ => false end.
Definition callbacks (t : list Action) : list Action :=
  List.filter is_callback t.

End Event.

(** ** The simple playlist ([melo_playlist_simple.c]) *)

Module Playlist.

(** Objects of other components are known by their address only. *)
Definition MeloTags := addr.
Definition MeloPlayer := addr.
Definition GBytes := addr.
(** A set of fields of the tags, as bit flags. *)
Definition MeloTagsFields := N.

Inductive MeloPlayerState :=
| MELO_PLAYER_STATE_NONE
| MELO_PLAYER_STATE_LOADING
| MELO_PLAYER_STATE_BUFFERING
| MELO_PLAYER_STATE_PLAYING
| MELO_PLAYER_STATE_PAUSED_LOADING
| MELO_PLAYER_STATE_PAUSED_BUFFERING
| MELO_PLAYER_STATE_PAUSED
| MELO_PLAYER_STATE_STOPPED
| MELO_PLAYER_STATE_ERROR.

(** The items of a playlist; their fields are reached as [Item.name],
    [Item.path], ... *)
Module Item.
(** Modelled from the spec: the declaration of [MeloPlaylistItem] (in
    [melo_playlist.h]) is missing; the fields are those that the spec lists
    and that the code reads and writes, and the item is reference
    counted. *)
Record MeloPlaylistItem := mk {
  name : option string;
  full_name : option string;
  path : option string;
  tags : option MeloTags;
  can_play : bool;
  can_remove : bool;
  ref_count : nat;
}.
Definition set_name (v : option string) (it : MeloPlaylistItem) :=
  mk v (full_name it) (path it) (tags it) (can_play it) (can_remove it)
    (ref_count it).
Definition set_can_play (v : bool) (it : MeloPlaylistItem) :=
  mk (name it) (full_name it) (path it) (tags it) v (can_remove it)
    (ref_count it).
Definition set_can_remove (v : bool) (it : MeloPlaylistItem) :=
  mk (name it) (full_name it) (path it) (tags it) (can_play it) v
    (ref_count it).
Definition set_ref_count (v : nat) (it : MeloPlaylistItem) :=
  mk (name it) (full_name it) (path it) (tags it) (can_play it)
    (can_remove it) v.
End Item.
Abbreviation MeloPlaylistItem := Item.MeloPlaylistItem.

(** [MeloPlaylistList], the result of [get_list]: its fields [items] and
    [current]. *)
Record MeloPlaylistList := mkList {
  list_items : GList;
  list_current : option string;
}.

(** The accessors of [melo_tags.c] that the playlist calls; the tags
    themselves are not part of this development. [melo_tags_get_cover t ty]
    is the returned data and the new content of [*type], [ty] being the
    old one. *)
Class MeloTagsOps := {
  melo_tags_has_cover : option MeloTags → bool;
  melo_tags_get_cover : MeloTags → option string → option GBytes * option string;
}.

(** Calls that leave the playlist. *)
Inductive Action :=
| g_mutex_lock
| g_mutex_unlock
| melo_player_play (player : MeloPlayer) (path name : option string)
    (tags : option MeloTags) (insert : bool)
| melo_player_set_state (player : option MeloPlayer) (state : MeloPlayerState)
| melo_tags_ref (tags : MeloTags)
| melo_tags_set_cover_url (tags : option MeloTags) (name : string).

(** The playlist object ([MeloPlaylist.player] and the private structure
    but for its mutex, which the trace accounts for), the heap of playlist
    items, the allocator and the trace. *)
Record State := mkState {
  player : option MeloPlayer;
  playlist : GList;
  names : gmap string addr;
  current : option addr;
  override_cover_url : bool;
  heap : gmap addr MeloPlaylistItem;
  next_addr : addr;
  trace : list Action;
}.

(** [melo_playlist_simple_init], for a playlist attached to [pl]. *)
Definition init (pl : option MeloPlayer) (override : bool) : State :=
  {| player := pl; playlist := []; names := ∅; current := None;
     override_cover_url := override; heap := ∅; next_addr := 1%nat;
     trace := [] |}.

Definition set_playlist (l : GList) : M State unit :=
  modify (λ s, mkState (player s) l (names s) (current s)
                 (override_cover_url s) (heap s) (next_addr s) (trace s)).
Definition set_names (m : gmap string addr) : M State unit :=
  modify (λ s, mkState (player s) (playlist s) m (current s)
                 (override_cover_url s) (heap s) (next_addr s) (trace s)).
Definition set_current (c : option addr) : M State unit :=
  modify (λ s, mkState (player s) (playlist s) (names s) c
                 (override_cover_url s) (heap s) (next_addr s) (trace s)).
Definition set_heap (h : gmap addr MeloPlaylistItem) : M State unit :=
  modify (λ s, mkState (player s) (playlist s) (names s) (current s)
                 (override_cover_url s) h (next_addr s) (trace s)).
Definition emit (a : Action) : M State unit :=
  modify (λ s, mkState (player s) (playlist s) (names s) (current s)
                 (override_cover_url s) (heap s) (next_addr s)
                 (trace s ++ [a])).
Definition alloc : M State addr :=
  λ s, Some (next_addr s,
             mkState (player s) (playlist s) (names s) (current s)
               (override_cover_url s) (heap s) (S (next_addr s)) (trace s)).

(** [melo_playlist_simple_override_cover_url]. *)
Definition melo_playlist_simple_override_cover_url (override_url : bool)
  : M State unit :=
  modify (λ s, mkState (player s) (playlist s) (names s) (current s)
                 override_url (heap s) (next_addr s) (trace s)).

(** *** Playlist items *)

(** Read of [*item]. *)
Definition load (item : addr) : M State MeloPlaylistItem :=
  s ← get; deref (heap s !! item).
(** Write to fields of [*item]. *)
Definition store (item : addr) (f : MeloPlaylistItem → MeloPlaylistItem)
  : M State unit :=
  it ← load item; s ← get; set_heap (<[item := f it]> (heap s)).

(** Modelled from the spec: [melo_playlist_item_new] (in [melo_playlist.c])
    is missing. A new item holds copies of its strings and one reference. *)
Definition melo_playlist_item_new (name full_name path : option string)
    (tags : option MeloTags) : M State addr :=
  item ← alloc;
  s ← get;
  set_heap (<[item := Item.mk name full_name path tags false false 1]> (heap s));;
  mret item.
(** Modelled from the spec: [melo_playlist_item_ref] (in [melo_playlist.c])
    is missing. It takes one more reference and returns the item. *)
Definition melo_playlist_item_ref (item : addr) : M State addr :=
  it ← load item;
  store item (Item.set_ref_count (S (Item.ref_count it)));;
  mret item.
(** Modelled from the spec: [melo_playlist_item_unref] (in
    [melo_playlist.c]) is missing. It drops one reference, and the last one
    frees the item. *)
Definition melo_playlist_item_unref (item : addr) : M State unit :=
  it ← load item;
  match Item.ref_count it with
  | S (S n) => store item (Item.set_ref_count (S n))
  | _ => s ← get; set_heap (delete item (heap s))
  end.

(** *** Lists of items *)

(** [g_list_prepend]: the new list, and its start. *)
Definition g_list_prepend (l : GList) (d : addr) : M State (addr * GList) :=
  n ← alloc; mret (n, (n, d) :: l).

(** [g_list_copy_deep]: fresh nodes, the data being [func data]. *)
Fixpoint g_list_copy_deep (l : GList) (func : addr → M State addr)
  : M State GList :=
  match l with
  | [] => mret []
  | c :: l' =>
      n ← alloc;
      d ← func c.2;
      r ← g_list_copy_deep l' func;
      mret ((n, d) :: r)
  end.

(** [g_list_free_full]: [free_func] on the data of each cell, from the head
    of the list, then the release of the cells. *)
Fixpoint g_list_free_full (l : GList) (free_func : addr → M State unit)
  : M State unit :=
  match l with
  | [] => mret tt
  | c :: l' => free_func c.2;; g_list_free_full l' free_func
  end.

(** [melo_playlist_simple_finalize]: the table of the names is emptied and
    released, then the list is released with a [melo_playlist_item_unref] of
    each item. The empty map and the empty list stand for the table and the
    cells that are gone; the mutex is cleared without being taken, and the
    object is not used after the call. *)
Definition melo_playlist_simple_finalize : M State unit :=
  set_names ∅;;
  s ← get;
  g_list_free_full (playlist s) melo_playlist_item_unref;;
  set_playlist [].

(** *** Name of a new item *)

Definition MELO_PLAYLIST_SIMPLE_NAME_EXT_SIZE : nat := 10.

(** [i++] on a [gint]: the code relies on the wrap to the negative
    numbers to leave its loop. *)
Definition gint_wrap (z : Z) : Z :=
  (z + 2147483648) mod 4294967296 - 2147483648.
Definition gint_incr (i : Z) : Z := gint_wrap (i + 1).

(** [final_name] after
    [g_snprintf (final_name + len, MELO_PLAYLIST_SIMPLE_NAME_EXT_SIZE, "_%d", i)],
    where the first [len] bytes of [final_name] are [name]: at most
    [MELO_PLAYLIST_SIMPLE_NAME_EXT_SIZE - 1] characters are written. *)
Definition g_snprintf_ext (name : string) (i : Z) : string :=
  name +:+ String.substring 0 (MELO_PLAYLIST_SIMPLE_NAME_EXT_SIZE - 1)
             ("_" +:+ pretty i).

(** The loop ends: [i] grows until it wraps. *)
Definition loop_measure (i : Z) : Z :=
  if i <=? 0 then 0
  else if i <=? 2147483647 then 2147483649 - i
  else 2147483650.
Definition loop_lt (a b : Z) : Prop := 0 <= loop_measure a < loop_measure b.

Lemma loop_lt_wf : well_founded loop_lt.
Proof.
  apply (well_founded_lt_compat _ (λ i, Z.to_nat (loop_measure i))).
  unfold loop_lt. intros; lia.
Qed.

(** Unfolds lazily, so that [name_loop] evaluates on closed inputs. *)
#[local] Instance loop_lt_WellFounded : WellFounded loop_lt :=
  Acc_intro_generator 40 loop_lt_wf.
#[local] Opaque loop_lt_WellFounded.

Lemma gint_incr_range (i : Z) : -2147483648 <= gint_incr i <= 2147483647.
Proof.
  unfold gint_incr, gint_wrap.
  pose proof (Z.mod_pos_bound (i + 1 + 2147483648) 4294967296 eq_refl). lia.
Qed.

Lemma gint_incr_small (i : Z) :
  -2147483648 <= i < 2147483647 → gint_incr i = i + 1.
Proof. intros. unfold gint_incr, gint_wrap. rewrite Z.mod_small; lia. Qed.

Lemma gint_incr_max : gint_incr 2147483647 = -2147483648.
Proof. reflexivity. Qed.

Lemma gint_incr_lt (i : Z) : 0 < i → loop_lt (gint_incr i) i.
Proof.
  intros Hpos. unfold loop_lt, loop_measure.
  pose proof (gint_incr_range i) as Hr.
  destruct (decide (i = 2147483647)) as [->|Hne]; [by rewrite gint_incr_max|].
  destruct (decide (i < 2147483647)) as [Hlt|Hge].
  - rewrite gint_incr_small by lia.
    repeat match goal with
           | |- context [ ?a <=? ?b ] => destruct (Z.leb_spec a b)
           end; lia.
  - revert Hr. generalize (gint_incr i). intros r Hr.
    repeat match goal with
           | |- context [ ?a <=? ?b ] => destruct (Z.leb_spec a b)
           end; lia.
Qed.

(** The loop
    [for (i = 1; i > 0 && g_hash_table_lookup (priv->names, final_name); i++)
       g_snprintf (final_name + len, ..., "_%d", i);]
    from the state [(final_name, i)]: the state when it is left. *)
Equations name_loop (names : gmap string addr) (name final_name : string)
    (i : Z) : string * Z by wf i loop_lt :=
  name_loop names name final_name i with Z_lt_dec 0 i := {
    | right _ := (final_name, i)
    | left Hpos with names !! final_name := {
        | None := (final_name, i)
        | Some _ := name_loop names name (g_snprintf_ext name i) (gint_incr i) } }.
Next Obligation. intros. by apply gint_incr_lt. Qed.

(** *** The operations of the playlist *)

Section Operations.
Context `{MeloTagsOps}.

(** [melo_playlist_simple_get_list], which does not use [tags_fields];
    [melo_playlist_list_new] allocates with [g_slice_new0], which does not
    return [NULL]. *)
Definition melo_playlist_simple_get_list (tags_fields : MeloTagsFields)
  : M State MeloPlaylistList :=
  emit g_mutex_lock;;
  s ← get;
  items ← g_list_copy_deep (playlist s) melo_playlist_item_ref;
  cur ← match current s with
        | Some c =>
            d ← deref (node_data (playlist s) c);
            it ← load d;
            mret (Item.name it)
        | None => mret None
        end;
  emit g_mutex_unlock;;
  mret (mkList items cur).

(** [melo_playlist_simple_get_tags], which does not use [fields]. *)
Definition melo_playlist_simple_get_tags (name : string)
    (fields : MeloTagsFields) : M State (option MeloTags) :=
  emit g_mutex_lock;;
  s ← get;
  tags ← match names s !! name with
         | Some element =>
             d ← deref (node_data (playlist s) element);
             item ← load d;
             match Item.tags item with
             | Some t => emit (melo_tags_ref t);; mret (Some t)
             | None => mret None
             end
         | None => mret None
         end;
  emit g_mutex_unlock;;
  mret tags.

(** [name] after [if (!name) name = full_name ? full_name : path;]. *)
Definition base_name (name full_name path : option string) : option string :=
  match name with
  | Some n => Some n
  | None => match full_name with Some f => Some f | None => path end
  end.

(** [melo_playlist_simple_add]. [strlen (name)] is undefined when none of
    [name], [full_name] and [path] is given. *)
Definition melo_playlist_simple_add (name full_name path : option string)
    (tags : option MeloTags) (is_current : bool) : M State bool :=
  emit g_mutex_lock;;
  name ← deref (base_name name full_name path);
  s ← get;
  let '(final_name, i) := name_loop (names s) name name 1 in
  if i <? 0 then
    emit g_mutex_unlock;;
    mret false
  else
    item ← melo_playlist_item_new None full_name path tags;
    store item (Item.set_name (Some final_name));;
    store item (Item.set_can_play true);;
    store item (Item.set_can_remove true);;
    '(start, l) ← g_list_prepend (playlist s) item;
    set_playlist l;;
    s ← get;
    set_names (<[final_name := start]> (names s));;
    when (override_cover_url s && melo_tags_has_cover tags)
      (emit (melo_tags_set_cover_url tags final_name));;
    when is_current (set_current (Some start));;
    emit g_mutex_unlock;;
    mret true.

(** The outcome of [get_prev] and [get_next]: the returned path and the
    contents of [*name] and [*tags]; [None] for an output that the caller
    did not ask for (a [NULL] pointer). *)
Record Adjacent := mkAdjacent {
  adj_path : option string;
  adj_name : option (option string);
  adj_tags : option (option MeloTags);
}.

(** The body of [get_prev] and [get_next] once the adjacent node is
    known, up to the update of [priv->current]. *)
Definition read_adjacent (node : addr) (name : option (option string))
    (tags : option (option MeloTags)) : M State Adjacent :=
  s ← get;
  d ← deref (node_data (playlist s) node);
  item ← load d;
  tags ← match tags, Item.tags item with
         | Some _, Some t => emit (melo_tags_ref t);; mret (Some (Some t))
         | _, _ => mret tags
         end;
  mret (mkAdjacent (Item.path item) ((λ _, Item.name item) <$> name) tags).

(** [melo_playlist_simple_get_prev]. *)
Definition melo_playlist_simple_get_prev (name : option (option string))
    (tags : option (option MeloTags)) (set : bool) : M State Adjacent :=
  emit g_mutex_lock;;
  s ← get;
  r ← match current s with
      | Some cur =>
          next ← deref (node_next (playlist s) cur);
          match next with
          | Some next =>
              r ← read_adjacent next name tags;
              when set (set_current (Some next));;
              mret r
          | None => mret (mkAdjacent None name tags)
          end
      | None => mret (mkAdjacent None name tags)
      end;
  emit g_mutex_unlock;;
  mret r.

(** [melo_playlist_simple_get_next]. *)
Definition melo_playlist_simple_get_next (name : option (option string))
    (tags : option (option MeloTags)) (set : bool) : M State Adjacent :=
  emit g_mutex_lock;;
  s ← get;
  r ← match current s with
      | Some cur =>
          prev ← deref (node_prev (playlist s) cur);
          match prev with
          | Some prev =>
              r ← read_adjacent prev name tags;
              set_current (Some prev);;
              mret r
          | None => mret (mkAdjacent None name tags)
          end
      | None => mret (mkAdjacent None name tags)
      end;
  emit g_mutex_unlock;;
  mret r.

(** [melo_playlist_simple_play]. *)
Definition melo_playlist_simple_play (name : string) : M State bool :=
  emit g_mutex_lock;;
  s ← get;
  item ← match names s !! name with
         | Some element =>
             item ← deref (node_data (playlist s) element);
             melo_playlist_item_ref item;;
             set_current (Some element);;
             mret (Some item)
         | None => mret None
         end;
  emit g_mutex_unlock;;
  match item with
  | None => mret false
  | Some item =>
      match player s with
      | Some pl =>
          it ← load item;
          emit (melo_player_play pl (Item.path it) (Item.name it)
                  (Item.tags it) false)
      | None => mret tt
      end;;
      melo_playlist_item_unref item;;
      mret true
  end.

(** [melo_playlist_simple_remove]. *)
Definition melo_playlist_simple_remove (name : string) : M State bool :=
  emit g_mutex_lock;;
  s ← get;
  match names s !! name with
  | None =>
      emit g_mutex_unlock;;
      mret false
  | Some element =>
      item ← deref (node_data (playlist s) element);
      when (bool_decide (Some element = current s))
        (emit (melo_player_set_state (player s) MELO_PLAYER_STATE_NONE);;
         set_current None);;
      set_playlist (g_list_remove (playlist s) item);;
      set_names (delete name (names s));;
      melo_playlist_item_unref item;;
      emit g_mutex_unlock;;
      mret true
  end.

(** [melo_playlist_simple_get_cover]: the returned value and the contents
    of [*data] and [*type], which are [data] and [type] before the
    call. *)
Definition melo_playlist_simple_get_cover (path : string)
    (data : option GBytes) (type : option string)
  : M State (bool * option GBytes * option string) :=
  emit g_mutex_lock;;
  s ← get;
  match names s !! path with
  | None =>
      emit g_mutex_unlock;;
      mret (false, data, type)
  | Some element =>
      d ← deref (node_data (playlist s) element);
      item ← load d;
      let '(data, type) :=
        match Item.tags item with
        | Some t => melo_tags_get_cover t type
        | None => (data, type)
        end in
      emit g_mutex_unlock;;
      mret (true, data, type)
  end.

(** The two directions of the capability [advance] of a playlist, which
    the class of the simple playlist binds to [get_prev] and
    [get_next]. *)
Inductive Direction := PREV | NEXT.
Definition advance (d : Direction) :=
  match d with
  | PREV => melo_playlist_simple_get_prev
  | NEXT => melo_playlist_simple_get_next
  end.

(** A call of one of the operations, and its effect on the state. *)
Inductive Call :=
| CallGetList (tags_fields : MeloTagsFields)
| CallGetTags (name : string) (fields : MeloTagsFields)
| CallAdd (name full_name path : option string) (tags : option MeloTags)
    (is_current : bool)
| CallAdvance (d : Direction) (name : option (option string))
    (tags : option (option MeloTags)) (set : bool)
| CallPlay (name : string)
| CallRemove (name : string)
| CallGetCover (path : string) (data : option GBytes) (type : option string).

Definition call (c : Call) : M State unit :=
  match c with
  | CallGetList f => melo_playlist_simple_get_list f;; mret tt
  | CallGetTags n f => melo_playlist_simple_get_tags n f;; mret tt
  | CallAdd n f p t c => melo_playlist_simple_add n f p t c;; mret tt
  | CallAdvance d n t s => advance d n t s;; mret tt
  | CallPlay n => melo_playlist_simple_play n;; mret tt
  | CallRemove n => melo_playlist_simple_remove n;; mret tt
  | CallGetCover p d t => melo_playlist_simple_get_cover p d t;; mret tt
  end.

Fixpoint calls (cs : list Call) : M State unit :=
  match cs with
  | [] => mret tt
  | c :: cs' => call c;; calls cs'
  end.

End Operations.

(** Tags without cover: the accessors when no tags carry one. *)
Definition no_cover : MeloTagsOps :=
  {| melo_tags_has_cover := λ _, false;
     melo_tags_get_cover := λ _ type, (None, type) |}.

End Playlist.

(** ** The names of the events and the events of the players
       ([melo_event.c]) *)

Module PlayerEvent.
Import Event.

(** Modelled from the spec: the enumeration [MeloEventType] is declared in
    [melo_event.h], which is missing. Its constants are numbered from [0] in
    the order in which the spec lists the types, which is the order of the
    table of their names, and [MELO_EVENT_TYPE_COUNT] closes it. The
    enumeration has no negative constant, and its values are unsigned. *)
Definition MeloEventType_value (type : MeloEventType) : N :=
  match type with
  | MELO_EVENT_TYPE_GENERAL => 0
  | MELO_EVENT_TYPE_MODULE => 1
  | MELO_EVENT_TYPE_BROWSER => 2
  | MELO_EVENT_TYPE_PLAYER => 3
  | MELO_EVENT_TYPE_PLAYLIST => 4
  end.
(** Modelled from the spec: the last constant of [MeloEventType], in the
    missing [melo_event.h]. *)
Definition MELO_EVENT_TYPE_COUNT : N := 5.

(** Modelled from the spec: the enumeration [MeloEventPlayer] of the missing
    [melo_event.h], with the sub-types that the spec lists for the events of
    a player. *)
Inductive MeloEventPlayer :=
| MELO_EVENT_PLAYER_NEW
| MELO_EVENT_PLAYER_DELETE
| MELO_EVENT_PLAYER_STATUS
| MELO_EVENT_PLAYER_STATE
| MELO_EVENT_PLAYER_BUFFERING
| MELO_EVENT_PLAYER_SEEK
| MELO_EVENT_PLAYER_DURATION
| MELO_EVENT_PLAYER_PLAYLIST
| MELO_EVENT_PLAYER_VOLUME
| MELO_EVENT_PLAYER_MUTE
| MELO_EVENT_PLAYER_NAME
| MELO_EVENT_PLAYER_ERROR
| MELO_EVENT_PLAYER_TAGS.
(** Modelled from the spec: the constants of [MeloEventPlayer] are numbered
    from [0] in the order of the spec, which is the order of the table of
    their names. *)
Definition MeloEventPlayer_value (event : MeloEventPlayer) : N :=
  match event with
  | MELO_EVENT_PLAYER_NEW => 0
  | MELO_EVENT_PLAYER_DELETE => 1
  | MELO_EVENT_PLAYER_STATUS => 2
  | MELO_EVENT_PLAYER_STATE => 3
  | MELO_EVENT_PLAYER_BUFFERING => 4
  | MELO_EVENT_PLAYER_SEEK => 5
  | MELO_EVENT_PLAYER_DURATION => 6
  | MELO_EVENT_PLAYER_PLAYLIST => 7
  | MELO_EVENT_PLAYER_VOLUME => 8
  | MELO_EVENT_PLAYER_MUTE => 9
  | MELO_EVENT_PLAYER_NAME => 10
  | MELO_EVENT_PLAYER_ERROR => 11
  | MELO_EVENT_PLAYER_TAGS => 12
  end.
(** Modelled from the spec: the last constant of [MeloEventPlayer], in the
    missing [melo_event.h]. *)
Definition MELO_EVENT_PLAYER_COUNT : N := 13.

(** An array of strings given by designated initialisers [[i] = v]: it is as
    long as the greatest index asks for, an element without initialiser is
    [NULL], and a later initialiser of an index replaces an earlier one. *)
Definition designated (inits : list (N * string)) : list (option string) :=
  foldl (λ a iv, <[N.to_nat iv.1 := Some iv.2]> a)
    (replicate (foldr (λ iv n, S (N.to_nat iv.1) `max` n)%nat 0%nat inits) None)
    inits.

Definition melo_event_type_string : list (option string) :=
  designated
    [(MeloEventType_value MELO_EVENT_TYPE_GENERAL, "general");
     (MeloEventType_value MELO_EVENT_TYPE_MODULE, "module");
     (MeloEventType_value MELO_EVENT_TYPE_BROWSER, "browser");
     (MeloEventType_value MELO_EVENT_TYPE_PLAYER, "player");
     (MeloEventType_value MELO_EVENT_TYPE_PLAYLIST, "playlist")]%string.

(** [melo_event_type_to_string]: the name, or [NULL]; a read past the end of
    the table is undefined. *)
Definition melo_event_type_to_string (type : N) : option (option string) :=
  if decide (type < MELO_EVENT_TYPE_COUNT)%N
  then melo_event_type_string !! N.to_nat type
  else Some None.

Definition melo_event_player_string : list (option string) :=
  designated
    [(MeloEventPlayer_value MELO_EVENT_PLAYER_NEW, "new");
     (MeloEventPlayer_value MELO_EVENT_PLAYER_DELETE, "delete");
     (MeloEventPlayer_value MELO_EVENT_PLAYER_STATUS, "status");
     (MeloEventPlayer_value MELO_EVENT_PLAYER_STATE, "state");
     (MeloEventPlayer_value MELO_EVENT_PLAYER_BUFFERING, "buffering");
     (MeloEventPlayer_value MELO_EVENT_PLAYER_SEEK, "seek");
     (MeloEventPlayer_value MELO_EVENT_PLAYER_DURATION, "duration");
     (MeloEventPlayer_value MELO_EVENT_PLAYER_PLAYLIST, "playlist");
     (MeloEventPlayer_value MELO_EVENT_PLAYER_VOLUME, "volume");
     (MeloEventPlayer_value MELO_EVENT_PLAYER_MUTE, "mute");
     (MeloEventPlayer_value MELO_EVENT_PLAYER_NAME, "name");
     (MeloEventPlayer_value MELO_EVENT_PLAYER_ERROR, "error");
     (MeloEventPlayer_value MELO_EVENT_PLAYER_TAGS, "tags")]%string.

(** [melo_event_player_to_string]. *)
Definition melo_event_player_to_string (event : N) : option (option string) :=
  if decide (event < MELO_EVENT_PLAYER_COUNT)%N
  then melo_event_player_string !! N.to_nat event
  else Some None.





Section Platform.

(** The size of a pointer in bytes ([GLIB_SIZEOF_VOID_P] of GLib), and the
    address of [melo_player_status_unref] of [melo_player.c]. *)
Context (GLIB_SIZEOF_VOID_P : Z) (melo_player_status_unref : GDestroyNotify).





End Platform.

End PlayerEvent.

(** ** The paths of the file browser ([melo_browser_file.c]) *)

Module BrowserFile.

(** [melo_brower_file_fix_path]: the path after its leading slashes. *)
Fixpoint melo_brower_file_fix_path (path : string) : string :=
  match path with
  | String c path' =>
      if decide (c = "/"%char) then melo_brower_file_fix_path path' else path
  | EmptyString => path
  end.

(** [path + n], within the string. *)
Fixpoint skip (n : nat) (path : string) : string :=
  match n, path with
  | S n, String _ path' => skip n path'
  | _, _ => path
  end.

(** The first statements of [melo_browser_file_get_volume_list]: the
    identifier of the volume is the path up to its first slash
    ([g_strstr_len (path, -1, "/")]), and the path in the volume is what
    follows that slash, or is empty. *)
Fixpoint volume_id_and_path (path : string) : string * string :=
  match path with
  | String c path' =>
      if decide (c = "/"%char) then (EmptyString, path')
      else let '(id, rest) := volume_id_and_path path' in (String c id, rest)
  | EmptyString => (EmptyString, EmptyString)
  end.

(** What [melo_browser_file_get_list] lists: the root of the browser, made
    of the entry [local] and of the volumes; a directory of the local file
    system, by its URI; or a directory of a volume, by the identifier of the
    volume and the path in it. The lists themselves come from GIO. *)
Inductive Listing :=
| LIST_ROOT
| LIST_LOCAL (uri : string)
| LIST_VOLUME (id path : string).

(** [melo_browser_file_get_list], up to the calls that build the list;
    [None] where it returns [NULL] without listing anything. *)
Definition melo_browser_file_get_list (path : option string) : option Listing :=
  match path with
  | Some (String c path) =>
      if decide (c = "/"%char) then
        if decide (path = EmptyString) then Some LIST_ROOT
        else if String.prefix "local" path then
          Some (LIST_LOCAL ("file:/" +:+ melo_brower_file_fix_path (skip 5 path)))
        else
          let '(id, rest) := volume_id_and_path path in
          Some (LIST_VOLUME id rest)
      else None
  | _ => None
  end.

End BrowserFile.

(** * Properties of the event dispatcher *)

Module EventProps.
Import Event.

(** The call that [melo_event_new] makes for the client of a cell. *)
Definition call_of (h : gmap addr MeloEventClient) (type : MeloEventType)
    (event : N) (id : option string) (data : gpointer) (c : addr * addr)
  : option Action :=
  cl ← h !! c.2;
  Some (Callback (callback cl) c.2 type event id data (user_data cl)).

Definition with_trace (s : State) (t : list Action) : State :=
  mkState (melo_event_clients s) (clients s) (next_addr s) t.

(** The call made for the client [c] registered as [r]. *)
Definition call_for (type : MeloEventType) (event : N) (id : option string)
    (data : gpointer) (c : addr) (r : MeloEventCallback * gpointer) : Action :=
  Callback r.1 c type event id data r.2.

(** What [melo_event_new] adds to the trace after the callbacks. *)
Definition free_data (free_data_func : option GDestroyNotify) (data : gpointer)
  : list Action :=
  match free_data_func with Some f => [FreeData f data] | None => [] end.

(** The claim that callbacks run in the order of registration, for the
    clients [regs] registered from the start of the process. *)
Definition registration_order (regs : list (MeloEventCallback * gpointer))
    (type : MeloEventType) (event : N) (id : option string) (data : gpointer)
    (free_data_func : option GDestroyNotify) : Prop :=
  ∃ cs s1 s2,
    register_all regs init = Some (cs, s1) ∧
    melo_event_new type event id data free_data_func s1 = Some (tt, s2) ∧
    callbacks (drop (length (trace s1)) (trace s2))
      = zip_with (call_for type event id data) cs regs.

Lemma for_each_client_spec l type event id data s acts :
  mapM (call_of (clients s) type event id data) l = Some acts →
  for_each_client l type event id data s
    = Some (tt, with_trace s (trace s ++ acts)).
Proof.
  revert s acts. induction l as [|c l IH]; intros s acts Hm.
  - injection Hm as <-. rewrite app_nil_r. by destruct s.
  - cbn in Hm.
    destruct (call_of _ _ _ _ _ c) as [a|] eqn:Ha; [|done]. cbn in Hm.
    destruct (mapM _ l) as [acts'|] eqn:Hl; [|done]. injection Hm as <-.
    unfold call_of in Ha.
    destruct (clients s !! c.2) as [cl|] eqn:Hc; [|done]. injection Ha as <-.
    msimpl. rewrite Hc. msimpl.
    rewrite (IH _ acts') by done. unfold with_trace. simpl.
    by rewrite <- app_assoc.
Qed.


(** The state after a registration. *)
Definition registered (cb : MeloEventCallback) (ud : gpointer) (s : State)
  : State :=
  mkState ((S (next_addr s), next_addr s) :: melo_event_clients s)
    (<[next_addr s := mkClient cb ud]> (clients s))
    (S (S (next_addr s))) (trace s ++ [G_LOCK; G_UNLOCK]).

Lemma melo_event_register_eq cb ud s :
  melo_event_register cb ud s = Some (next_addr s, registered cb ud s).
Proof.
  unfold melo_event_register, registered. msimpl. by rewrite <- app_assoc.
Qed.

Lemma register_all_cons cb ud regs s :
  register_all ((cb, ud) :: regs) s
  = match register_all regs (registered cb ud s) with
    | Some (cs, s1) => Some (next_addr s :: cs, s1)
    | None => None
    end.
Proof.
  simpl. unfold mbind at 1, M_bind at 1. rewrite melo_event_register_eq.
  unfold mbind, M_bind. by destruct (register_all regs _) as [[]|].
Qed.

(** Registration of [regs]: the new clients head the list, the latest
    first. *)
Lemma register_all_spec regs s :
  ∃ cs s1,
    register_all regs s = Some (cs, s1) ∧
    length cs = length regs ∧
    Forall (λ c, next_addr s ≤ c < next_addr s1)%nat cs ∧
    NoDup cs ∧
    (next_addr s ≤ next_addr s1)%nat ∧
    (∀ c, (c < next_addr s)%nat → clients s1 !! c = clients s !! c) ∧
    (∀ i c r, cs !! i = Some c → regs !! i = Some r →
              clients s1 !! c = Some (mkClient r.1 r.2)) ∧
    (melo_event_clients s1).*2 = reverse cs ++ (melo_event_clients s).*2.
Proof.
  revert s. induction regs as [|[cb ud] regs IH]; intros s.
  - exists [], s. split_and!; try done; try constructor.
  - destruct (IH (registered cb ud s))
      as (cs & s1 & Hr & Hlen & Hrange & Hnd & Hle & Hold & Hnew & Hl).
    exists (next_addr s :: cs), s1.
    rewrite register_all_cons, Hr.
    simpl in *. split_and!; try done.
    + by rewrite Hlen.
    + constructor; [lia|]. eapply Forall_impl; [exact Hrange|]. simpl. lia.
    + constructor; [|done]. intros Hin.
      rewrite Forall_forall in Hrange. apply Hrange in Hin. simpl in Hin. lia.
    + lia.
    + intros c Hc. rewrite Hold by lia. simpl. rewrite lookup_insert_ne; [done|lia].
    + intros [|i] c r Hc Hreg; simpl in *.
      * injection Hc as <-. injection Hreg as <-.
        rewrite Hold by lia. simpl. by rewrite lookup_insert_eq.
      * by eapply Hnew.
    + rewrite Hl, reverse_cons. simpl. by rewrite <- app_assoc.
Qed.

Lemma melo_event_new_eq type event id data free_data_func s acts :
  mapM (call_of (clients s) type event id data) (melo_event_clients s)
    = Some acts →
  melo_event_new type event id data free_data_func s
    = Some (tt, with_trace s (trace s ++ [G_LOCK] ++ acts ++ [G_UNLOCK]
                                ++ free_data free_data_func data)).
Proof.
  intros Hm. unfold melo_event_new. msimpl.
  erewrite for_each_client_spec by exact Hm.
  unfold with_trace. destruct free_data_func; unfold emit; msimpl;
    repeat rewrite <- app_assoc; simpl; by rewrite ?app_nil_r.
Qed.

(** The calls for the clients [cs], registered as [regs], all of them in the
    heap [h]. *)
Lemma calls_of_registered h type event id data cs regs (l : GList) :
  length cs = length regs →
  (∀ i c r, cs !! i = Some c → regs !! i = Some r →
            h !! c = Some (mkClient r.1 r.2)) →
  l.*2 = reverse cs →
  mapM (call_of h type event id data) l
    = Some (reverse (zip_with (call_for type event id data) cs regs)).
Proof.
  intros Hlen Hh Hl. apply mapM_Some.
  assert (Forall2 (λ c a, call_of h type event id data (0%nat, c) = Some a)
            cs (zip_with (call_for type event id data) cs regs)) as HF.
  { clear Hl. revert regs Hlen Hh.
    induction cs as [|c cs IH]; intros [|r regs] Hlen Hh; simplify_eq/=;
      constructor.
    - unfold call_of. simpl. by rewrite (Hh 0%nat c r eq_refl eq_refl).
    - apply IH; [done|]. intros i c' r' ??. by apply (Hh (S i)). }
  apply Forall2_reverse in HF. rewrite <- Hl in HF.
  apply Forall2_fmap_l in HF. eapply Forall2_impl; [exact HF|].
  by intros [n c] a.
Qed.

(** C1, as the code has it: a publish after the registration of the clients
    [regs] calls back every one of them exactly once, between the lock and
    the unlock of the publish, the client registered last being called first
    and the one registered first being called last; the payload is freed
    once, after the unlock. *)
Theorem publish_calls_latest_client_first regs type event id data free_data_func :
  ∃ cs s1 s2,
    register_all regs init = Some (cs, s1) ∧
    length cs = length regs ∧
    NoDup cs ∧
    melo_event_new type event id data free_data_func s1 = Some (tt, s2) ∧
    trace s2 = trace s1 ++ [G_LOCK]
                 ++ reverse (zip_with (call_for type event id data) cs regs)
                 ++ [G_UNLOCK] ++ free_data free_data_func data.
Proof.
  destruct (register_all_spec regs init)
    as (cs & s1 & Hr & Hlen & _ & Hnd & _ & _ & Hnew & Hl).
  simpl in Hl. rewrite app_nil_r in Hl.
  eexists cs, s1, _. split_and!; [done..| |].
  - apply melo_event_new_eq. by eapply calls_of_registered.
  - done.
Qed.

(** C1 as stated fails: with two clients, the second one registered (the
    client at [3], of callback [20]) is called back before the first one (the
    client at [1], of callback [10]). *)
Lemma registration_order_fails :
  ∃ cs s1 s2,
    register_all [(10, 100); (20, 200)]%nat init = Some (cs, s1) ∧
    melo_event_new MELO_EVENT_TYPE_PLAYER 8 (Some "player_0"%string) 5%nat None
      s1 = Some (tt, s2) ∧
    callbacks (drop (length (trace s1)) (trace s2))
      = [Callback 20%nat 3%nat MELO_EVENT_TYPE_PLAYER 8
           (Some "player_0"%string) 5%nat 200%nat;
         Callback 10%nat 1%nat MELO_EVENT_TYPE_PLAYER 8
           (Some "player_0"%string) 5%nat 100%nat] ∧
    ¬ registration_order [(10, 100); (20, 200)]%nat MELO_EVENT_TYPE_PLAYER 8
        (Some "player_0"%string) 5%nat None.
Proof.
  eexists _, _, _. split_and!; [by vm_compute..|].
  intros (cs & s1 & s2 & Hr & Hn & Hc).
  vm_compute in Hr. injection Hr as <- <-.
  vm_compute in Hn. injection Hn as <-.
  vm_compute in Hc. discriminate Hc.
Qed.

End EventProps.

(** * Properties of lists *)

Module GListProps.

Lemma node_index_app (l1 l2 : GList) n d :
  n ∉ l1.*1 → node_index (l1 ++ (n, d) :: l2) n = Some (length l1).
Proof.
  induction l1 as [|c l1 IH]; simpl; intros Hn.
  - by rewrite decide_True.
  - rewrite not_elem_of_cons in Hn. destruct Hn as [Hne Hn].
    rewrite decide_False by done. by rewrite IH.
Qed.

Lemma node_data_app (l1 l2 : GList) n d :
  n ∉ l1.*1 → node_data (l1 ++ (n, d) :: l2) n = Some d.
Proof.
  intros Hn. unfold node_data. rewrite node_index_app by done. simpl.
  by rewrite list_lookup_middle.
Qed.

Lemma node_next_app (l1 l2 : GList) n d :
  n ∉ l1.*1 → node_next (l1 ++ (n, d) :: l2) n = Some (fst <$> head l2).
Proof.
  intros Hn. unfold node_next. rewrite node_index_app by done. simpl.
  rewrite lookup_app_r by lia.
  replace (S (length l1) - length l1)%nat with 1%nat by lia.
  by destruct l2.
Qed.

Lemma node_prev_app (l1 l2 : GList) n d :
  n ∉ l1.*1 → node_prev (l1 ++ (n, d) :: l2) n = Some (fst <$> last l1).
Proof.
  intros Hn. unfold node_prev. rewrite node_index_app by done. simpl.
  destruct l1 as [|c l1 _] using rev_ind; [done|].
  rewrite length_app, last_snoc. simpl.
  replace (length l1 + 1)%nat with (S (length l1)) by lia.
  rewrite <- app_assoc. simpl.
  by rewrite list_lookup_middle.
Qed.

Lemma g_list_remove_app (l1 l2 : GList) n d :
  d ∉ l1.*2 → g_list_remove (l1 ++ (n, d) :: l2) d = l1 ++ l2.
Proof.
  induction l1 as [|c l1 IH]; simpl; intros Hd.
  - by rewrite decide_True.
  - rewrite not_elem_of_cons in Hd. destruct Hd as [Hne Hd].
    rewrite decide_False by done. by rewrite IH.
Qed.

Lemma g_list_remove_absent (l : GList) d : d ∉ l.*2 → g_list_remove l d = l.
Proof.
  induction l as [|c l IH]; simpl; intros Hd; [done|].
  rewrite not_elem_of_cons in Hd. destruct Hd as [Hne Hd].
  rewrite decide_False by done. by rewrite IH.
Qed.

(** A cell of a list without repeated nodes or data splits the list. *)
Lemma cell_split (l : GList) n d :
  NoDup l.*1 → NoDup l.*2 → (n, d) ∈ l →
  ∃ l1 l2, l = l1 ++ (n, d) :: l2 ∧ (n ∉ l1.*1) ∧ (d ∉ l1.*2) ∧
           (n ∉ l2.*1) ∧ (d ∉ l2.*2).
Proof.
  intros Hn Hd Hin. apply list_elem_of_split in Hin as (l1 & l2 & ->).
  exists l1, l2. rewrite !fmap_app, !fmap_cons in Hn, Hd. simpl in *.
  apply NoDup_app in Hn as (_ & Hn1 & Hn2). apply NoDup_cons in Hn2 as [Hn2 _].
  apply NoDup_app in Hd as (_ & Hd1 & Hd2). apply NoDup_cons in Hd2 as [Hd2 _].
  split_and!; try done.
  - intros ?. eapply Hn1; [done|]. by left.
  - intros ?. eapply Hd1; [done|]. by left.
Qed.

Lemma node_elem (l : GList) n : n ∈ l.*1 → ∃ d, (n, d) ∈ l.
Proof.
  intros Hin. apply list_elem_of_fmap in Hin as ([n' d] & -> & Hin). eauto.
Qed.

End GListProps.

(** * Properties of the simple playlist *)

Module PlaylistProps.
Import Playlist GListProps.

Ltac psimpl :=
  repeat (msimpl;
          unfold emit, alloc, set_playlist, set_names, set_current, set_heap,
            load, store, melo_playlist_item_new, melo_playlist_item_unref,
            g_list_prepend);
  msimpl.

(** [s] with the heap [h], and [s] after an allocation. *)
Definition with_heap (h : gmap addr MeloPlaylistItem) (s : State) : State :=
  mkState (player s) (playlist s) (names s) (current s) (override_cover_url s)
    h (next_addr s) (trace s).
Definition allocated (s : State) : State :=
  mkState (player s) (playlist s) (names s) (current s) (override_cover_url s)
    (heap s) (S (next_addr s)) (trace s).

Lemma melo_playlist_item_ref_eq d it s :
  heap s !! d = Some it →
  melo_playlist_item_ref d s
    = Some (d, with_heap (<[d := Item.set_ref_count (S (Item.ref_count it)) it]>
                            (heap s)) s).
Proof.
  intros Hit. unfold with_heap, melo_playlist_item_ref. psimpl. rewrite Hit.
  psimpl. by rewrite Hit.
Qed.

(** Evaluation of an operation, reading the lookups off the hypotheses. *)
Ltac prun :=
  repeat (psimpl;
          match goal with
          | H : _ !! _ = _ |- _ => rewrite H
          | H : node_data _ _ = _ |- _ => rewrite H
          | H : node_next _ _ = _ |- _ => rewrite H
          | H : node_prev _ _ = _ |- _ => rewrite H
          | H : Item.ref_count _ = _ |- _ => rewrite H
          | H : player _ = _ |- _ => rewrite H
          | |- context [<[?k := _]> _ !! ?k] => rewrite lookup_insert_eq
          | |- context [melo_playlist_item_ref ?d ?s] =>
              erewrite (melo_playlist_item_ref_eq d _ s) by (simpl; eassumption);
              unfold with_heap
          end);
  psimpl.

(** ** The name of a new item *)

(** The candidates that [add] tries: the base name, then the base name with
    the suffixes [_1], [_2], ... *)
Definition candidate (name : string) (k : Z) : string :=
  if decide (k = 0) then name else g_snprintf_ext name k.

Lemma name_loop_eq names name final_name i :
  name_loop names name final_name i
  = if decide (0 < i) then
      match names !! final_name with
      | Some _ => name_loop names name (g_snprintf_ext name i) (gint_incr i)
      | None => (final_name, i)
      end
    else (final_name, i).
Proof.
  funelim (name_loop names name final_name i);
    destruct (decide (0 < i)); try lia; try done.
  all: match goal with H : _ !! _ = _ |- _ => by rewrite H end.
Qed.

(** From the state reached when the candidates before [i - 1] are taken:
    the loop leaves with the first free candidate, or with a negative [i]
    when the candidates up to [2147483646] are all taken. *)
Lemma name_loop_spec names name final_name i final_name' i' :
  1 <= i <= 2147483647 →
  final_name = candidate name (i - 1) →
  name_loop names name final_name i = (final_name', i') →
  (i <= i' <= 2147483647 ∧ final_name' = candidate name (i' - 1) ∧
   names !! final_name' = None ∧
   ∀ k, i - 1 <= k < i' - 1 → is_Some (names !! candidate name k))
  ∨ (i' = -2147483648 ∧
     ∀ k, i - 1 <= k < 2147483647 → is_Some (names !! candidate name k)).
Proof.
  revert final_name' i'.
  funelim (name_loop names name final_name i); intros fn' i' Hi Hfn Hloop.
  - lia.
  - clear Heqcall.
    assert (is_Some (names0 !! candidate name (i - 1))) as Htaken
      by (rewrite <- Hfn; eauto).
    destruct (decide (i = 2147483647)) as [->|Hne].
    + rewrite gint_incr_max, name_loop_eq in Hloop. simpl in Hloop.
      injection Hloop as <- <-. right. split; [done|].
      intros k Hk. by replace k with (2147483647 - 1) by lia.
    + rewrite gint_incr_small in Hloop by lia.
      rewrite gint_incr_small in H by lia.
      destruct (H fn' i') as [(? & ? & ? & Hk)|(? & Hk)].
      * lia.
      * replace (i + 1 - 1) with i by lia. unfold candidate.
        case_decide; [lia|done].
      * done.
      * left. split_and!; [lia|lia|done..|].
        intros k ?. destruct (decide (k = i - 1)) as [->|]; [done|].
        apply Hk. lia.
      * right. split; [done|].
        intros k ?. destruct (decide (k = i - 1)) as [->|]; [done|].
        apply Hk. lia.
  - injection Hloop as <- <-. left. split_and!; [lia|lia|done..|].
    intros k ?. lia.
Qed.


(** ** States *)

(** [s] with [t] added to its trace, and [s] with [current] set to [c]. *)
Definition traced (t : list Action) (s : State) : State :=
  mkState (player s) (playlist s) (names s) (current s) (override_cover_url s)
    (heap s) (next_addr s) (trace s ++ t).
Definition moved (c : option addr) (s : State) : State :=
  mkState (player s) (playlist s) (names s) c (override_cover_url s)
    (heap s) (next_addr s) (trace s).

(** The names of the items of the playlist, in the order of the list. *)
Definition item_names (s : State) : list (option string) :=
  (λ c : addr * addr, heap s !! c.2 ≫= Item.name) <$> playlist s.

(** The invariant of the playlist: the names of the items are unique, an
    entry of [names] is the node of an item of the list with that name, and
    [current] is a node of the list. *)
Record playlist_invariant (s : State) : Prop := {
  inv_unique : NoDup (item_names s);
  inv_names : ∀ n e, names s !! n = Some e →
    ∃ d it, (e, d) ∈ playlist s ∧ heap s !! d = Some it ∧ Item.name it = Some n;
  inv_current : ∀ c, current s = Some c → c ∈ (playlist s).*1;
}.

(** The well-formed states, which the operations preserve: the invariant
    above, together with what makes it inductive. No node and no item is
    twice in the list, the items of the list are allocated, named, counted
    at least once and indexed by [names], and the allocator is ahead of all
    the addresses in use. *)
Record wf (s : State) : Prop := {
  wf_nodes : NoDup (playlist s).*1;
  wf_data : NoDup (playlist s).*2;
  wf_items : ∀ e d, (e, d) ∈ playlist s →
    ∃ it n, heap s !! d = Some it ∧ Item.name it = Some n ∧
            (1 ≤ Item.ref_count it)%nat ∧ names s !! n = Some e;
  wf_names : ∀ n e, names s !! n = Some e →
    ∃ d it, (e, d) ∈ playlist s ∧ heap s !! d = Some it ∧ Item.name it = Some n;
  wf_current : ∀ c, current s = Some c → c ∈ (playlist s).*1;
  wf_fresh_cells : ∀ e d, (e, d) ∈ playlist s →
    (e < next_addr s)%nat ∧ (d < next_addr s)%nat;
  wf_fresh_heap : ∀ d, is_Some (heap s !! d) → (d < next_addr s)%nat;
}.

Lemma wf_init pl override : wf (init pl override).
Proof.
  split; simpl; try by constructor.
  - intros ?? Hin. by apply elem_of_nil in Hin.
  - intros ?? Hin. by rewrite lookup_empty in Hin.
  - done.
  - intros ?? Hin. by apply elem_of_nil in Hin.
  - intros ? [? Hin]. by rewrite lookup_empty in Hin.
Qed.

(** Two cells of a well-formed playlist whose items have the same name are
    the same cell. *)
Lemma wf_same_name s e1 d1 it1 e2 d2 it2 :
  wf s → (e1, d1) ∈ playlist s → (e2, d2) ∈ playlist s →
  heap s !! d1 = Some it1 → heap s !! d2 = Some it2 →
  Item.name it1 = Item.name it2 → e1 = e2.
Proof.
  intros Hwf Hin1 Hin2 H1 H2 Hn.
  destruct (wf_items s Hwf _ _ Hin1) as (it1' & n1 & H1' & Hn1 & _ & Hm1).
  destruct (wf_items s Hwf _ _ Hin2) as (it2' & n2 & H2' & Hn2 & _ & Hm2).
  simplify_eq. congruence.
Qed.

(** The cell of a node of a list without repeated nodes. *)
Lemma nodup_cell_data (l : GList) e d1 d2 :
  NoDup l.*1 → (e, d1) ∈ l → (e, d2) ∈ l → d1 = d2.
Proof.
  intros Hnd H1 H2.
  apply list_elem_of_lookup in H1 as [i Hi], H2 as [j Hj].
  assert (i = j) as ->.
  { eapply NoDup_lookup; [exact Hnd| |];
      rewrite list_lookup_fmap; [by rewrite Hi|by rewrite Hj]. }
  congruence.
Qed.

Lemma wf_invariant s : wf s → playlist_invariant s.
Proof.
  intros Hwf. split; [|by apply wf_names|by apply wf_current].
  unfold item_names. apply NoDup_alt. intros i j o Hi Hj.
  rewrite list_lookup_fmap in Hi, Hj.
  destruct (playlist s !! i) as [[e1 d1]|] eqn:Hci; [|done].
  destruct (playlist s !! j) as [[e2 d2]|] eqn:Hcj; [|done].
  simpl in *. simplify_eq.
  assert ((e1, d1) ∈ playlist s) as Hin1 by (apply list_elem_of_lookup; eauto).
  assert ((e2, d2) ∈ playlist s) as Hin2 by (apply list_elem_of_lookup; eauto).
  destruct (wf_items s Hwf _ _ Hin1) as (it1 & n1 & H1 & Hn1 & _ & Hm1).
  destruct (wf_items s Hwf _ _ Hin2) as (it2 & n2 & H2 & Hn2 & _ & Hm2).
  rewrite H1, H2 in Hi. simpl in Hi. rewrite Hn1, Hn2 in Hi.
  simplify_eq.
  eapply NoDup_lookup; [exact (wf_nodes s Hwf)| |];
    rewrite list_lookup_fmap; [by rewrite Hci|by rewrite Hcj].
Qed.


(** The item of a node of a well-formed playlist. *)
Lemma wf_node s e :
  wf s → e ∈ (playlist s).*1 →
  ∃ d it n, (e, d) ∈ playlist s ∧ node_data (playlist s) e = Some d ∧
            heap s !! d = Some it ∧ Item.name it = Some n ∧
            (1 ≤ Item.ref_count it)%nat ∧ names s !! n = Some e.
Proof.
  intros Hwf He. apply node_elem in He as [d Hin].
  destruct (wf_items s Hwf _ _ Hin) as (it & n & Hit & Hn & Hrc & Hm).
  exists d, it, n. split_and!; try done.
  destruct (cell_split _ _ _ (wf_nodes s Hwf) (wf_data s Hwf) Hin)
    as (l1 & l2 & -> & ? & _).
  by apply node_data_app.
Qed.

(** The item that [names] gives for a name. *)
Lemma wf_lookup s name e :
  wf s → names s !! name = Some e →
  ∃ d it, (e, d) ∈ playlist s ∧ node_data (playlist s) e = Some d ∧
          heap s !! d = Some it ∧ Item.name it = Some name ∧
          (1 ≤ Item.ref_count it)%nat.
Proof.
  intros Hwf Hn.
  destruct (wf_names s Hwf _ _ Hn) as (d & it & Hin & Hit & Hname).
  destruct (wf_node s e Hwf) as (d' & it' & n' & Hin' & Hd & Hit' & _ & Hrc & _).
  { apply list_elem_of_fmap. by exists (e, d). }
  pose proof (nodup_cell_data _ _ _ _ (wf_nodes s Hwf) Hin Hin') as <-.
  simplify_eq. by exists d, it.
Qed.

Lemma wf_traced t s : wf s → wf (traced t s).
Proof. intros []. by split. Qed.

Lemma wf_moved c s : wf s → c ∈ (playlist s).*1 → wf (moved (Some c) s).
Proof. intros [] Hc. split; try done. simpl. by intros ? [= <-]. Qed.

(** ** What the operations compute *)

Section Facts.
Context `{MeloTagsOps}.

(** The heap after [melo_playlist_item_unref d], [it] being the item. *)
Definition released (d : addr) (it : MeloPlaylistItem)
    (h : gmap addr MeloPlaylistItem) : gmap addr MeloPlaylistItem :=
  match Item.ref_count it with
  | S (S n) => <[d := Item.set_ref_count (S n) it]> h
  | _ => delete d h
  end.

(** The call of [play] to the player, if there is one. *)
Definition play_call (s : State) (it : MeloPlaylistItem) : list Action :=
  match player s with
  | Some pl => [melo_player_play pl (Item.path it) (Item.name it)
                  (Item.tags it) false]
  | None => []
  end.

Lemma ref_unref_heap d it (h : gmap addr MeloPlaylistItem) :
  h !! d = Some it → (1 ≤ Item.ref_count it)%nat →
  released d (Item.set_ref_count (S (Item.ref_count it)) it)
    (<[d := Item.set_ref_count (S (Item.ref_count it)) it]> h) = h.
Proof.
  intros Hd Hrc. unfold released. destruct it as [n f p t cp cr rc]. simpl in *.
  destruct rc as [|rc]; [lia|]. unfold Item.set_ref_count. simpl.
  rewrite insert_insert_eq. by apply insert_id.
Qed.

Lemma play_missing name s :
  names s !! name = None →
  melo_playlist_simple_play name s
    = Some (false, traced [g_mutex_lock; g_mutex_unlock] s).
Proof.
  intros Hn. unfold melo_playlist_simple_play. psimpl. rewrite Hn. psimpl.
  unfold traced. by rewrite <- app_assoc.
Qed.

Lemma play_found name s e d it :
  names s !! name = Some e →
  node_data (playlist s) e = Some d →
  heap s !! d = Some it →
  (1 ≤ Item.ref_count it)%nat →
  melo_playlist_simple_play name s
    = Some (true, traced ([g_mutex_lock; g_mutex_unlock] ++ play_call s it)
                    (moved (Some e) s)).
Proof.
  intros Hn Hd Hit Hrc. unfold melo_playlist_simple_play.
  pose proof (ref_unref_heap d it (heap s) Hit Hrc) as Hheap.
  unfold released in Hheap. simpl in Hheap.
  unfold play_call, traced, moved.
  destruct (Item.ref_count it) as [|rc] eqn:Hcount; [lia|].
  destruct (player s) as [pl|] eqn:Hpl; prun; rewrite Hheap;
    by rewrite <- ?app_assoc.
Qed.

(** The call of [remove] to the player, made when [e] is [current]. *)
Definition stop_call (s : State) (e : addr) : list Action :=
  if bool_decide (Some e = current s)
  then [melo_player_set_state (player s) MELO_PLAYER_STATE_NONE] else [].

Lemma remove_missing name s :
  names s !! name = None →
  melo_playlist_simple_remove name s
    = Some (false, traced [g_mutex_lock; g_mutex_unlock] s).
Proof.
  intros Hn. unfold melo_playlist_simple_remove, traced. prun.
  by rewrite <- app_assoc.
Qed.

(** The state after [remove] of the item [it] at [d], of node [e]. *)
Definition removed (name : string) (e d : addr) (it : MeloPlaylistItem)
    (s : State) : State :=
  mkState (player s) (g_list_remove (playlist s) d) (delete name (names s))
    (if bool_decide (Some e = current s) then None else current s)
    (override_cover_url s) (released d it (heap s)) (next_addr s)
    (trace s ++ [g_mutex_lock] ++ stop_call s e ++ [g_mutex_unlock]).

Lemma remove_found name s e d it :
  names s !! name = Some e →
  node_data (playlist s) e = Some d →
  heap s !! d = Some it →
  melo_playlist_simple_remove name s = Some (true, removed name e d it s).
Proof.
  intros Hn Hd Hit.
  unfold melo_playlist_simple_remove, removed, stop_call, released.
  prun. destruct (bool_decide (Some e = current s)); prun;
    destruct (Item.ref_count it) as [|[|rc]]; prun;
    by rewrite <- ?app_assoc.
Qed.

(** What [get_prev] and [get_next] return for the adjacent item [it], and
    the reference they take on its tags. *)
Definition adjacent_tags (it : MeloPlaylistItem)
    (tags : option (option MeloTags)) : option (option MeloTags) :=
  match tags, Item.tags it with
  | Some _, Some t => Some (Some t)
  | _, _ => tags
  end.
Definition adjacent (it : MeloPlaylistItem) (name : option (option string))
    (tags : option (option MeloTags)) : Adjacent :=
  mkAdjacent (Item.path it) ((λ _, Item.name it) <$> name)
    (adjacent_tags it tags).
Definition tags_ref_call (it : MeloPlaylistItem)
    (tags : option (option MeloTags)) : list Action :=
  match tags, Item.tags it with
  | Some _, Some t => [melo_tags_ref t]
  | _, _ => []
  end.

Lemma get_prev_none name tags set s :
  current s = None →
  melo_playlist_simple_get_prev name tags set s
    = Some (mkAdjacent None name tags,
            traced [g_mutex_lock; g_mutex_unlock] s).
Proof.
  intros Hc. unfold melo_playlist_simple_get_prev, traced. prun.
  rewrite Hc. prun. by rewrite <- app_assoc.
Qed.

Lemma get_prev_last name tags set s cur :
  current s = Some cur →
  node_next (playlist s) cur = Some None →
  melo_playlist_simple_get_prev name tags set s
    = Some (mkAdjacent None name tags,
            traced [g_mutex_lock; g_mutex_unlock] s).
Proof.
  intros Hc Hn. unfold melo_playlist_simple_get_prev, traced. prun.
  rewrite Hc. prun. by rewrite <- app_assoc.
Qed.

Lemma get_prev_found name tags set s cur next d it :
  current s = Some cur →
  node_next (playlist s) cur = Some (Some next) →
  node_data (playlist s) next = Some d →
  heap s !! d = Some it →
  melo_playlist_simple_get_prev name tags set s
    = Some (adjacent it name tags,
            traced ([g_mutex_lock] ++ tags_ref_call it tags ++ [g_mutex_unlock])
              (if set then moved (Some next) s else s)).
Proof.
  intros Hc Hn Hd Hit.
  unfold melo_playlist_simple_get_prev, read_adjacent, adjacent, adjacent_tags,
    tags_ref_call.
  destruct tags as [tags|], (Item.tags it) as [t|] eqn:Ht, set;
    unfold traced, moved; prun; rewrite ?Hc; prun; rewrite ?Ht; prun;
    by rewrite <- ?app_assoc.
Qed.

Lemma get_next_none name tags set s :
  current s = None →
  melo_playlist_simple_get_next name tags set s
    = Some (mkAdjacent None name tags,
            traced [g_mutex_lock; g_mutex_unlock] s).
Proof.
  intros Hc. unfold melo_playlist_simple_get_next, traced. prun.
  rewrite Hc. prun. by rewrite <- app_assoc.
Qed.

Lemma get_next_first name tags set s cur :
  current s = Some cur →
  node_prev (playlist s) cur = Some None →
  melo_playlist_simple_get_next name tags set s
    = Some (mkAdjacent None name tags,
            traced [g_mutex_lock; g_mutex_unlock] s).
Proof.
  intros Hc Hn. unfold melo_playlist_simple_get_next, traced. prun.
  rewrite Hc. prun. by rewrite <- app_assoc.
Qed.

Lemma get_next_found name tags set s cur prev d it :
  current s = Some cur →
  node_prev (playlist s) cur = Some (Some prev) →
  node_data (playlist s) prev = Some d →
  heap s !! d = Some it →
  melo_playlist_simple_get_next name tags set s
    = Some (adjacent it name tags,
            traced ([g_mutex_lock] ++ tags_ref_call it tags ++ [g_mutex_unlock])
              (moved (Some prev) s)).
Proof.
  intros Hc Hn Hd Hit.
  unfold melo_playlist_simple_get_next, read_adjacent, adjacent, adjacent_tags,
    tags_ref_call.
  destruct tags as [tags|], (Item.tags it) as [t|] eqn:Ht;
    unfold traced, moved; prun; rewrite ?Hc; prun; rewrite ?Ht; prun;
    by rewrite <- ?app_assoc.
Qed.

Lemma get_cover_missing path data type s :
  names s !! path = None →
  melo_playlist_simple_get_cover path data type s
    = Some ((false, data, type), traced [g_mutex_lock; g_mutex_unlock] s).
Proof.
  intros Hn. unfold melo_playlist_simple_get_cover, traced. prun.
  by rewrite <- app_assoc.
Qed.

Lemma get_cover_found path data type s e d it :
  names s !! path = Some e →
  node_data (playlist s) e = Some d →
  heap s !! d = Some it →
  melo_playlist_simple_get_cover path data type s
    = Some (match Item.tags it with
            | Some t => (true, (melo_tags_get_cover t type).1,
                         (melo_tags_get_cover t type).2)
            | None => (true, data, type)
            end, traced [g_mutex_lock; g_mutex_unlock] s).
Proof.
  intros Hn Hd Hit. unfold melo_playlist_simple_get_cover, traced. prun.
  destruct (Item.tags it) as [t|]; [destruct (melo_tags_get_cover t type)|];
    prun; by rewrite <- app_assoc.
Qed.

Lemma get_tags_missing name fields s :
  names s !! name = None →
  melo_playlist_simple_get_tags name fields s
    = Some (None, traced [g_mutex_lock; g_mutex_unlock] s).
Proof.
  intros Hn. unfold melo_playlist_simple_get_tags, traced. prun.
  by rewrite <- app_assoc.
Qed.

Lemma get_tags_found name fields s e d it :
  names s !! name = Some e →
  node_data (playlist s) e = Some d →
  heap s !! d = Some it →
  melo_playlist_simple_get_tags name fields s
    = Some (Item.tags it,
            traced ([g_mutex_lock]
                    ++ match Item.tags it with
                       | Some t => [melo_tags_ref t]
                       | None => []
                       end ++ [g_mutex_unlock]) s).
Proof.
  intros Hn Hd Hit. unfold melo_playlist_simple_get_tags, traced. prun.
  destruct (Item.tags it) as [t|]; prun; by rewrite <- ?app_assoc.
Qed.

(** The call of [add] to the tags, made when the playlist overrides the URL
    of the covers. *)
Definition cover_call (s : State) (tags : option MeloTags) (final_name : string)
  : list Action :=
  if override_cover_url s && melo_tags_has_cover tags
  then [melo_tags_set_cover_url tags final_name] else [].

Lemma add_undefined name full_name path tags is_current s :
  base_name name full_name path = None →
  melo_playlist_simple_add name full_name path tags is_current s = None.
Proof. intros Hb. unfold melo_playlist_simple_add. prun. by rewrite Hb. Qed.

Lemma add_exhausted name full_name path tags is_current s base final_name i :
  base_name name full_name path = Some base →
  name_loop (names s) base base 1 = (final_name, i) →
  i < 0 →
  melo_playlist_simple_add name full_name path tags is_current s
    = Some (false, traced [g_mutex_lock; g_mutex_unlock] s).
Proof.
  intros Hb Hl Hi. unfold melo_playlist_simple_add, traced. prun.
  rewrite Hb. prun. rewrite Hl.
  destruct (Z.ltb_spec i 0); [|lia]. prun. by rewrite <- app_assoc.
Qed.

(** The state after a successful [add]: the item is allocated at
    [next_addr s] and its node next to it. *)
Definition added (full_name path : option string) (tags : option MeloTags)
    (is_current : bool) (final_name : string) (s : State) : State :=
  mkState (player s) ((S (next_addr s), next_addr s) :: playlist s)
    (<[final_name := S (next_addr s)]> (names s))
    (if is_current then Some (S (next_addr s)) else current s)
    (override_cover_url s)
    (<[next_addr s := Item.mk (Some final_name) full_name path tags true true 1]>
       (heap s))
    (S (S (next_addr s)))
    (trace s ++ [g_mutex_lock] ++ cover_call s tags final_name
       ++ [g_mutex_unlock]).

Lemma add_done name full_name path tags is_current s base final_name i :
  base_name name full_name path = Some base →
  name_loop (names s) base base 1 = (final_name, i) →
  0 <= i →
  melo_playlist_simple_add name full_name path tags is_current s
    = Some (true, added full_name path tags is_current final_name s).
Proof.
  intros Hb Hl Hi. unfold melo_playlist_simple_add, added, cover_call. prun.
  rewrite Hb. prun. rewrite Hl.
  destruct (Z.ltb_spec i 0); [lia|]. prun.
  unfold Item.set_name, Item.set_can_play, Item.set_can_remove. simpl.
  rewrite !insert_insert_eq.
  destruct (override_cover_url s && melo_tags_has_cover tags), is_current;
    prun; by rewrite <- ?app_assoc.
Qed.

(** ** Preservation of the well-formed states *)

Lemma wf_added full_name path tags is_current final_name s :
  wf s → names s !! final_name = None →
  wf (added full_name path tags is_current final_name s).
Proof.
  intros Hwf Hfree.
  assert (∀ e d, (e, d) ∈ playlist s → e ≠ S (next_addr s) ∧ d ≠ next_addr s)
    as Hold.
  { intros e d Hin. destruct (wf_fresh_cells s Hwf _ _ Hin). lia. }
  split; simpl.
  - apply NoDup_cons. split; [|by apply wf_nodes].
    intros Hin. apply node_elem in Hin as [d Hin]. by apply Hold in Hin as [].
  - apply NoDup_cons. split; [|by apply wf_data].
    intros Hin. apply list_elem_of_fmap in Hin as ([e d] & Heq & Hin).
    apply Hold in Hin as [_ Hd]. by simpl in Heq.
  - intros e d Hin. apply elem_of_cons in Hin as [[= -> ->]|Hin].
    + eexists _, final_name. rewrite !lookup_insert_eq. by split_and!.
    + destruct (wf_items s Hwf _ _ Hin) as (it & n & Hit & Hn & Hrc & Hm).
      exists it, n. apply Hold in Hin as [_ Hd].
      rewrite lookup_insert_ne by done. split_and!; try done.
      rewrite lookup_insert_ne; [done|]. intros ->. congruence.
  - intros n e Hm. destruct (decide (n = final_name)) as [->|Hne].
    + rewrite lookup_insert_eq in Hm. injection Hm as <-.
      eexists _, _. split_and!; [by left|by rewrite lookup_insert_eq|done].
    + rewrite lookup_insert_ne in Hm by done.
      destruct (wf_names s Hwf _ _ Hm) as (d & it & Hin & Hit & Hn).
      exists d, it. split_and!; [by right| |done].
      apply Hold in Hin as [_ Hd]. by rewrite lookup_insert_ne.
  - intros c Hc. destruct is_current.
    + injection Hc as <-. by left.
    + right. by apply wf_current.
  - intros e d Hin. apply elem_of_cons in Hin as [[= -> ->]|Hin]; [lia|].
    destruct (wf_fresh_cells s Hwf _ _ Hin). lia.
  - intros d [it Hit]. destruct (decide (d = next_addr s)) as [->|Hne]; [lia|].
    rewrite lookup_insert_ne in Hit by done.
    assert (d < next_addr s)%nat by (eapply wf_fresh_heap; eauto). lia.
Qed.

Lemma released_other d it (h : gmap addr MeloPlaylistItem) d' :
  d' ≠ d → released d it h !! d' = h !! d'.
Proof.
  intros Hne. unfold released.
  destruct (Item.ref_count it) as [|[|rc]];
    by rewrite ?lookup_delete_ne, ?lookup_insert_ne.
Qed.

Lemma released_allocated d it (h : gmap addr MeloPlaylistItem) d' :
  h !! d = Some it → is_Some (released d it h !! d') → is_Some (h !! d').
Proof.
  intros Hit. destruct (decide (d' = d)) as [->|Hne]; [by rewrite Hit|].
  by rewrite released_other.
Qed.

Lemma wf_removed name e d it s :
  wf s → names s !! name = Some e → (e, d) ∈ playlist s →
  heap s !! d = Some it →
  wf (removed name e d it s).
Proof.
  intros Hwf Hn Hin Hit.
  destruct (cell_split _ _ _ (wf_nodes s Hwf) (wf_data s Hwf) Hin)
    as (l1 & l2 & Hl & He1 & Hd1 & He2 & Hd2).
  assert (g_list_remove (playlist s) d = l1 ++ l2) as Hrm
    by (rewrite Hl; by apply g_list_remove_app).
  assert (∀ e' d', (e', d') ∈ l1 ++ l2 →
            (e', d') ∈ playlist s ∧ e' ≠ e ∧ d' ≠ d) as Hrest.
  { intros e' d' Hin'. rewrite Hl. apply elem_of_app in Hin' as [Hin'|Hin'].
    - split_and!; [apply elem_of_app; by left| |]; intros ->.
      + apply He1, list_elem_of_fmap. by exists (e, d').
      + apply Hd1, list_elem_of_fmap. by exists (e', d).
    - split_and!; [apply elem_of_app; right; by right| |]; intros ->.
      + apply He2, list_elem_of_fmap. by exists (e, d').
      + apply Hd2, list_elem_of_fmap. by exists (e', d). }
  destruct (wf_lookup s name e Hwf Hn) as (d0 & it0 & Hin0 & _ & Hit0 & Hname & _).
  pose proof (nodup_cell_data _ _ _ _ (wf_nodes s Hwf) Hin Hin0) as <-.
  simplify_eq.
  pose proof (wf_nodes s Hwf) as Hnd1. pose proof (wf_data s Hwf) as Hnd2.
  rewrite Hl, fmap_app, fmap_cons in Hnd1, Hnd2.
  apply NoDup_app in Hnd1 as (Hn1 & Hn12 & Hn2).
  apply NoDup_app in Hnd2 as (Hm1 & Hm12 & Hm2).
  apply NoDup_cons in Hn2 as [_ Hn2]. apply NoDup_cons in Hm2 as [_ Hm2].
  unfold removed. split; simpl; rewrite ?Hrm.
  - rewrite fmap_app. apply NoDup_app. split_and!; [done| |done].
    intros x Hx Hx'. eapply Hn12; [done|]. by right.
  - rewrite fmap_app. apply NoDup_app. split_and!; [done| |done].
    intros x Hx Hx'. eapply Hm12; [done|]. by right.
  - intros e' d' Hin'. apply Hrest in Hin' as (Hin' & Hne & Hnd).
    destruct (wf_items s Hwf _ _ Hin') as (it' & n' & Hit' & Hn' & Hrc & Hm).
    exists it', n'. rewrite released_other by done. split_and!; try done.
    rewrite lookup_delete_ne; [done|]. intros ->. congruence.
  - intros n e' Hm. destruct (decide (n = name)) as [->|Hne];
      [by rewrite lookup_delete_eq in Hm|].
    rewrite lookup_delete_ne in Hm by done.
    destruct (wf_lookup s n e' Hwf Hm) as (d' & it' & Hin' & _ & Hit' & Hn' & _).
    assert (e' ≠ e) as Hne'.
    { intros ->.
      pose proof (nodup_cell_data _ _ _ _ (wf_nodes s Hwf) Hin Hin') as <-.
      congruence. }
    assert (d' ≠ d) as Hnd.
    { intros ->. apply Hne'.
      eapply (wf_same_name s e' d it' e d it); eauto. congruence. }
    exists d', it'. rewrite released_other by done. split_and!; try done.
    rewrite Hl in Hin'. apply elem_of_app in Hin' as [Hin'|Hin'];
      [apply elem_of_app; by left|].
    apply elem_of_cons in Hin' as [[= -> ->]|Hin']; [done|].
    apply elem_of_app. by right.
  - intros c Hc. case_bool_decide as Hcur; [done|].
    pose proof (wf_current s Hwf c Hc) as Hin'.
    assert (c ≠ e) by (intros ->; by rewrite Hc in Hcur).
    rewrite Hl, fmap_app, fmap_cons in Hin'. simpl in Hin'.
    rewrite fmap_app. apply elem_of_app in Hin' as [Hin'|Hin'];
      [apply elem_of_app; by left|].
    apply elem_of_cons in Hin' as [->|Hin']; [done|].
    apply elem_of_app. by right.
  - intros e' d' Hin'. apply Hrest in Hin' as (Hin' & _).
    by apply wf_fresh_cells.
  - intros d' Hd'. eapply wf_fresh_heap; [done|].
    by eapply released_allocated.
Qed.

(** ** The copy of the list *)

(** [it] with [k] more references. *)
Definition add_refs (k : nat) (it : MeloPlaylistItem) : MeloPlaylistItem :=
  Item.set_ref_count (Item.ref_count it + k)%nat it.

(** The state after a copy of [n] cells that leaves the heap [h]. *)
Definition copied (n : nat) (h : gmap addr MeloPlaylistItem) (s : State)
  : State :=
  mkState (player s) (playlist s) (names s) (current s) (override_cover_url s)
    h (next_addr s + n)%nat (trace s).

Lemma add_refs_0 it : add_refs 0 it = it.
Proof. destruct it. unfold add_refs, Item.set_ref_count. simpl. f_equal. lia. Qed.

Lemma g_list_copy_deep_cons n d (l : GList) func s :
  g_list_copy_deep ((n, d) :: l) func s
  = match func d (allocated s) with
    | Some (d', s1) =>
        match g_list_copy_deep l func s1 with
        | Some (r, s2) => Some ((next_addr s, d') :: r, s2)
        | None => None
        end
    | None => None
    end.
Proof.
  simpl. unfold mbind, M_bind, alloc, allocated, mret, M_ret.
  destruct (func d _) as [[d' s1]|]; [|done].
  by destruct (g_list_copy_deep l func s1) as [[r s2]|].
Qed.

Lemma g_list_copy_deep_spec (l : GList) s :
  (∀ c, c ∈ l → is_Some (heap s !! c.2)) →
  ∃ l' h',
    g_list_copy_deep l melo_playlist_item_ref s
      = Some (l', copied (length l) h' s) ∧
    l'.*2 = l.*2 ∧
    l'.*1 = seq (next_addr s) (length l) ∧
    ∀ d, ∃ k, (d ∈ l.*2 → (1 ≤ k)%nat) ∧
              h' !! d = add_refs k <$> heap s !! d.
Proof.
  revert s. induction l as [|[n d] l IH]; intros s Hl.
  - exists [], (heap s). split_and!; try done.
    + unfold copied. destruct s. msimpl. do 3 f_equal. lia.
    + intros d. exists 0%nat. split; [by intros ?%elem_of_nil|].
      destruct (heap s !! d); simpl; by rewrite ?add_refs_0.
  - destruct (Hl (n, d)) as [it Hit]; [by left|]. simpl in Hit.
    destruct (IH (with_heap (<[d := Item.set_ref_count (S (Item.ref_count it)) it]>
                               (heap s)) (allocated s)))
      as (l' & h' & Hcopy & Hdata & Hnodes & Hheap).
    { intros c Hc. simpl. destruct (decide (c.2 = d)) as [->|Hne].
      - rewrite lookup_insert_eq. eauto.
      - rewrite lookup_insert_ne by done. apply Hl. by right. }
    exists ((next_addr s, d) :: l'), h'. split_and!.
    + rewrite g_list_copy_deep_cons.
      rewrite (melo_playlist_item_ref_eq d it) by done.
      simpl heap. rewrite Hcopy. unfold copied. simpl. do 4 f_equal. lia.
    + rewrite !fmap_cons. by rewrite Hdata.
    + rewrite fmap_cons. by rewrite Hnodes.
    + intros d'. destruct (Hheap d') as (k & Hk & Hd'). simpl in Hd'.
      destruct (decide (d' = d)) as [->|Hne].
      * exists (S k). split; [lia|]. rewrite Hd', lookup_insert_eq, Hit. simpl.
        f_equal. unfold add_refs, Item.set_ref_count. simpl. f_equal. lia.
      * exists k. rewrite Hd', lookup_insert_ne by done. split; [|done].
        intros Hin. apply Hk. simpl in Hin.
        apply elem_of_cons in Hin as [?|?]; done.
Qed.

(** The name that [get_list] reports for [current]. *)
Definition current_name (s : State) : option string :=
  c ← current s; d ← node_data (playlist s) c; it ← heap s !! d; Item.name it.

Lemma get_list_spec tags_fields s :
  wf s →
  ∃ l h',
    melo_playlist_simple_get_list tags_fields s
      = Some (l, traced [g_mutex_lock; g_mutex_unlock]
                   (copied (length (playlist s)) h' s)) ∧
    (list_items l).*2 = (playlist s).*2 ∧
    (list_items l).*1 = seq (next_addr s) (length (playlist s)) ∧
    list_current l = current_name s ∧
    ∀ d, ∃ k, (d ∈ (playlist s).*2 → (1 ≤ k)%nat) ∧
              h' !! d = add_refs k <$> heap s !! d.
Proof.
  intros Hwf.
  destruct (g_list_copy_deep_spec (playlist s) (traced [g_mutex_lock] s))
    as (l' & h' & Hcopy & Hdata & Hnodes & Hheap).
  { intros [e d] Hin. simpl.
    destruct (wf_items s Hwf _ _ Hin) as (it & _ & -> & _). eauto. }
  exists (mkList l' (current_name s)), h'. split_and!; try done.
  unfold melo_playlist_simple_get_list, current_name.
  unfold traced, copied in *. simpl in Hcopy. psimpl. rewrite Hcopy.
  destruct (current s) as [c|] eqn:Hc; psimpl.
  - destruct (wf_node s c Hwf) as (d & it & n & Hin & Hd & Hit & Hn & _);
      [by apply wf_current|].
    destruct (Hheap d) as (k & _ & Hk). simpl in Hk. rewrite Hit in Hk.
    rewrite Hd. psimpl. rewrite Hk, Hit. psimpl. by rewrite <- app_assoc.
  - by rewrite <- app_assoc.
Qed.

(** A state that differs from a well-formed one by more references on its
    items and by allocations is well formed. *)
Lemma wf_copied n h' s :
  wf s →
  (∀ d, ∃ k, h' !! d = add_refs k <$> heap s !! d) →
  wf (copied n h' s).
Proof.
  intros Hwf Hheap. split; simpl;
    [by apply wf_nodes|by apply wf_data| | |by apply wf_current| |].
  - intros e d Hin.
    destruct (wf_items s Hwf _ _ Hin) as (it & name & Hit & Hn & Hrc & Hm).
    destruct (Hheap d) as [k Hk]. rewrite Hit in Hk.
    exists (add_refs k it), name. split_and!; try done. simpl. lia.
  - intros name e Hm.
    destruct (wf_names s Hwf _ _ Hm) as (d & it & Hin & Hit & Hn).
    destruct (Hheap d) as [k Hk]. rewrite Hit in Hk.
    by exists d, (add_refs k it).
  - intros e d Hin. destruct (wf_fresh_cells s Hwf _ _ Hin). lia.
  - intros d [it Hit]. destruct (Hheap d) as [k Hk]. simpl in Hit.
    rewrite Hit in Hk. destruct (heap s !! d) eqn:Hd; [|done].
    assert (d < next_addr s)%nat by (eapply wf_fresh_heap; eauto). lia.
Qed.

(** ** The invariant *)

Lemma nodup_node_next (l : GList) c :
  NoDup l.*1 → c ∈ l.*1 →
  ∃ o, node_next l c = Some o ∧ ∀ n, o = Some n → n ∈ l.*1.
Proof.
  intros Hnd Hc. apply node_elem in Hc as [d Hin].
  apply list_elem_of_split in Hin as (l1 & l2 & ->).
  rewrite fmap_app, fmap_cons in Hnd. apply NoDup_app in Hnd as (_ & Hnd & _).
  rewrite node_next_app by (intros ?; eapply Hnd; [done|by left]).
  eexists. split; [done|]. intros n Hn. destruct l2 as [|[n' d'] l2]; [done|].
  injection Hn as <-. rewrite fmap_app, !fmap_cons. simpl.
  apply elem_of_app. right. right. by left.
Qed.

Lemma nodup_node_prev (l : GList) c :
  NoDup l.*1 → c ∈ l.*1 →
  ∃ o, node_prev l c = Some o ∧ ∀ n, o = Some n → n ∈ l.*1.
Proof.
  intros Hnd Hc. apply node_elem in Hc as [d Hin].
  apply list_elem_of_split in Hin as (l1 & l2 & ->).
  rewrite fmap_app, fmap_cons in Hnd. apply NoDup_app in Hnd as (_ & Hnd & _).
  rewrite node_prev_app by (intros ?; eapply Hnd; [done|by left]).
  eexists. split; [done|]. intros n Hn.
  destruct l1 as [|[n' d'] l1 _] using rev_ind; [done|].
  rewrite last_snoc in Hn. injection Hn as <-.
  rewrite !fmap_app, !fmap_cons. simpl.
  apply elem_of_app. left. apply elem_of_app. right. by left.
Qed.

(** The calls that the C program defines: [add] needs one of its names. *)
Definition call_defined (c : Call) : Prop :=
  match c with
  | CallAdd name full_name path _ _ => is_Some (base_name name full_name path)
  | _ => True
  end.

Lemma call_eq {A} (m : M State A) c s r s' :
  (∀ s, call c s = (m;; mret tt) s) → m s = Some (r, s') →
  call c s = Some (tt, s').
Proof. intros -> Hm. unfold mbind, M_bind. by rewrite Hm. Qed.

(** The changes of state that the operations make on a well-formed state:
    nothing but calls, a move of [current] to a node of the list, references
    taken by a copy of the list, an item added under a free name, an item
    removed. *)
Inductive step (s : State) : State → Prop :=
| step_traced t :
    step s (traced t s)
| step_moved t c :
    c ∈ (playlist s).*1 → step s (traced t (moved (Some c) s))
| step_copied t n h' :
    (∀ d, ∃ k, h' !! d = add_refs k <$> heap s !! d) →
    step s (traced t (copied n h' s))
| step_added full_name path tags is_current final_name :
    names s !! final_name = None →
    step s (added full_name path tags is_current final_name s)
| step_removed name e d it :
    names s !! name = Some e → (e, d) ∈ playlist s → heap s !! d = Some it →
    step s (removed name e d it s).

Lemma wf_step s s' : wf s → step s s' → wf s'.
Proof.
  intros Hwf [t|t c Hc|t n h' Hh|full_name path tags is_current final_name Hn
             |name e d it Hn Hin Hit].
  - by apply wf_traced.
  - by apply wf_traced, wf_moved.
  - by apply wf_traced, wf_copied.
  - by apply wf_added.
  - by apply wf_removed.
Qed.

Lemma call_step c s :
  wf s → call_defined c → ∃ s', call c s = Some (tt, s') ∧ step s s'.
Proof.
  intros Hwf Hdef. destruct c as [fields|name fields
                                  |name full_name path tags is_current
                                  |[] name tags set|name|name|path data type].
  - destruct (get_list_spec fields s Hwf) as (l & h' & Hl & _ & _ & _ & Hheap).
    eexists. split; [by eapply call_eq|].
    apply step_copied.
    intros d. destruct (Hheap d) as (k & _ & Hk). eauto.
  - destruct (names s !! name) as [e|] eqn:Hn.
    + destruct (wf_lookup s name e Hwf Hn) as (d & it & _ & Hd & Hit & _).
      eexists. split; [eapply call_eq; [done|by eapply get_tags_found]|].
      by apply step_traced.
    + eexists. split; [eapply call_eq; [done|by eapply get_tags_missing]|].
      by apply step_traced.
  - destruct Hdef as [base Hbase].
    destruct (name_loop (names s) base base 1) as [final_name i] eqn:Hloop.
    destruct (decide (i < 0)) as [Hi|Hi].
    + eexists. split; [eapply call_eq; [done|by eapply add_exhausted]|].
      by apply step_traced.
    + eexists. split;
        [eapply call_eq; [done|eapply add_done; [done..|lia]]|].
      apply step_added.
      destruct (name_loop_spec (names s) base base 1 final_name i
                  ltac:(lia) eq_refl Hloop)
        as [(_ & _ & Hfree & _)|[-> _]]; [done|lia].
  - destruct (current s) as [cur|] eqn:Hc.
    + pose proof (wf_current s Hwf _ Hc) as Hcur.
      destruct (nodup_node_next _ _ (wf_nodes s Hwf) Hcur) as ([next|] & Hnext & Hin).
      * destruct (wf_node s next Hwf) as (d & it & _ & _ & Hd & Hit & _);
          [by apply Hin|].
        eexists. split; [eapply call_eq; [done|by eapply get_prev_found]|].
        destruct set; [|by apply step_traced]. apply step_moved.
        by apply Hin.
      * eexists. split; [eapply call_eq; [done|by eapply get_prev_last]|].
        by apply step_traced.
    + eexists. split; [eapply call_eq; [done|by eapply get_prev_none]|].
      by apply step_traced.
  - destruct (current s) as [cur|] eqn:Hc.
    + pose proof (wf_current s Hwf _ Hc) as Hcur.
      destruct (nodup_node_prev _ _ (wf_nodes s Hwf) Hcur) as ([prev|] & Hprev & Hin).
      * destruct (wf_node s prev Hwf) as (d & it & _ & _ & Hd & Hit & _);
          [by apply Hin|].
        eexists. split; [eapply call_eq; [done|by eapply get_next_found]|].
        apply step_moved. by apply Hin.
      * eexists. split; [eapply call_eq; [done|by eapply get_next_first]|].
        by apply step_traced.
    + eexists. split; [eapply call_eq; [done|by eapply get_next_none]|].
      by apply step_traced.
  - destruct (names s !! name) as [e|] eqn:Hn.
    + destruct (wf_lookup s name e Hwf Hn) as (d & it & Hin & Hd & Hit & _ & Hrc).
      eexists. split; [eapply call_eq; [done|by eapply play_found]|].
      apply step_moved. apply list_elem_of_fmap. by exists (e, d).
    + eexists. split; [eapply call_eq; [done|by eapply play_missing]|].
      by apply step_traced.
  - destruct (names s !! name) as [e|] eqn:Hn.
    + destruct (wf_lookup s name e Hwf Hn) as (d & it & Hin & Hd & Hit & _).
      eexists. split; [eapply call_eq; [done|by eapply remove_found]|].
      by eapply step_removed.
    + eexists. split; [eapply call_eq; [done|by eapply remove_missing]|].
      by apply step_traced.
  - destruct (names s !! path) as [e|] eqn:Hn.
    + destruct (wf_lookup s path e Hwf Hn) as (d & it & _ & Hd & Hit & _).
      eexists. split; [eapply call_eq; [done|by eapply get_cover_found]|].
      by apply step_traced.
    + eexists. split; [eapply call_eq; [done|by eapply get_cover_missing]|].
      by apply step_traced.
Qed.

Lemma call_wf c s :
  wf s → call_defined c → ∃ s', call c s = Some (tt, s') ∧ wf s'.
Proof.
  intros Hwf Hdef. destruct (call_step c s Hwf Hdef) as (s' & Hcall & Hstep).
  exists s'. split; [done|]. by eapply wf_step.
Qed.

(** C7: every operation of the playlist is defined on a well-formed state
    and leaves a well-formed state, in which the names of the items are
    unique, every entry of [names] is the node of an item of the list and
    [current], when set, is a node of the list. *)
Theorem call_preserves_invariant c s :
  wf s → call_defined c →
  ∃ s', call c s = Some (tt, s') ∧ wf s' ∧ playlist_invariant s'.
Proof.
  intros Hwf Hdef. destruct (call_wf c s Hwf Hdef) as (s' & Hcall & Hwf').
  exists s'. split_and!; [done..|]. by apply wf_invariant.
Qed.

(** ** Playing and removing an item *)

(** C6: [play] of a name that [names] does not hold fails and leaves
    [current] as it was (and the list, the map and the heap with it);
    [play] of a name that it holds succeeds and makes the node of the item
    of that name [current]. *)
Theorem play_sets_current name s :
  wf s →
  (names s !! name = None →
   ∃ s', melo_playlist_simple_play name s = Some (false, s') ∧
         current s' = current s ∧ playlist s' = playlist s ∧
         names s' = names s ∧ heap s' = heap s) ∧
  (∀ e, names s !! name = Some e →
   ∃ s' d it, melo_playlist_simple_play name s = Some (true, s') ∧
              current s' = Some e ∧
              (e, d) ∈ playlist s' ∧ heap s' !! d = Some it ∧
              Item.name it = Some name).
Proof.
  intros Hwf. split.
  - intros Hn. eexists. by rewrite play_missing.
  - intros e Hn.
    destruct (wf_lookup s name e Hwf Hn) as (d & it & Hin & Hd & Hit & Hname & Hrc).
    eexists _, d, it. by rewrite (play_found name s e d it).
Qed.

(** C4: [remove] of a name that [names] holds unlinks the item of that name
    from the list and deletes the entry of [names]; when the item is
    [current], [current] is cleared and the player is set to the state
    [NONE], and otherwise [current] stays and the player is not called.
    [remove] of a name that [names] does not hold fails and leaves the list,
    the map, [current] and the heap as they were. *)
Theorem remove_unlinks_item name s :
  wf s →
  (∀ e, names s !! name = Some e →
   ∃ d it l1 l2 s',
     playlist s = l1 ++ (e, d) :: l2 ∧ heap s !! d = Some it ∧
     Item.name it = Some name ∧
     melo_playlist_simple_remove name s = Some (true, s') ∧
     playlist s' = l1 ++ l2 ∧ (e ∉ (playlist s').*1) ∧
     names s' = delete name (names s) ∧
     (current s = Some e →
      current s' = None ∧
      trace s' = trace s ++ [g_mutex_lock;
                    melo_player_set_state (player s) MELO_PLAYER_STATE_NONE;
                    g_mutex_unlock]) ∧
     (current s ≠ Some e →
      current s' = current s ∧
      trace s' = trace s ++ [g_mutex_lock; g_mutex_unlock])) ∧
  (names s !! name = None →
   ∃ s', melo_playlist_simple_remove name s = Some (false, s') ∧
         playlist s' = playlist s ∧ names s' = names s ∧
         current s' = current s ∧ heap s' = heap s).
Proof.
  intros Hwf. split.
  - intros e Hn.
    destruct (wf_lookup s name e Hwf Hn) as (d & it & Hin & Hd & Hit & Hname & _).
    destruct (cell_split _ _ _ (wf_nodes s Hwf) (wf_data s Hwf) Hin)
      as (l1 & l2 & Hl & He1 & Hd1 & He2 & Hd2).
    exists d, it, l1, l2. eexists.
    rewrite (remove_found name s e d it) by done.
    unfold removed, stop_call.
    assert (g_list_remove (playlist s) d = l1 ++ l2) as Hrm
      by (rewrite Hl; by apply g_list_remove_app).
    split_and!; simpl; rewrite ?Hrm; try done.
    + cbn [playlist]. rewrite fmap_app. by intros [?|?]%elem_of_app.
    + intros Hc. by rewrite bool_decide_true.
    + intros Hc. by rewrite bool_decide_false by congruence.
  - intros Hn. eexists. by rewrite remove_missing.
Qed.

(** C10: [get_cover] fails only for a name that [names] does not hold; for
    an item without tags it succeeds and leaves [*data] and [*type] as they
    were. *)
Theorem get_cover_fails_on_missing_name_only path data type s :
  wf s →
  ∃ ok data' type' s',
    melo_playlist_simple_get_cover path data type s
      = Some ((ok, data', type'), s') ∧
    (ok = false ↔ names s !! path = None) ∧
    (∀ e d it, names s !! path = Some e → (e, d) ∈ playlist s →
               heap s !! d = Some it → Item.tags it = None →
               ok = true ∧ data' = data ∧ type' = type).
Proof.
  intros Hwf. destruct (names s !! path) as [e|] eqn:Hn.
  - destruct (wf_lookup s path e Hwf Hn) as (d & it & Hin & Hd & Hit & _).
    rewrite (get_cover_found path data type s e d it) by done.
    destruct (Item.tags it) as [t|] eqn:Ht.
    + eexists _, _, _, _. split; [done|]. split; [done|].
      intros e' d' it' [= <-] Hin' Hit' Ht'.
      pose proof (nodup_cell_data _ _ _ _ (wf_nodes s Hwf) Hin Hin') as <-.
      congruence.
    + eexists _, _, _, _. split; [done|]. by split.
  - rewrite get_cover_missing by done.
    eexists _, _, _, _. split; [done|]. by split.
Qed.

(** ** Moving along the list *)

Lemma nodup_middle (l1 l2 : GList) c :
  NoDup (l1 ++ c :: l2).*1 → c.1 ∉ l1.*1.
Proof.
  rewrite fmap_app, fmap_cons. intros (_ & Hnd & _)%NoDup_app Hin.
  eapply Hnd; [done|by left].
Qed.

(** The two nodes around a link of the list. *)
Lemma nodup_link (l1 l2 : GList) a da b db :
  NoDup (l1 ++ (a, da) :: (b, db) :: l2).*1 →
  node_next (l1 ++ (a, da) :: (b, db) :: l2) a = Some (Some b) ∧
  node_prev (l1 ++ (a, da) :: (b, db) :: l2) b = Some (Some a) ∧
  node_data (l1 ++ (a, da) :: (b, db) :: l2) a = Some da ∧
  node_data (l1 ++ (a, da) :: (b, db) :: l2) b = Some db.
Proof.
  intros Hnd. pose proof (nodup_middle _ _ _ Hnd) as Ha.
  assert (l1 ++ (a, da) :: (b, db) :: l2 = (l1 ++ [(a, da)]) ++ (b, db) :: l2)
    as Heq by (by rewrite <- app_assoc).
  assert (b ∉ (l1 ++ [(a, da)]).*1) as Hb
    by (rewrite Heq in Hnd; by apply nodup_middle in Hnd).
  split_and!.
  - by rewrite node_next_app.
  - rewrite Heq, node_prev_app by done. by rewrite last_snoc.
  - by rewrite node_data_app.
  - rewrite Heq. by rewrite node_data_app.
Qed.

(** C9: from [current], [PREV] resolves the item linked after it in the
    list, one step toward the tail, and [NEXT] the item linked before it,
    one step toward the head; as [add] links a new item in front of the
    list, the first is the item added just before [current] and the second
    the item added just after it. *)
Theorem advance_follows_links name tags set s c :
  wf s → current s = Some c →
  (∀ l1 dc o d l2 it,
     playlist s = l1 ++ (c, dc) :: (o, d) :: l2 → heap s !! d = Some it →
     ∃ s', advance PREV name tags set s = Some (adjacent it name tags, s')) ∧
  (∀ l1 n d dc l2 it,
     playlist s = l1 ++ (n, d) :: (c, dc) :: l2 → heap s !! d = Some it →
     ∃ s', advance NEXT name tags set s = Some (adjacent it name tags, s')) ∧
  (∀ name full_name path tags is_current s',
     melo_playlist_simple_add name full_name path tags is_current s
       = Some (true, s') →
     ∃ node item, playlist s' = (node, item) :: playlist s).
Proof.
  intros Hwf Hc. split_and!.
  - intros l1 dc o d l2 it Hl Hit.
    pose proof (wf_nodes s Hwf) as Hnd. rewrite Hl in Hnd.
    destruct (nodup_link _ _ _ _ _ _ Hnd) as (Hnext & _ & _ & Hd).
    rewrite <- Hl in Hnext, Hd. eexists. simpl.
    by rewrite (get_prev_found name tags set s c o d it).
  - intros l1 n d dc l2 it Hl Hit.
    pose proof (wf_nodes s Hwf) as Hnd. rewrite Hl in Hnd.
    destruct (nodup_link _ _ _ _ _ _ Hnd) as (_ & Hprev & Hd & _).
    rewrite <- Hl in Hprev, Hd. eexists. simpl.
    by rewrite (get_next_found name tags set s c n d it).
  - intros name' full_name path tags' is_current s' Hadd.
    destruct (base_name name' full_name path) as [base|] eqn:Hbase;
      [|by rewrite add_undefined in Hadd].
    destruct (name_loop (names s) base base 1) as [final_name i] eqn:Hloop.
    destruct (decide (i < 0)) as [Hi|Hi].
    + by erewrite add_exhausted in Hadd.
    + erewrite add_done in Hadd by (done || lia). injection Hadd as <-.
      by eexists _, _.
Qed.

(** With [set] false, [get_prev] changes nothing of the state but the
    trace. *)
Lemma get_prev_peek name tags s r s' :
  melo_playlist_simple_get_prev name tags false s = Some (r, s') →
  ∃ t, s' = traced t s.
Proof.
  intros Hget.
  destruct (current s) as [cur|] eqn:Hc;
    [|rewrite get_prev_none in Hget by done; injection Hget as <- <-; eauto].
  destruct (node_next (playlist s) cur) as [[next|]|] eqn:Hnext;
    [|rewrite (get_prev_last _ _ _ _ cur) in Hget by done;
      injection Hget as <- <-; eauto|].
  - destruct (node_data (playlist s) next) as [d|] eqn:Hd.
    + destruct (heap s !! d) as [it|] eqn:Hit.
      * rewrite (get_prev_found _ _ _ _ cur next d it) in Hget by done.
        injection Hget as <- <-. eauto.
      * exfalso. revert Hget.
        unfold melo_playlist_simple_get_prev, read_adjacent. prun.
        rewrite Hc. by prun.
    + exfalso. revert Hget.
      unfold melo_playlist_simple_get_prev, read_adjacent. prun.
      rewrite Hc. by prun.
  - exfalso. revert Hget. unfold melo_playlist_simple_get_prev. prun.
    rewrite Hc. by prun.
Qed.

(** Whatever [set], [get_next] moves [current] to the item it resolves. *)
Lemma get_next_moves name tags set s c l1 n d dc l2 r s' :
  wf s → current s = Some c →
  playlist s = l1 ++ (n, d) :: (c, dc) :: l2 →
  melo_playlist_simple_get_next name tags set s = Some (r, s') →
  current s' = Some n ∧ current s' ≠ current s.
Proof.
  intros Hwf Hc Hl Hget.
  pose proof (wf_nodes s Hwf) as Hnd. rewrite Hl in Hnd.
  destruct (nodup_link _ _ _ _ _ _ Hnd) as (_ & Hprev & Hd & _).
  rewrite <- Hl in Hprev, Hd.
  destruct (wf_items s Hwf n d) as (it & _ & Hit & _).
  { rewrite Hl. apply elem_of_app. right. by left. }
  rewrite (get_next_found name tags set s c n d it) in Hget by done.
  injection Hget as <- <-. simpl. split; [done|]. rewrite Hc. intros [= ->].
  rewrite fmap_app, !fmap_cons in Hnd. simpl in Hnd.
  apply NoDup_app in Hnd as (_ & _ & Hnd).
  apply NoDup_cons in Hnd as [Hnd _]. apply Hnd. by left.
Qed.

(** ** The names that [add] gives *)

Lemma pretty_N_go_length (n : nat) (x : N) (s : string) :
  (x < 10 ^ N.of_nat n)%N →
  (String.length (pretty_N_go x s) ≤ String.length s + n)%nat.
Proof.
  revert x s. induction n as [|n IH]; intros x s Hx.
  - assert (x = 0%N) as -> by (simpl in Hx; lia).
    rewrite pretty_N_go_0. lia.
  - destruct (decide (x = 0%N)) as [->|Hne]; [rewrite pretty_N_go_0; lia|].
    rewrite pretty_N_go_step by lia.
    etrans; [apply IH|simpl; lia].
    apply N.Div0.div_lt_upper_bound.
    rewrite Nat2N.inj_succ, N.pow_succ_r' in Hx. lia.
Qed.

Lemma substring_all (s : string) (n : nat) :
  (String.length s ≤ n)%nat → String.substring 0 n s = s.
Proof.
  revert n. induction s as [|c s IH]; intros [|n] Hn; simpl in *;
    try done; try lia.
  rewrite IH; [done|lia].
Qed.

(** Up to [99999999] the suffix fits in the extension of the name. *)
Lemma g_snprintf_ext_fits name k :
  1 <= k < 100000000 → g_snprintf_ext name k = name +:+ "_" +:+ pretty k.
Proof.
  intros Hk. unfold g_snprintf_ext. f_equal. apply substring_all.
  destruct k as [|p|p]; try lia. simpl.
  unfold pretty, pretty_Z, pretty, pretty_positive, pretty, pretty_N.
  rewrite decide_False by done.
  assert (N.pos p < 10 ^ N.of_nat 8)%N as Hp
    by (change (10 ^ N.of_nat 8)%N with 100000000%N; lia).
  pose proof (pretty_N_go_length 8 (N.pos p) EmptyString Hp) as Hlen.
  simpl in Hlen. unfold MELO_PLAYLIST_SIMPLE_NAME_EXT_SIZE, String.append.
  simpl. lia.
Qed.

Lemma append_cons x (a b : string) : String x a +:+ b = String x (a +:+ b).
Proof. done. Qed.

Lemma append_empty (a : string) : EmptyString +:+ a = a.
Proof. done. Qed.

Lemma append_assoc (a b c : string) : (a +:+ b) +:+ c = a +:+ b +:+ c.
Proof.
  induction a as [|x a IH]; [done|]. rewrite !append_cons. by rewrite IH.
Qed.

Lemma length_append (a b : string) :
  String.length (a +:+ b) = (String.length a + String.length b)%nat.
Proof.
  induction a as [|x a IH]; [done|]. rewrite append_cons. simpl.
  by rewrite IH.
Qed.

Lemma substring_append (a b : string) (n : nat) :
  (n ≤ String.length a)%nat →
  String.substring 0 n (a +:+ b) = String.substring 0 n a.
Proof.
  revert n. induction a as [|x a IH]; intros [|n] Hn; simpl in Hn;
    rewrite ?append_cons; simpl; try done; try lia; try by destruct b.
  rewrite IH; [done|lia].
Qed.

Lemma pretty_N_go_append (x : N) (s : string) :
  pretty_N_go x s = pretty_N_go x EmptyString +:+ s.
Proof.
  revert s. induction (N.lt_wf_0 x) as [x _ IH]; intros s.
  destruct (decide (x = 0%N)) as [->|Hne]; [by rewrite !pretty_N_go_0|].
  rewrite !(pretty_N_go_step x) by lia.
  rewrite (IH (x `div` 10)%N) by (apply N.div_lt; lia).
  rewrite (IH (x `div` 10)%N ltac:(apply N.div_lt; lia) (String _ EmptyString)).
  by rewrite append_assoc.
Qed.

Lemma pretty_N_go_long (n : nat) (x : N) (s : string) :
  (10 ^ N.of_nat n ≤ x)%N →
  (String.length s + S n ≤ String.length (pretty_N_go x s))%nat.
Proof.
  revert x s. induction n as [|n IH]; intros x s Hx.
  - rewrite pretty_N_go_step by (simpl in Hx; lia).
    rewrite pretty_N_go_append, length_append. simpl. lia.
  - rewrite Nat2N.inj_succ, N.pow_succ_r' in Hx.
    assert (0 < 10 ^ N.of_nat n)%N
      by (pose proof (N.pow_nonzero 10 (N.of_nat n) ltac:(lia)); lia).
    rewrite pretty_N_go_step by lia.
    etrans; [|apply IH]; [simpl; lia|].
    apply N.div_le_lower_bound; lia.
Qed.

(** From [100000000] on, the suffix is cut to that of the number without its
    last digit. *)
Lemma g_snprintf_ext_cut name k :
  100000000 <= k → g_snprintf_ext name k = g_snprintf_ext name (k `div` 10).
Proof.
  intros Hk. unfold g_snprintf_ext. f_equal.
  assert (10000000 <= k `div` 10) as Hdiv
    by (apply Z.div_le_lower_bound; lia).
  destruct k as [|p|p]; try lia.
  destruct (Z.pos p `div` 10) as [|q|q] eqn:Hq; try lia.
  assert (N.pos q = N.pos p `div` 10)%N as HqN.
  { apply (inj Z.of_N). rewrite N2Z.inj_div. simpl. by rewrite Hq. }
  unfold pretty, pretty_Z, pretty, pretty_positive, pretty, pretty_N.
  rewrite !decide_False by done.
  rewrite (pretty_N_go_step (N.pos p)) by lia. rewrite <- HqN.
  rewrite pretty_N_go_append.
  assert (10 ^ N.of_nat 7 ≤ N.pos q)%N as Hlong
    by (change (10 ^ N.of_nat 7)%N with 10000000%N; lia).
  pose proof (pretty_N_go_long 7 (N.pos q) EmptyString Hlong) as Hlen.
  revert Hlen. generalize (pretty_N_go (N.pos q) EmptyString). intros digits Hlen.
  simpl in Hlen. unfold MELO_PLAYLIST_SIMPLE_NAME_EXT_SIZE.
  rewrite !append_cons. simpl. rewrite !append_empty. f_equal.
  apply substring_append. lia.
Qed.

(** A candidate from [100000000] on is a candidate before it. *)
Lemma candidate_cut name k :
  100000000 <= k →
  ∃ j, 1 <= j < k ∧ candidate name k = candidate name j.
Proof.
  intros Hk. exists (k `div` 10).
  assert (10000000 <= k `div` 10) by (apply Z.div_le_lower_bound; lia).
  assert (k `div` 10 < k) by (apply Z.div_lt; lia).
  split; [lia|]. unfold candidate. rewrite !decide_False by lia.
  by apply g_snprintf_ext_cut.
Qed.

(** [add] fails exactly when the base name and its forms with the suffixes
    [_1] to [_99999999] are all taken; otherwise the new item is named by
    the first free one of them. *)
Lemma add_spec name full_name path tags is_current s base :
  base_name name full_name path = Some base →
  ∃ ok s',
    melo_playlist_simple_add name full_name path tags is_current s
      = Some (ok, s') ∧
    (ok = false ↔
     ∀ k, 0 <= k < 100000000 → is_Some (names s !! candidate base k)) ∧
    (ok = true →
     ∃ k, 0 <= k < 100000000 ∧
          names s !! candidate base k = None ∧
          (∀ j, 0 <= j < k → is_Some (names s !! candidate base j)) ∧
          s' = added full_name path tags is_current (candidate base k) s).
Proof.
  intros Hbase.
  destruct (name_loop (names s) base base 1) as [final_name i] eqn:Hloop.
  destruct (name_loop_spec (names s) base base 1 final_name i
              ltac:(lia) eq_refl Hloop)
    as [(Hi & -> & Hfree & Htaken)|[-> Htaken]].
  - assert (i - 1 < 100000000) as Hsmall.
    { destruct (decide (i - 1 < 100000000)) as [|Hge]; [done|].
      destruct (candidate_cut base (i - 1) ltac:(lia)) as (j & Hj & Heq).
      destruct (Htaken j ltac:(lia)) as [? Hsome]. congruence. }
    exists true. eexists. split; [eapply add_done; [done..|lia]|].
    split.
    + split; [done|]. intros Hall.
      destruct (Hall (i - 1)) as [? Hsome]; [lia|]. congruence.
    + intros _. exists (i - 1). split_and!; try done; lia.
  - exists false. eexists. split; [eapply add_exhausted; [done..|lia]|].
    split; [|done]. split; [|done]. intros _ k Hk. apply Htaken. lia.
Qed.

Lemma add_tracks pl override n1 f1 p1 t1 c1 n2 f2 p2 t2 c2 n3 f3 p3 t3 c3 :
  base_name n1 f1 p1 = Some "Track"%string →
  base_name n2 f2 p2 = Some "Track"%string →
  base_name n3 f3 p3 = Some "Track"%string →
  let s0 := init pl override in
  let s1 := added f1 p1 t1 c1 "Track" s0 in
  let s2 := added f2 p2 t2 c2 "Track_1" s1 in
  let s3 := added f3 p3 t3 c3 "Track_2" s2 in
  melo_playlist_simple_add n1 f1 p1 t1 c1 s0 = Some (true, s1) ∧
  melo_playlist_simple_add n2 f2 p2 t2 c2 s1 = Some (true, s2) ∧
  melo_playlist_simple_add n3 f3 p3 t3 c3 s2 = Some (true, s3) ∧
  item_names s3 = [Some "Track_2"; Some "Track_1"; Some "Track"]%string.
Proof.
  intros H1 H2 H3 s0 s1 s2 s3. split_and!.
  - by eapply (add_done _ _ _ _ _ _ _ _ 1).
  - eapply (add_done _ _ _ _ _ _ _ _ 2); [done| |done]. by vm_compute.
  - eapply (add_done _ _ _ _ _ _ _ _ 3); [done| |done]. by vm_compute.
  - done.
Qed.

(** C5: from the empty playlist, three [add] whose base name is [Track]
    give items named [Track], [Track_1] and [Track_2], in this order. In
    general [add] names the item by the first free one of the base name and
    its forms with the suffixes [_1], [_2], ... up to [_99999999], and it
    fails only when all of these are taken: longer suffixes do not fit in the
    extension of the name, and the loop runs through them until its counter
    wraps. *)
Theorem add_names_by_first_free_suffix
    pl override n1 f1 p1 t1 c1 n2 f2 p2 t2 c2 n3 f3 p3 t3 c3
    name full_name path tags is_current s base :
  base_name n1 f1 p1 = Some "Track"%string →
  base_name n2 f2 p2 = Some "Track"%string →
  base_name n3 f3 p3 = Some "Track"%string →
  base_name name full_name path = Some base →
  (∃ s1 s2 s3,
     melo_playlist_simple_add n1 f1 p1 t1 c1 (init pl override)
       = Some (true, s1) ∧
     melo_playlist_simple_add n2 f2 p2 t2 c2 s1 = Some (true, s2) ∧
     melo_playlist_simple_add n3 f3 p3 t3 c3 s2 = Some (true, s3) ∧
     item_names s1 = [Some "Track"]%string ∧
     item_names s2 = [Some "Track_1"; Some "Track"]%string ∧
     item_names s3 = [Some "Track_2"; Some "Track_1"; Some "Track"]%string) ∧
  (∃ ok s',
     melo_playlist_simple_add name full_name path tags is_current s
       = Some (ok, s') ∧
     (ok = false ↔
      ∀ k, 0 <= k < 100000000 → is_Some (names s !! candidate base k)) ∧
     (ok = true →
      ∃ k, 0 <= k < 100000000 ∧
           names s !! candidate base k = None ∧
           (∀ j, 0 <= j < k → is_Some (names s !! candidate base j)) ∧
           s' = added full_name path tags is_current (candidate base k) s)) ∧
  candidate base 0 = base ∧
  (∀ k, 1 <= k < 100000000 → candidate base k = base +:+ "_" +:+ pretty k).
Proof.
  intros H1 H2 H3 Hbase. split_and!.
  - destruct (add_tracks pl override n1 f1 p1 t1 c1 n2 f2 p2 t2 c2
                n3 f3 p3 t3 c3 H1 H2 H3) as (Ha & Hb & Hc & Hnames).
    eexists _, _, _. by split_and!.
  - by apply add_spec.
  - done.
  - intros k Hk. unfold candidate. rewrite decide_False by lia.
    by apply g_snprintf_ext_fits.
Qed.

(** ** The list returned by [get_list] *)

(** What an item holds, its count of references apart. *)
Definition content (it : MeloPlaylistItem) : MeloPlaylistItem :=
  Item.set_ref_count 0 it.

(** A list [l] handed out by [get_list] stays usable: its items are
    allocated, with a reference of their own beside the one of the playlist,
    and its nodes are allocated and are not nodes of the playlist. *)
Record snapshot_ok (l : GList) (s : State) : Prop := {
  snap_items : ∀ n d, (n, d) ∈ l →
    ∃ it, heap s !! d = Some it ∧
          ((if decide (d ∈ (playlist s).*2) then 2 else 1)
             ≤ Item.ref_count it)%nat;
  snap_nodes : ∀ n, n ∈ l.*1 →
    (n < next_addr s)%nat ∧ n ∉ (playlist s).*1;
}.

Lemma content_add_refs k it : content (add_refs k it) = content it.
Proof. by destruct it. Qed.

Lemma snapshot_step (l : GList) s s' :
  wf s → snapshot_ok l s → step s s' →
  snapshot_ok l s' ∧
  ∀ n d, (n, d) ∈ l → content <$> heap s' !! d = content <$> heap s !! d.
Proof.
  intros Hwf [Hitems Hnodes]
    [t|t c Hc|t k h' Hh|full_name path tags is_current final_name Hn
    |name e d0 it0 Hn Hin Hit0].
  - by split.
  - by split.
  - split; [split|]; simpl.
    + intros n d Hd. destruct (Hitems n d Hd) as (it & Hit & Hrc).
      destruct (Hh d) as [j Hj]. rewrite Hit in Hj.
      exists (add_refs j it). split; [done|]. simpl. case_decide; lia.
    + intros n Hn. destruct (Hnodes n Hn). split; [lia|done].
    + intros n d Hd. destruct (Hh d) as [j ->].
      destruct (heap s !! d); simpl; by rewrite ?content_add_refs.
  - assert (∀ n d, (n, d) ∈ l → d ≠ next_addr s) as Hold.
    { intros n d Hd ->. destruct (Hitems _ _ Hd) as (it & Hit & _).
      assert (next_addr s < next_addr s)%nat
        by (eapply wf_fresh_heap; eauto).
      lia. }
    split; [split|]; simpl.
    + intros n d Hd. destruct (Hitems n d Hd) as (it & Hit & Hrc).
      exists it. rewrite lookup_insert_ne by (symmetry; by eapply Hold).
      split; [done|]. repeat case_decide; try lia.
      exfalso.
      match goal with Hc : _ ∈ _ :: _, Hc' : _ ∉ _ |- _ =>
        apply elem_of_cons in Hc as [Hc|Hc];
        [by eapply Hold|by apply Hc'] end.
    + intros n Hn'. destruct (Hnodes n Hn') as [Hlt Hnin]. split; [lia|].
      apply not_elem_of_cons. split; [lia|done].
    + intros n d Hd. by rewrite lookup_insert_ne by (symmetry; by eapply Hold).
  - destruct (cell_split _ _ _ (wf_nodes s Hwf) (wf_data s Hwf) Hin)
      as (l1 & l2 & Hl & He1 & Hd1 & He2 & Hd2).
    assert (g_list_remove (playlist s) d0 = l1 ++ l2) as Hrm
      by (rewrite Hl; by apply g_list_remove_app).
    assert (d0 ∈ (playlist s).*2) as Hd0
      by (apply list_elem_of_fmap; by exists (e, d0)).
    assert (∀ d, d ≠ d0 → d ∈ (l1 ++ l2).*2 ↔ d ∈ (playlist s).*2) as Hdata.
    { intros d Hne. rewrite Hl, !fmap_app, fmap_cons, !elem_of_app,
        elem_of_cons. simpl. intuition done. }
    assert (d0 ∉ (l1 ++ l2).*2) as Hgone
      by (rewrite fmap_app; by intros [?|?]%elem_of_app).
    split; [split|]; simpl; rewrite ?Hrm.
    + intros n d Hd. destruct (Hitems n d Hd) as (it & Hit & Hrc).
      destruct (decide (d = d0)) as [->|Hne].
      * simplify_eq. rewrite decide_True in Hrc by done.
        rewrite decide_False by done. unfold released.
        destruct (Item.ref_count it0) as [|[|rc]] eqn:Hcount; try lia.
        rewrite lookup_insert_eq. eexists. split; [done|]. simpl. lia.
      * exists it. rewrite released_other by done. split; [done|].
        repeat case_decide; try lia. exfalso.
        match goal with Hc : _ ∈ _, Hc' : _ ∉ _ |- _ =>
          apply Hc', Hdata; [done|exact Hc] end.
    + intros n Hn'. destruct (Hnodes n Hn') as [Hlt Hnin]. split; [done|].
      intros Hin'. apply Hnin. rewrite Hl, fmap_app, fmap_cons.
      rewrite fmap_app in Hin'. apply elem_of_app in Hin' as [?|?];
        apply elem_of_app; [by left|right; by right].
    + intros n d Hd. destruct (decide (d = d0)) as [->|Hne];
        [|by rewrite released_other].
      destruct (Hitems n d0 Hd) as (it & Hit & Hrc). simplify_eq.
      rewrite decide_True in Hrc by done. unfold released.
      destruct (Item.ref_count it0) as [|[|rc]] eqn:Hcount; try lia.
      rewrite lookup_insert_eq, Hit0. simpl. by destruct it0.
Qed.

Lemma call_is_defined c s r s' : call c s = Some (r, s') → call_defined c.
Proof.
  destruct c as [fields|name fields|name full_name path tags is_current
                 |[] name tags set|name|name|path data type]; try done.
  simpl. intros Hcall.
  destruct (base_name name full_name path) eqn:Hbase; [done|].
  unfold mbind, M_bind in Hcall. by rewrite add_undefined in Hcall.
Qed.

Lemma calls_snapshot (l : GList) cs s s' :
  wf s → snapshot_ok l s → calls cs s = Some (tt, s') →
  wf s' ∧ snapshot_ok l s' ∧
  ∀ n d, (n, d) ∈ l → content <$> heap s' !! d = content <$> heap s !! d.
Proof.
  revert s. induction cs as [|c cs IH]; intros s Hwf Hok Hcalls.
  - injection Hcalls as <-. by split_and!.
  - simpl in Hcalls. unfold mbind at 1, M_bind at 1 in Hcalls.
    destruct (call c s) as [[[] s1]|] eqn:Hcall; [|done].
    destruct (call_step c s Hwf (call_is_defined _ _ _ _ Hcall))
      as (s1' & Hcall' & Hstep).
    rewrite Hcall in Hcall'. injection Hcall' as <-.
    destruct (snapshot_step l s s1 Hwf Hok Hstep) as [Hok1 Hsame1].
    destruct (IH s1 (wf_step _ _ Hwf Hstep) Hok1 Hcalls)
      as (Hwf' & Hok' & Hsame).
    split_and!; [done..|]. intros n d Hd.
    by rewrite (Hsame n d Hd), (Hsame1 n d Hd).
Qed.

(** What the holder of a list [l] returned by [get_list] reads through it in
    the state [s]: for each cell, what the item holds, or nothing if the
    item is not allocated any more. *)
Definition list_contents (s : State) (l : MeloPlaylistList)
  : list (option MeloPlaylistItem) :=
  (λ c : addr * addr, content <$> heap s !! c.2) <$> list_items l.

(** C8: the list that [get_list] returns holds the items of the playlist, in
    nodes of its own. Whatever operations follow, among them [add], what is
    read through the returned list is what was read when it was returned:
    it keeps the length that the playlist had, its items stay allocated and
    hold what they held, and none of its nodes is a node of the playlist,
    so that no operation on the playlist reaches it. *)
Theorem get_list_is_independent tags_fields s l s1 cs s2 :
  wf s →
  melo_playlist_simple_get_list tags_fields s = Some (l, s1) →
  calls cs s1 = Some (tt, s2) →
  (list_items l).*2 = (playlist s).*2 ∧
  list_current l = current_name s ∧
  list_contents s2 l = list_contents s1 l ∧
  length (list_contents s2 l) = length (playlist s) ∧
  Forall is_Some (list_contents s2 l) ∧
  (∀ n, n ∈ (list_items l).*1 →
     (n ∉ (playlist s).*1) ∧ (n ∉ (playlist s2).*1)).
Proof.
  intros Hwf Hget Hcalls.
  destruct (get_list_spec tags_fields s Hwf)
    as (l' & h' & Hget' & Hdata & Hnodes & Hcur & Hheap).
  rewrite Hget in Hget'. injection Hget' as <- ->.
  assert (wf (traced [g_mutex_lock; g_mutex_unlock]
                (copied (length (playlist s)) h' s))) as Hwf1.
  { apply wf_traced, wf_copied; [done|].
    intros d. destruct (Hheap d) as (k & _ & Hk). eauto. }
  assert (∀ n, n ∈ (list_items l).*1 →
            (next_addr s ≤ n < next_addr s + length (playlist s))%nat) as Hrange.
  { intros n Hn. rewrite Hnodes in Hn. apply elem_of_seq in Hn. lia. }
  assert (∀ n, n ∈ (list_items l).*1 → n ∉ (playlist s).*1) as Hfresh.
  { intros n Hn Hin. apply Hrange in Hn. apply node_elem in Hin as [d Hin].
    destruct (wf_fresh_cells s Hwf _ _ Hin). lia. }
  assert (snapshot_ok (list_items l)
            (traced [g_mutex_lock; g_mutex_unlock]
               (copied (length (playlist s)) h' s))) as Hok.
  { split; simpl.
    - intros n d Hd.
      assert (d ∈ (playlist s).*2) as Hmem
        by (rewrite <- Hdata; apply list_elem_of_fmap; by exists (n, d)).
      pose proof Hmem as Hin.
      apply list_elem_of_fmap in Hin as ([e d'] & Heq & Hin). simpl in Heq.
      subst d'.
      destruct (wf_items s Hwf _ _ Hin) as (it & _ & Hit & _ & Hrc & _).
      destruct (Hheap d) as (k & Hk & Hd'). apply Hk in Hmem.
      rewrite Hit in Hd'. exists (add_refs k it). split; [done|].
      simpl. case_decide; lia.
    - intros n Hn. split; [apply Hrange in Hn; lia|by apply Hfresh]. }
  destruct (calls_snapshot _ _ _ _ Hwf1 Hok Hcalls) as (_ & [Hitems Hapart] & Hsame).
  unfold list_contents. split_and!; [done..| | | |].
  - apply list_fmap_ext. intros i [n d] Hd. apply (Hsame n d).
    apply list_elem_of_lookup. eauto.
  - rewrite length_fmap.
    by rewrite <- (length_fmap snd (list_items l)), Hdata, length_fmap.
  - apply Forall_fmap, Forall_forall. intros [n d] Hd.
    destruct (Hitems n d Hd) as (it & Hit & _). simpl. rewrite Hit. by eexists.
  - intros n Hn. split; [by apply Hfresh|by apply Hapart].
Qed.

(** ** The lock and the player *)

(** Whether no call to the player is made between a lock and an unlock of
    the mutex of the playlist, in a trace that starts with the mutex
    [locked] or not. *)
Fixpoint player_unlocked (locked : bool) (t : list Action) : bool :=
  match t with
  | [] => true
  | g_mutex_lock :: t => player_unlocked true t
  | g_mutex_unlock :: t => player_unlocked false t
  | melo_player_play _ _ _ _ _ :: t | melo_player_set_state _ _ :: t =>
      negb locked && player_unlocked locked t
  | _ :: t => player_unlocked locked t
  end.

(** [play] calls the player after the unlock. *)
Lemma play_calls_player_unlocked name s :
  wf s →
  ∃ ok s' t, melo_playlist_simple_play name s = Some (ok, s') ∧
             trace s' = trace s ++ t ∧ player_unlocked false t = true.
Proof.
  intros Hwf. destruct (names s !! name) as [e|] eqn:Hn.
  - destruct (wf_lookup s name e Hwf Hn) as (d & it & _ & Hd & Hit & _ & Hrc).
    eexists _, _, _. rewrite (play_found name s e d it) by done.
    split_and!; [done..|]. unfold play_call. by destruct (player s).
  - eexists _, _, _. rewrite play_missing by done. by split_and!.
Qed.

(** [remove] of the current item calls the player before the unlock. *)
Lemma remove_calls_player_locked name s e :
  wf s → names s !! name = Some e → current s = Some e →
  ∃ s' t, melo_playlist_simple_remove name s = Some (true, s') ∧
          trace s' = trace s ++ t ∧ player_unlocked false t = false.
Proof.
  intros Hwf Hn Hc.
  destruct (wf_lookup s name e Hwf Hn) as (d & it & _ & Hd & Hit & _).
  eexists _, _. rewrite (remove_found name s e d it) by done.
  split_and!; [done..|]. unfold stop_call.
  by rewrite bool_decide_true.
Qed.

End Facts.

Lemma calls_wf `{MeloTagsOps} cs s s' :
  wf s → calls cs s = Some (tt, s') → wf s'.
Proof.
  intros Hwf Hcalls.
  destruct (calls_snapshot [] cs s s' Hwf) as (Hwf' & _); [|done..].
  split; [by intros ?? ?%elem_of_nil|by intros ? ?%elem_of_nil].
Qed.

(** The states that the operations reach from the empty playlist are well
    formed. *)
Lemma reachable_wf `{MeloTagsOps} pl override cs s :
  calls cs (init pl override) = Some (tt, s) → wf s.
Proof. apply calls_wf, wf_init. Qed.

(** ** A playlist of two items *)

#[local] Existing Instance no_cover.

(** The playlist of the player [7] after [add] of [A], made current, and
    [add] of [B]. *)
Definition two_items : State :=
  added None (Some "/b"%string) None false "B"
    (added None (Some "/a"%string) None true "A" (init (Some 7%nat) false)).

Lemma two_items_built :
  calls [CallAdd (Some "A"%string) None (Some "/a"%string) None true;
         CallAdd (Some "B"%string) None (Some "/b"%string) None false]
    (init (Some 7%nat) false) = Some (tt, two_items).
Proof. by vm_compute. Qed.

Lemma two_items_wf : wf two_items.
Proof. eapply calls_wf; [apply wf_init|apply two_items_built]. Qed.

(** C2 fails for [get_next]: with [set] false it returns the item [B] that
    precedes the current item [A] in the list, and moves [current] to it. *)
Theorem get_next_peek_moves_current :
  ∃ r s',
    current two_items = Some 2%nat ∧
    melo_playlist_simple_get_next (Some None) (Some None) false two_items
      = Some (r, s') ∧
    adj_name r = Some (Some "B"%string) ∧
    current s' = Some 4%nat.
Proof. eexists _, _. split_and!; [done|by vm_compute|done..]. Qed.

(** C3 fails for [remove]: the removal of the current item [A] sets the
    state of the player between the lock and the unlock. *)
Theorem remove_current_calls_player_locked :
  ∃ s',
    melo_playlist_simple_remove "A" two_items = Some (true, s') ∧
    trace s' = trace two_items
                 ++ [g_mutex_lock;
                     melo_player_set_state (Some 7%nat) MELO_PLAYER_STATE_NONE;
                     g_mutex_unlock] ∧
    player_unlocked false
      [g_mutex_lock; melo_player_set_state (Some 7%nat) MELO_PLAYER_STATE_NONE;
       g_mutex_unlock] = false.
Proof. eexists. split_and!; [by vm_compute|done..]. Qed.

(** ** The theorems on the playlist of two items *)

Lemma play_sets_current_witness :
  wf two_items ∧
  (names two_items !! "C"%string = None →
   ∃ s', melo_playlist_simple_play "C" two_items = Some (false, s') ∧
         current s' = current two_items ∧ playlist s' = playlist two_items ∧
         names s' = names two_items ∧ heap s' = heap two_items) ∧
  (∀ e, names two_items !! "C"%string = Some e →
   ∃ s' d it, melo_playlist_simple_play "C" two_items = Some (true, s') ∧
              current s' = Some e ∧
              (e, d) ∈ playlist s' ∧ heap s' !! d = Some it ∧
              Item.name it = Some "C"%string).
Proof.
  split; [exact two_items_wf|].
  exact (play_sets_current "C" two_items two_items_wf).
Defined.

Lemma call_preserves_invariant_witness :
  wf two_items ∧
  call_defined (CallRemove "A") ∧
  ∃ s', call (CallRemove "A") two_items = Some (tt, s') ∧ wf s' ∧
        playlist_invariant s'.
Proof.
  split; [exact two_items_wf|]. split; [exact I|].
  exact (call_preserves_invariant (CallRemove "A") two_items two_items_wf I).
Defined.

Lemma remove_unlinks_item_witness :
  wf two_items ∧
  (∀ e, names two_items !! "A"%string = Some e →
   ∃ d it l1 l2 s',
     playlist two_items = l1 ++ (e, d) :: l2 ∧ heap two_items !! d = Some it ∧
     Item.name it = Some "A"%string ∧
     melo_playlist_simple_remove "A" two_items = Some (true, s') ∧
     playlist s' = l1 ++ l2 ∧ (e ∉ (playlist s').*1) ∧
     names s' = delete "A"%string (names two_items) ∧
     (current two_items = Some e →
      current s' = None ∧
      trace s' = trace two_items ++ [g_mutex_lock;
                    melo_player_set_state (player two_items)
                      MELO_PLAYER_STATE_NONE;
                    g_mutex_unlock]) ∧
     (current two_items ≠ Some e →
      current s' = current two_items ∧
      trace s' = trace two_items ++ [g_mutex_lock; g_mutex_unlock])) ∧
  (names two_items !! "A"%string = None →
   ∃ s', melo_playlist_simple_remove "A" two_items = Some (false, s') ∧
         playlist s' = playlist two_items ∧ names s' = names two_items ∧
         current s' = current two_items ∧ heap s' = heap two_items).
Proof.
  split; [exact two_items_wf|].
  exact (remove_unlinks_item "A" two_items two_items_wf).
Defined.

Lemma get_cover_fails_on_missing_name_only_witness :
  wf two_items ∧
  ∃ ok data' type' s',
    melo_playlist_simple_get_cover "A" None None two_items
      = Some ((ok, data', type'), s') ∧
    (ok = false ↔ names two_items !! "A"%string = None) ∧
    (∀ e d it, names two_items !! "A"%string = Some e →
               (e, d) ∈ playlist two_items →
               heap two_items !! d = Some it → Item.tags it = None →
               ok = true ∧ data' = None ∧ type' = None).
Proof.
  split; [exact two_items_wf|].
  exact (get_cover_fails_on_missing_name_only "A" None None two_items
           two_items_wf).
Defined.

(** The item [B] of the playlist of two items, and the playlist with [B]
    current. *)
Definition item_A : MeloPlaylistItem :=
  Item.mk (Some "A"%string) None (Some "/a"%string) None true true 1.
Definition item_B : MeloPlaylistItem :=
  Item.mk (Some "B"%string) None (Some "/b"%string) None true true 1.
Definition two_items_at_B : State := moved (Some 4%nat) two_items.

Lemma two_items_at_B_wf : wf two_items_at_B.
Proof.
  apply wf_moved; [exact two_items_wf|]. apply list_elem_of_In. simpl. tauto.
Qed.

Lemma advance_follows_links_witness :
  (wf two_items_at_B ∧ current two_items_at_B = Some 4%nat ∧
   ∃ s', advance PREV (Some None) (Some None) true two_items_at_B
         = Some (adjacent item_A (Some None) (Some None), s')) ∧
  (wf two_items ∧ current two_items = Some 2%nat ∧
   ∃ s', advance NEXT (Some None) (Some None) true two_items
         = Some (adjacent item_B (Some None) (Some None), s')).
Proof.
  split.
  - split; [exact two_items_at_B_wf|]. split; [reflexivity|].
    exact (proj1 (advance_follows_links (Some None) (Some None) true
                    two_items_at_B 4%nat two_items_at_B_wf eq_refl)
             [] 3%nat 2%nat 1%nat [] item_A eq_refl eq_refl).
  - split; [exact two_items_wf|]. split; [reflexivity|].
    exact (proj1 (proj2 (advance_follows_links (Some None) (Some None) true
                           two_items 2%nat two_items_wf eq_refl))
             [] 4%nat 3%nat 1%nat [] item_B eq_refl eq_refl).
Defined.

Lemma add_names_by_first_free_suffix_witness :
  base_name None (Some "Track"%string) None = Some "Track"%string ∧
  base_name None None (Some "Track"%string) = Some "Track"%string ∧
  base_name (Some "Track"%string) None None = Some "Track"%string ∧
  base_name (Some "A"%string) None (Some "/c"%string) = Some "A"%string ∧
  (∃ s1 s2 s3,
     melo_playlist_simple_add None (Some "Track"%string) None None false
       (init None false) = Some (true, s1) ∧
     melo_playlist_simple_add None None (Some "Track"%string) None false s1
       = Some (true, s2) ∧
     melo_playlist_simple_add (Some "Track"%string) None None None false s2
       = Some (true, s3) ∧
     item_names s1 = [Some "Track"]%string ∧
     item_names s2 = [Some "Track_1"; Some "Track"]%string ∧
     item_names s3 = [Some "Track_2"; Some "Track_1"; Some "Track"]%string) ∧
  (∃ ok s',
     melo_playlist_simple_add (Some "A"%string) None (Some "/c"%string) None
       false two_items = Some (ok, s') ∧
     (ok = false ↔
      ∀ k, 0 <= k < 100000000 → is_Some (names two_items !! candidate "A" k)) ∧
     (ok = true →
      ∃ k, 0 <= k < 100000000 ∧
           names two_items !! candidate "A" k = None ∧
           (∀ j, 0 <= j < k → is_Some (names two_items !! candidate "A" j)) ∧
           s' = added None (Some "/c"%string) None false (candidate "A" k)
                  two_items)) ∧
  candidate "A" 0 = "A"%string ∧
  (∀ k, 1 <= k < 100000000 → candidate "A" k = "A" +:+ "_" +:+ pretty k).
Proof.
  split; [reflexivity|]. split; [reflexivity|]. split; [reflexivity|].
  split; [reflexivity|].
  exact (add_names_by_first_free_suffix None false
           None (Some "Track"%string) None None false
           None None (Some "Track"%string) None false
           (Some "Track"%string) None None None false
           (Some "A"%string) None (Some "/c"%string) None false two_items "A"
           eq_refl eq_refl eq_refl eq_refl).
Defined.

(** The list that [get_list] returns for the playlist of two items, the state
    it leaves, and the state after [add] of [C] and [remove] of [A]. *)
Definition two_items_list : MeloPlaylistList :=
  mkList [(5, 3); (6, 1)]%nat (Some "A"%string).
Definition two_items_listed : State :=
  traced [g_mutex_lock; g_mutex_unlock]
    (copied 2 (<[1%nat := add_refs 1 item_A]>
                 (<[3%nat := add_refs 1 item_B]> (heap two_items)))
       two_items).
Definition two_items_changed : State :=
  removed "A" 2%nat 1%nat (add_refs 1 item_A)
    (added None (Some "/c"%string) None true "C" two_items_listed).

Lemma get_list_is_independent_witness :
  wf two_items ∧
  melo_playlist_simple_get_list 0%N two_items
    = Some (two_items_list, two_items_listed) ∧
  calls [CallAdd (Some "C"%string) None (Some "/c"%string) None true;
         CallRemove "A"] two_items_listed = Some (tt, two_items_changed) ∧
  (list_items two_items_list).*2 = (playlist two_items).*2 ∧
  list_current two_items_list = current_name two_items ∧
  list_contents two_items_changed two_items_list
    = list_contents two_items_listed two_items_list ∧
  length (list_contents two_items_changed two_items_list)
    = length (playlist two_items) ∧
  Forall is_Some (list_contents two_items_changed two_items_list) ∧
  (∀ n, n ∈ (list_items two_items_list).*1 →
     (n ∉ (playlist two_items).*1) ∧ (n ∉ (playlist two_items_changed).*1)).
Proof.
  split; [exact two_items_wf|].
  split; [vm_compute; reflexivity|].
  split; [vm_compute; reflexivity|].
  apply (get_list_is_independent 0%N two_items two_items_list two_items_listed
           [CallAdd (Some "C"%string) None (Some "/c"%string) None true;
            CallRemove "A"] two_items_changed two_items_wf);
    vm_compute; reflexivity.
Defined.

End PlaylistProps.

(** * The dispatcher beyond the registration: unregistration, events of
       the players, names of the events *)

Module EventMore.
Import Event EventProps PlayerEvent.

(** The handles of the registered clients, the latest first. *)
Definition handles (s : State) : list addr := (melo_event_clients s).*2.

(** The states of the dispatcher that the program reaches: a client is
    registered once, the registered clients are allocated, and the allocator
    is ahead of them. *)
Record ev_wf (s : State) : Prop := {
  ev_nodup : NoDup (handles s);
  ev_live : ∀ c, c ∈ handles s → is_Some (clients s !! c);
  ev_fresh : ∀ c, is_Some (clients s !! c) → (c < next_addr s)%nat;
}.

Lemma ev_wf_init : ev_wf init.
Proof.
  split; simpl.
  - constructor.
  - by intros ? ?%elem_of_nil.
  - intros ? [? Hc]. by rewrite lookup_empty in Hc.
Qed.

Lemma ev_wf_registered cb ud s : ev_wf s → ev_wf (registered cb ud s).
Proof.
  intros [Hnd Hlive Hfresh]. split; unfold handles in *; simpl.
  - apply NoDup_cons. split; [|done].
    intros Hin. apply Hlive, Hfresh in Hin. lia.
  - intros c [->|Hin]%elem_of_cons; [by rewrite lookup_insert_eq|].
    destruct (decide (c = next_addr s)) as [->|Hne];
      [by rewrite lookup_insert_eq|].
    rewrite lookup_insert_ne by done. by apply Hlive.
  - intros c Hc. destruct (decide (c = next_addr s)) as [->|Hne]; [lia|].
    rewrite lookup_insert_ne in Hc by done. apply Hfresh in Hc. lia.
Qed.

(** The state after [melo_event_unregister]. *)
Definition unregistered (c : addr) (s : State) : State :=
  mkState (g_list_remove (melo_event_clients s) c) (delete c (clients s))
    (next_addr s) (trace s ++ [G_LOCK; G_UNLOCK]).

Lemma melo_event_unregister_eq c s :
  melo_event_unregister c s = Some (tt, unregistered c s).
Proof.
  unfold melo_event_unregister, unregistered. msimpl. by rewrite <- app_assoc.
Qed.


Lemma filter_absent (l : list addr) c : c ∉ l → filter (.≠ c) l = l.
Proof.
  induction l as [|x l IH]; [done|]. intros [Hne Hl]%not_elem_of_cons.
  rewrite filter_cons_True by done. by rewrite IH.
Qed.

(** In a list where no data is repeated, [g_list_remove] drops the cell of
    that data and keeps the others in their order. *)
Lemma g_list_remove_filter (l : GList) c :
  NoDup l.*2 → (g_list_remove l c).*2 = filter (.≠ c) l.*2.
Proof.
  induction l as [|[n d] l IH]; [done|]. rewrite fmap_cons. simpl.
  intros [Hd Hnd]%NoDup_cons. destruct (decide (d = c)) as [->|Hne].
  - rewrite filter_cons_False by (intros ?; done).
    by rewrite filter_absent.
  - rewrite filter_cons_True by done. rewrite fmap_cons. simpl.
    by rewrite IH.
Qed.

Lemma ev_wf_unregistered c s : ev_wf s → ev_wf (unregistered c s).
Proof.
  intros [Hnd Hlive Hfresh]. split; unfold handles in *; simpl.
  - rewrite g_list_remove_filter by done. by apply NoDup_filter.
  - intros h. rewrite g_list_remove_filter by done.
    intros [Hne Hin]%list_elem_of_filter.
    rewrite lookup_delete_ne by done. by apply Hlive.
  - intros h Hh. apply Hfresh.
    destruct (decide (h = c)) as [->|Hne];
      [by rewrite lookup_delete_eq in Hh; destruct Hh|].
    by rewrite lookup_delete_ne in Hh.
Qed.

(** The call that a publish makes for the client of handle [h]. *)
Definition delivers (s : State) (type : MeloEventType) (event : N)
    (id : option string) (data : gpointer) (h : addr) (a : Action) : Prop :=
  ∃ cl, clients s !! h = Some cl ∧
        a = Callback (callback cl) h type event id data (user_data cl).

(** A publish calls back the registered clients, from the head of the
    list. *)
Lemma publish_spec type event id data free_data_func s :
  ev_wf s →
  ∃ acts,
    melo_event_new type event id data free_data_func s
      = Some (tt, with_trace s (trace s ++ [G_LOCK] ++ acts ++ [G_UNLOCK]
                                  ++ free_data free_data_func data)) ∧
    Forall2 (delivers s type event id data) (handles s) acts.
Proof.
  intros Hwf.
  assert (∃ acts, mapM (call_of (clients s) type event id data)
                    (melo_event_clients s) = Some acts ∧
                  Forall2 (delivers s type event id data) (handles s) acts)
    as (acts & Hm & HF).
  { pose proof (ev_live s Hwf) as Hlive. unfold handles in *.
    induction (melo_event_clients s) as [|[n h] l IH].
    - exists []. split; [done|constructor].
    - destruct IH as (acts & Hm & HF).
      { intros c Hc. apply Hlive. rewrite fmap_cons. by right. }
      destruct (Hlive h) as [cl Hcl]; [rewrite fmap_cons; by left|].
      exists (Callback (callback cl) h type event id data (user_data cl) :: acts).
      split.
      + apply mapM_Some. apply mapM_Some in Hm. constructor; [|done].
        unfold call_of. simpl. by rewrite Hcl.
      + rewrite fmap_cons. constructor; [by exists cl|done]. }
  exists acts. split; [|done]. by apply melo_event_new_eq.
Qed.

(** X1: [melo_event_unregister] of a registered client unlinks it and
    releases it, and leaves the other clients registered, in their order: a
    publish that follows is defined, calls back each of them once, from the
    latest registered to the first, and does not call back the client
    that is gone. *)
Theorem unregister_stops_callbacks c type event id data free_data_func s :
  ev_wf s → c ∈ handles s →
  ∃ s1 s2 acts,
    melo_event_unregister c s = Some (tt, s1) ∧
    ev_wf s1 ∧
    handles s1 = filter (.≠ c) (handles s) ∧
    (c ∉ handles s1) ∧
    clients s1 = delete c (clients s) ∧
    melo_event_new type event id data free_data_func s1 = Some (tt, s2) ∧
    trace s2 = trace s1 ++ [G_LOCK] ++ acts ++ [G_UNLOCK]
                 ++ free_data free_data_func data ∧
    Forall2 (delivers s type event id data) (filter (.≠ c) (handles s)) acts.
Proof.
  intros Hwf Hc.
  pose proof (ev_wf_unregistered c s Hwf) as Hwf1.
  destruct (publish_spec type event id data free_data_func _ Hwf1)
    as (acts & Hnew & HF).
  assert (handles (unregistered c s) = filter (.≠ c) (handles s)) as Hh
    by (apply g_list_remove_filter, (ev_nodup s Hwf)).
  exists (unregistered c s). eexists _, acts.
  split_and!; [apply melo_event_unregister_eq|done..| |done|exact Hnew|done|].
  { rewrite Hh. by intros [? _]%list_elem_of_filter. }
  rewrite Hh in HF. eapply Forall2_impl; [exact HF|].
  intros h a (cl & Hcl & ->). exists cl. split; [|done].
  simpl in Hcl. destruct (decide (h = c)) as [->|Hne];
    [by rewrite lookup_delete_eq in Hcl|by rewrite lookup_delete_ne in Hcl].
Qed.

(** X2: [melo_event_register] returns a handle that no registered client
    has, and puts the new client at the head of the list; the
    [melo_event_unregister] of that handle brings the list and the clients
    back to what they were. *)
Theorem register_unregister_restores cb ud s :
  ev_wf s →
  ∃ c s1 s2,
    melo_event_register cb ud s = Some (c, s1) ∧
    (c ∉ handles s) ∧
    handles s1 = c :: handles s ∧
    clients s1 !! c = Some (mkClient cb ud) ∧
    ev_wf s1 ∧
    melo_event_unregister c s1 = Some (tt, s2) ∧
    melo_event_clients s2 = melo_event_clients s ∧
    clients s2 = clients s.
Proof.
  intros Hwf.
  assert (clients s !! next_addr s = None) as Hfree.
  { destruct (clients s !! next_addr s) eqn:Hc; [|done].
    assert (next_addr s < next_addr s)%nat by (eapply ev_fresh; eauto). lia. }
  exists (next_addr s), (registered cb ud s). eexists.
  split_and!; [apply melo_event_register_eq| |done| |by apply ev_wf_registered
              |apply melo_event_unregister_eq| |]; simpl.
  - intros Hin. apply (ev_live s Hwf) in Hin as [? Hin]. congruence.
  - by rewrite lookup_insert_eq.
  - by rewrite decide_True.
  - rewrite delete_insert_eq. by apply delete_id.
Qed.


(** ** The events of the players *)







(** ** The names of the events *)

(** The read of a table of [count] names, without hole and without
    repetition, behind the test of the index against [count]. *)
Lemma table_names (table : list (option string)) (names : list string)
    (count : N) :
  table = Some <$> names → N.of_nat (length names) = count → NoDup names →
  let to_string (x : N) :=
    if decide (x < count)%N then table !! N.to_nat x else Some None in
  (∀ x, ∃ r, to_string x = Some r ∧ (r = None ↔ (count ≤ x)%N)) ∧
  (∀ a b name, to_string a = Some (Some name) →
               to_string b = Some (Some name) → a = b).
Proof.
  intros -> <- Hnd to_string.
  assert (∀ x name, to_string x = Some (Some name) →
            names !! N.to_nat x = Some name) as Hname.
  { intros x name. unfold to_string. case_decide; [|done].
    rewrite list_lookup_fmap. by destruct (names !! N.to_nat x); intros [=->]. }
  split.
  - intros x. unfold to_string. case_decide as Hx.
    + destruct (lookup_lt_is_Some_2 names (N.to_nat x)) as [name Hn]; [lia|].
      exists (Some name). rewrite list_lookup_fmap, Hn. split; [done|].
      split; [done|lia].
    + exists None. split; [done|]. split; [lia|done].
  - intros a b name Ha%Hname Hb%Hname.
    pose proof (NoDup_lookup _ _ _ _ Hnd Ha Hb). lia.
Qed.

(** X5: [melo_event_type_to_string] never reads past its table; it gives a
    name to the values below [MELO_EVENT_TYPE_COUNT] and [NULL] to the
    others, the names of two types differ, and the constants of the
    enumeration have the names [general], [module], [browser], [player] and
    [playlist]. *)
Theorem melo_event_type_to_string_names :
  (∀ type, ∃ r, melo_event_type_to_string type = Some r ∧
                (r = None ↔ (MELO_EVENT_TYPE_COUNT ≤ type)%N)) ∧
  (∀ a b name, melo_event_type_to_string a = Some (Some name) →
               melo_event_type_to_string b = Some (Some name) → a = b) ∧
  (melo_event_type_to_string ∘ MeloEventType_value)
    <$> [MELO_EVENT_TYPE_GENERAL; MELO_EVENT_TYPE_MODULE;
         MELO_EVENT_TYPE_BROWSER; MELO_EVENT_TYPE_PLAYER;
         MELO_EVENT_TYPE_PLAYLIST]
  = (Some ∘ Some) <$> ["general"; "module"; "browser"; "player";
                        "playlist"]%string.
Proof.
  destruct (table_names melo_event_type_string
              ["general"; "module"; "browser"; "player"; "playlist"]%string
              MELO_EVENT_TYPE_COUNT eq_refl eq_refl) as [Hdef Hinj].
  { apply (bool_decide_unpack _). by vm_compute. }
  by split_and!.
Qed.

(** X6: [melo_event_player_to_string] never reads past its table; it gives
    a name to the values below [MELO_EVENT_PLAYER_COUNT] and [NULL] to the
    others, the names of two events differ, and the event of each generator
    has the name of the generator. *)
Theorem melo_event_player_to_string_names :
  (∀ event, ∃ r, melo_event_player_to_string event = Some r ∧
                 (r = None ↔ (MELO_EVENT_PLAYER_COUNT ≤ event)%N)) ∧
  (∀ a b name, melo_event_player_to_string a = Some (Some name) →
               melo_event_player_to_string b = Some (Some name) → a = b) ∧
  (melo_event_player_to_string ∘ MeloEventPlayer_value)
    <$> [MELO_EVENT_PLAYER_NEW; MELO_EVENT_PLAYER_DELETE;
         MELO_EVENT_PLAYER_STATUS; MELO_EVENT_PLAYER_STATE;
         MELO_EVENT_PLAYER_BUFFERING; MELO_EVENT_PLAYER_SEEK;
         MELO_EVENT_PLAYER_DURATION; MELO_EVENT_PLAYER_PLAYLIST;
         MELO_EVENT_PLAYER_VOLUME; MELO_EVENT_PLAYER_MUTE;
         MELO_EVENT_PLAYER_NAME; MELO_EVENT_PLAYER_ERROR;
         MELO_EVENT_PLAYER_TAGS]
  = (Some ∘ Some) <$> ["new"; "delete"; "status"; "state"; "buffering";
                        "seek"; "duration"; "playlist"; "volume"; "mute";
                        "name"; "error"; "tags"]%string.
Proof.
  destruct (table_names melo_event_player_string
              ["new"; "delete"; "status"; "state"; "buffering"; "seek";
               "duration"; "playlist"; "volume"; "mute"; "name"; "error";
               "tags"]%string
              MELO_EVENT_PLAYER_COUNT eq_refl eq_refl) as [Hdef Hinj].
  { apply (bool_decide_unpack _). by vm_compute. }
  by split_and!.
Qed.


(** ** The theorems on two clients *)

(** The dispatcher after the registration of the callback [10] with the
    data [100], then of the callback [20] with the data [200]: the clients
    are at [1] and [3]. *)
Definition two_clients : State :=
  registered 20%nat 200%nat (registered 10%nat 100%nat init).

Lemma two_clients_wf : ev_wf two_clients.
Proof. apply ev_wf_registered, ev_wf_registered, ev_wf_init. Qed.

Lemma unregister_stops_callbacks_witness :
  ev_wf two_clients ∧ 3%nat ∈ handles two_clients ∧
  ∃ s1 s2 acts,
    melo_event_unregister 3%nat two_clients = Some (tt, s1) ∧
    ev_wf s1 ∧
    handles s1 = filter (.≠ 3%nat) (handles two_clients) ∧
    (3%nat ∉ handles s1) ∧
    clients s1 = delete 3%nat (clients two_clients) ∧
    melo_event_new MELO_EVENT_TYPE_PLAYER 9 (Some "player_0"%string) 5%nat
      None s1 = Some (tt, s2) ∧
    trace s2 = trace s1 ++ [G_LOCK] ++ acts ++ [G_UNLOCK]
                 ++ free_data None 5%nat ∧
    Forall2 (delivers two_clients MELO_EVENT_TYPE_PLAYER 9
               (Some "player_0"%string) 5%nat)
      (filter (.≠ 3%nat) (handles two_clients)) acts.
Proof.
  split; [exact two_clients_wf|].
  assert (3%nat ∈ handles two_clients) as Hin
    by (apply list_elem_of_In; simpl; tauto).
  split; [exact Hin|].
  exact (unregister_stops_callbacks 3%nat MELO_EVENT_TYPE_PLAYER 9
           (Some "player_0"%string) 5%nat None two_clients two_clients_wf Hin).
Defined.

Lemma register_unregister_restores_witness :
  ev_wf two_clients ∧
  ∃ c s1 s2,
    melo_event_register 30%nat 300%nat two_clients = Some (c, s1) ∧
    (c ∉ handles two_clients) ∧
    handles s1 = c :: handles two_clients ∧
    clients s1 !! c = Some (mkClient 30%nat 300%nat) ∧
    ev_wf s1 ∧
    melo_event_unregister c s1 = Some (tt, s2) ∧
    melo_event_clients s2 = melo_event_clients two_clients ∧
    clients s2 = clients two_clients.
Proof.
  split; [exact two_clients_wf|].
  exact (register_unregister_restores 30%nat 300%nat two_clients
           two_clients_wf).
Defined.



End EventMore.

(** * The playlist beyond single calls: the mutex, the references, the
       names and the end of the playlist *)

Module PlaylistMore.
Import Playlist GListProps PlaylistProps.

Section More.
Context `{MeloTagsOps}.

(** ** The references that [get_list] takes *)

(** One more reference on the items of the list [l]. *)
Definition referenced (l : list addr) (h : gmap addr MeloPlaylistItem) (d : addr)
  : option MeloPlaylistItem :=
  (if decide (d ∈ l) then add_refs 1 else add_refs 0) <$> h !! d.

Lemma g_list_copy_deep_refs (l : GList) s :
  NoDup l.*2 → (∀ c, c ∈ l → is_Some (heap s !! c.2)) →
  ∃ l' h',
    g_list_copy_deep l melo_playlist_item_ref s
      = Some (l', copied (length l) h' s) ∧
    l'.*2 = l.*2 ∧
    l'.*1 = seq (next_addr s) (length l) ∧
    ∀ d, h' !! d = referenced l.*2 (heap s) d.
Proof.
  revert s. induction l as [|[n d] l IH]; intros s Hnd Hl.
  - exists [], (heap s). split_and!; try done.
    + unfold copied. destruct s. msimpl. do 3 f_equal. lia.
    + intros d. unfold referenced. rewrite decide_False by apply not_elem_of_nil.
      destruct (heap s !! d); simpl; by rewrite ?add_refs_0.
  - rewrite fmap_cons in Hnd. apply NoDup_cons in Hnd as [Hd Hnd].
    destruct (Hl (n, d)) as [it Hit]; [by left|]. simpl in Hit.
    destruct (IH (with_heap (<[d := Item.set_ref_count (S (Item.ref_count it)) it]>
                               (heap s)) (allocated s)) Hnd)
      as (l' & h' & Hcopy & Hdata & Hnodes & Hheap).
    { intros c Hc. simpl. destruct (decide (c.2 = d)) as [->|Hne].
      - rewrite lookup_insert_eq. eauto.
      - rewrite lookup_insert_ne by done. apply Hl. by right. }
    exists ((next_addr s, d) :: l'), h'. split_and!.
    + rewrite g_list_copy_deep_cons.
      rewrite (melo_playlist_item_ref_eq d it) by done.
      simpl heap. rewrite Hcopy. unfold copied. simpl. do 4 f_equal. lia.
    + rewrite !fmap_cons. by rewrite Hdata.
    + rewrite fmap_cons. by rewrite Hnodes.
    + intros d'. rewrite Hheap. unfold referenced. simpl.
      destruct (decide (d' = d)) as [->|Hne].
      * rewrite lookup_insert_eq, Hit, decide_False by done.
        rewrite decide_True by (by left). simpl.
        f_equal. rewrite add_refs_0. unfold add_refs. simpl. do 2 f_equal. lia.
      * rewrite lookup_insert_ne by done.
        destruct (decide (d' ∈ l.*2)) as [Hin|Hnin].
        -- by rewrite decide_True by (by right).
        -- rewrite decide_False; [done|].
           by intros [?|?]%elem_of_cons.
Qed.

Lemma get_list_refs tags_fields s :
  wf s →
  ∃ l h',
    melo_playlist_simple_get_list tags_fields s
      = Some (l, traced [g_mutex_lock; g_mutex_unlock]
                   (copied (length (playlist s)) h' s)) ∧
    (list_items l).*2 = (playlist s).*2 ∧
    (list_items l).*1 = seq (next_addr s) (length (playlist s)) ∧
    list_current l = current_name s ∧
    ∀ d, h' !! d = referenced (playlist s).*2 (heap s) d.
Proof.
  intros Hwf.
  destruct (g_list_copy_deep_refs (playlist s) (traced [g_mutex_lock] s))
    as (l' & h' & Hcopy & Hdata & Hnodes & Hheap); [by apply wf_data| |].
  { intros [e d] Hin. simpl.
    destruct (wf_items s Hwf _ _ Hin) as (it & _ & -> & _). eauto. }
  exists (mkList l' (current_name s)), h'. split_and!; try done.
  unfold melo_playlist_simple_get_list, current_name.
  unfold traced, copied in *. simpl in Hcopy. psimpl. rewrite Hcopy.
  destruct (current s) as [c|] eqn:Hc; psimpl.
  - destruct (wf_node s c Hwf) as (d & it & n & Hin & Hd & Hit & Hn & _);
      [by apply wf_current|].
    pose proof (Hheap d) as Hk. unfold referenced in Hk. simpl in Hk.
    rewrite Hit in Hk.
    rewrite Hd. psimpl. rewrite Hk, Hit. psimpl.
    rewrite <- app_assoc. by destruct (decide (d ∈ (playlist s).*2)).
  - by rewrite <- app_assoc.
Qed.


(** ** What a call does to the state *)

(** The trace of a call that stays in the playlist: a lock, calls to the
    tags, an unlock. *)
Definition is_tags_call (a : Action) : bool :=
  match a with
  | melo_tags_ref _ | melo_tags_set_cover_url _ _ => true
  | _ => false
  end.
Definition critical (t : list Action) : Prop :=
  ∃ t1, t = g_mutex_lock :: t1 ++ [g_mutex_unlock] ∧
        Forall (λ a, is_tags_call a = true) t1.

(** The effect of a call on a well-formed state, with the trace that it
    leaves, the references that it takes and the item that it removes. *)
Inductive effect (s : State) : Call → State → Prop :=
| effect_same c t :
    critical t → effect s c (traced t s)
| effect_moved c n t :
    n ∈ (playlist s).*1 → critical t →
    effect s c (traced t (moved (Some n) s))
| effect_played name e d it :
    names s !! name = Some e → (e, d) ∈ playlist s → heap s !! d = Some it →
    effect s (CallPlay name)
      (traced ([g_mutex_lock; g_mutex_unlock] ++ play_call s it)
         (moved (Some e) s))
| effect_copied tags_fields h' :
    (∀ d, h' !! d = referenced (playlist s).*2 (heap s) d) →
    effect s (CallGetList tags_fields)
      (traced [g_mutex_lock; g_mutex_unlock]
         (copied (length (playlist s)) h' s))
| effect_added name full_name path tags is_current final_name :
    names s !! final_name = None →
    effect s (CallAdd name full_name path tags is_current)
      (added full_name path tags is_current final_name s)
| effect_removed name e d it :
    names s !! name = Some e → (e, d) ∈ playlist s → heap s !! d = Some it →
    (1 ≤ Item.ref_count it)%nat →
    effect s (CallRemove name) (removed name e d it s).

Lemma critical_short : critical [g_mutex_lock; g_mutex_unlock].
Proof. by exists []. Qed.

Lemma critical_tags_ref it tags :
  critical ([g_mutex_lock] ++ tags_ref_call it tags ++ [g_mutex_unlock]).
Proof.
  exists (tags_ref_call it tags). split; [done|].
  unfold tags_ref_call. destruct tags, (Item.tags it); by repeat constructor.
Qed.

Lemma effect_step c s s' : effect s c s' → step s s'.
Proof.
  intros [c' t Ht|c' n t Hn Ht|name e d it Hn Hin Hit|f h' Hh|???????
         |?????? Hrc].
  - apply step_traced.
  - by apply step_moved.
  - apply step_moved. apply list_elem_of_fmap. by exists (e, d).
  - apply step_copied. intros d. rewrite Hh. unfold referenced.
    case_decide; eauto.
  - by apply step_added.
  - by eapply step_removed.
Qed.

Lemma call_effect c s :
  wf s → call_defined c → ∃ s', call c s = Some (tt, s') ∧ effect s c s'.
Proof.
  intros Hwf Hdef. destruct c as [fields|name fields
                                  |name full_name path tags is_current
                                  |[] name tags set|name|name|path data type].
  - destruct (get_list_refs fields s Hwf) as (l & h' & Hl & _ & _ & _ & Hheap).
    eexists. split; [by eapply call_eq|]. by apply effect_copied.
  - destruct (names s !! name) as [e|] eqn:Hn.
    + destruct (wf_lookup s name e Hwf Hn) as (d & it & _ & Hd & Hit & _).
      eexists. split; [eapply call_eq; [done|by eapply get_tags_found]|].
      apply effect_same. eexists. split; [done|].
      destruct (Item.tags it); by repeat constructor.
    + eexists. split; [eapply call_eq; [done|by eapply get_tags_missing]|].
      apply effect_same, critical_short.
  - destruct Hdef as [base Hbase].
    destruct (name_loop (names s) base base 1) as [final_name i] eqn:Hloop.
    destruct (decide (i < 0)) as [Hi|Hi].
    + eexists. split; [eapply call_eq; [done|by eapply add_exhausted]|].
      apply effect_same, critical_short.
    + eexists. split;
        [eapply call_eq; [done|eapply add_done; [done..|lia]]|].
      apply effect_added.
      destruct (name_loop_spec (names s) base base 1 final_name i
                  ltac:(lia) eq_refl Hloop)
        as [(_ & _ & Hfree & _)|[-> _]]; [done|lia].
  - destruct (current s) as [cur|] eqn:Hc.
    + pose proof (wf_current s Hwf _ Hc) as Hcur.
      destruct (nodup_node_next _ _ (wf_nodes s Hwf) Hcur) as ([next|] & Hnext & Hin).
      * destruct (wf_node s next Hwf) as (d & it & _ & _ & Hd & Hit & _);
          [by apply Hin|].
        eexists. split; [eapply call_eq; [done|by eapply get_prev_found]|].
        destruct set; [|by apply effect_same, critical_tags_ref].
        apply effect_moved; [by apply Hin|apply critical_tags_ref].
      * eexists. split; [eapply call_eq; [done|by eapply get_prev_last]|].
        apply effect_same, critical_short.
    + eexists. split; [eapply call_eq; [done|by eapply get_prev_none]|].
      apply effect_same, critical_short.
  - destruct (current s) as [cur|] eqn:Hc.
    + pose proof (wf_current s Hwf _ Hc) as Hcur.
      destruct (nodup_node_prev _ _ (wf_nodes s Hwf) Hcur) as ([prev|] & Hprev & Hin).
      * destruct (wf_node s prev Hwf) as (d & it & _ & _ & Hd & Hit & _);
          [by apply Hin|].
        eexists. split; [eapply call_eq; [done|by eapply get_next_found]|].
        apply effect_moved; [by apply Hin|apply critical_tags_ref].
      * eexists. split; [eapply call_eq; [done|by eapply get_next_first]|].
        apply effect_same, critical_short.
    + eexists. split; [eapply call_eq; [done|by eapply get_next_none]|].
      apply effect_same, critical_short.
  - destruct (names s !! name) as [e|] eqn:Hn.
    + destruct (wf_lookup s name e Hwf Hn) as (d & it & Hin & Hd & Hit & _ & Hrc).
      eexists. split; [eapply call_eq; [done|by eapply play_found]|].
      by eapply effect_played.
    + eexists. split; [eapply call_eq; [done|by eapply play_missing]|].
      apply effect_same, critical_short.
  - destruct (names s !! name) as [e|] eqn:Hn.
    + destruct (wf_lookup s name e Hwf Hn) as (d & it & Hin & Hd & Hit & _ & Hrc).
      eexists. split; [eapply call_eq; [done|by eapply remove_found]|].
      by eapply effect_removed.
    + eexists. split; [eapply call_eq; [done|by eapply remove_missing]|].
      apply effect_same, critical_short.
  - destruct (names s !! path) as [e|] eqn:Hn.
    + destruct (wf_lookup s path e Hwf Hn) as (d & it & _ & Hd & Hit & _).
      eexists. split; [eapply call_eq; [done|by eapply get_cover_found]|].
      apply effect_same, critical_short.
    + eexists. split; [eapply call_eq; [done|by eapply get_cover_missing]|].
      apply effect_same, critical_short.
Qed.


(** A run of calls on a well-formed state: the effects of the calls, one
    after the other. *)
Inductive run : list Call → State → State → Prop :=
| run_nil s : run [] s s
| run_cons c cs s s1 s' :
    wf s → effect s c s1 → run cs s1 s' → run (c :: cs) s s'.

Lemma calls_run cs s s' : wf s → calls cs s = Some (tt, s') → run cs s s'.
Proof.
  revert s. induction cs as [|c cs IH]; intros s Hwf Hcalls.
  - injection Hcalls as <-. constructor.
  - simpl in Hcalls. unfold mbind at 1, M_bind at 1 in Hcalls.
    destruct (call c s) as [[[] s1]|] eqn:Hcall; [|done].
    destruct (call_effect c s Hwf (call_is_defined _ _ _ _ Hcall))
      as (s1' & Hcall' & Heff).
    rewrite Hcall in Hcall'. injection Hcall' as <-.
    econstructor; [done..|]. apply IH; [|done].
    eapply wf_step; [done|]. by eapply effect_step.
Qed.


(** ** The mutex *)










(** ** The player *)

Definition is_player_call (a : Action) : bool :=
  match a with
  | melo_player_play _ _ _ _ _ | melo_player_set_state _ _ => true
  | _ => false
  end.

(** X8: only [play] and [remove] call the player. On a well-formed
    playlist the other operations, [get_list], [get_tags], [add], [get_prev],
    [get_next] and [get_cover], are defined and make no call to the player:
    between their lock and their unlock they call the tags at most. *)
Theorem only_play_and_remove_call_the_player c s :
  wf s → call_defined c →
  (∀ name, c ≠ CallPlay name) → (∀ name, c ≠ CallRemove name) →
  ∃ s' t,
    call c s = Some (tt, s') ∧
    trace s' = trace s ++ [g_mutex_lock] ++ t ++ [g_mutex_unlock] ∧
    Forall (λ a, is_tags_call a = true) t ∧
    Forall (λ a, is_player_call a = false)
      ([g_mutex_lock] ++ t ++ [g_mutex_unlock]).
Proof.
  intros Hwf Hdef Hplay Hremove.
  destruct (call_effect c s Hwf Hdef) as (s' & Hcall & Heff).
  assert (∀ t, Forall (λ a, is_tags_call a = true) t →
               Forall (λ a, is_player_call a = false)
                 ([g_mutex_lock] ++ t ++ [g_mutex_unlock])) as Hquiet.
  { intros t Ht. apply Forall_cons. split; [done|]. apply Forall_app.
    split; [|by repeat constructor].
    eapply Forall_impl; [exact Ht|]. by intros []. }
  exists s'. revert Hplay Hremove.
  destruct Heff as [c' t (t1 & -> & Ht)|c' n t Hn (t1 & -> & Ht)
                   |name e d it Hn Hin Hit|f h' Hh
                   |name full_name path tags is_current final_name Hn
                   |name e d it Hn Hin Hit Hrc]; intros Hplay Hremove.
  - exists t1. split_and!; [done..|by apply Hquiet].
  - exists t1. split_and!; [done..|by apply Hquiet].
  - by destruct (Hplay name).
  - exists []. split_and!; [done..|by apply Hquiet].
  - assert (Forall (λ a, is_tags_call a = true) (cover_call s tags final_name))
      by (unfold cover_call; destruct (_ && _); by repeat constructor).
    exists (cover_call s tags final_name). split_and!; [done..|by apply Hquiet].
  - by destruct (Hremove name).
Qed.

(** ** The end of the playlist *)

(** An item after [melo_playlist_item_unref]: gone with its last
    reference. *)
Definition unref (it : MeloPlaylistItem) : option MeloPlaylistItem :=
  match Item.ref_count it with
  | S (S n) => Some (Item.set_ref_count (S n) it)
  | _ => None
  end.

Lemma melo_playlist_item_unref_eq d it s :
  heap s !! d = Some it →
  melo_playlist_item_unref d s = Some (tt, with_heap (released d it (heap s)) s).
Proof.
  intros Hit. unfold melo_playlist_item_unref, released, with_heap. psimpl.
  rewrite Hit. psimpl. destruct (Item.ref_count it) as [|[|n]]; psimpl;
    by rewrite ?Hit.
Qed.

Lemma released_unref d it (h : gmap addr MeloPlaylistItem) :
  released d it h !! d = unref it.
Proof.
  unfold released, unref. destruct (Item.ref_count it) as [|[|n]];
    by rewrite ?lookup_delete_eq, ?lookup_insert_eq.
Qed.

Lemma g_list_free_full_unref (l : GList) s :
  NoDup l.*2 → (∀ c, c ∈ l → is_Some (heap s !! c.2)) →
  ∃ h',
    g_list_free_full l melo_playlist_item_unref s = Some (tt, with_heap h' s) ∧
    ∀ d, h' !! d = if decide (d ∈ l.*2) then heap s !! d ≫= unref
                   else heap s !! d.
Proof.
  revert s. induction l as [|[n d] l IH]; intros s Hnd Hl.
  - exists (heap s). split; [by destruct s|]. intros d.
    by rewrite decide_False by apply not_elem_of_nil.
  - rewrite fmap_cons in Hnd. apply NoDup_cons in Hnd as [Hd Hnd].
    destruct (Hl (n, d)) as [it Hit]; [by left|]. simpl in Hit.
    destruct (IH (with_heap (released d it (heap s)) s) Hnd) as (h' & Hfree & Hh').
    { intros [n' d'] Hc. simpl. rewrite released_other;
        [apply (Hl (n', d')); by right|].
      intros ->. apply Hd. apply list_elem_of_fmap. by exists (n', d). }
    exists h'. split.
    + simpl. unfold mbind at 1, M_bind at 1.
      by rewrite (melo_playlist_item_unref_eq d it s Hit), Hfree.
    + intros d'. rewrite Hh'. simpl. destruct (decide (d' = d)) as [->|Hne].
      * rewrite decide_False by done. rewrite decide_True by (by left).
        by rewrite released_unref, Hit.
      * rewrite released_other by done.
        destruct (decide (d' ∈ l.*2)) as [Hin|Hnin].
        -- by rewrite decide_True by (by right).
        -- rewrite decide_False; [done|]. by intros [?|?]%elem_of_cons.
Qed.

Lemma finalize_spec s :
  wf s →
  ∃ h',
    melo_playlist_simple_finalize s
      = Some (tt, mkState (player s) [] ∅ (current s) (override_cover_url s) h'
                    (next_addr s) (trace s)) ∧
    ∀ d, h' !! d = if decide (d ∈ (playlist s).*2) then heap s !! d ≫= unref
                   else heap s !! d.
Proof.
  intros Hwf.
  destruct (g_list_free_full_unref (playlist s)
              (mkState (player s) (playlist s) ∅ (current s)
                 (override_cover_url s) (heap s) (next_addr s) (trace s)))
    as (h' & Hfree & Hh'); [by apply wf_data| |].
  { intros [e d] Hin. simpl.
    destruct (wf_items s Hwf _ _ Hin) as (it & _ & -> & _). eauto. }
  exists h'. split; [|done].
  simpl in Hfree, Hh'.
  unfold melo_playlist_simple_finalize, set_names, set_playlist. msimpl.
  by rewrite Hfree.
Qed.

(** X9: [melo_playlist_simple_finalize] is defined on a well-formed
    playlist and drops one reference of each item of the list, and no
    other: an item that only the playlist holds is released, an item that a
    list returned by [get_list] still holds stays allocated with one
    reference less, and what is not in the list is left alone. *)
Theorem finalize_drops_one_reference s :
  wf s →
  ∃ s',
    melo_playlist_simple_finalize s = Some (tt, s') ∧
    playlist s' = [] ∧ names s' = ∅ ∧
    (∀ e d, (e, d) ∈ playlist s →
       ∃ it, heap s !! d = Some it ∧ (1 ≤ Item.ref_count it)%nat ∧
             heap s' !! d
             = if decide (Item.ref_count it = 1%nat) then None
               else Some (Item.set_ref_count (Item.ref_count it - 1) it)) ∧
    (∀ d, d ∉ (playlist s).*2 → heap s' !! d = heap s !! d).
Proof.
  intros Hwf. destruct (finalize_spec s Hwf) as (h' & Hfin & Hh').
  eexists. split; [exact Hfin|]. simpl. split_and!; [done..| |].
  - intros e d Hin.
    destruct (wf_items s Hwf _ _ Hin) as (it & _ & Hit & _ & Hrc & _).
    exists it. split_and!; [done..|]. rewrite Hh'.
    rewrite decide_True by (apply list_elem_of_fmap; by exists (e, d)).
    rewrite Hit. simpl. unfold unref.
    destruct (Item.ref_count it) as [|[|n]] eqn:Hcount; [lia|done|].
    by rewrite decide_False by lia.
  - intros d Hd. by rewrite Hh', decide_False.
Qed.

(** The items are those of the list, and the playlist alone holds them. *)
Definition tight (s : State) : Prop :=
  ∀ d it, heap s !! d = Some it →
          d ∈ (playlist s).*2 ∧ Item.ref_count it = 1%nat.

Lemma tight_effect c s s' :
  wf s → (∀ f, c ≠ CallGetList f) → effect s c s' → tight s → tight s'.
Proof.
  intros Hwf Hc Heff. revert Hc.
  destruct Heff as [c' t Ht|c' n t Hn Ht|name e d it Hn Hin Hit|f h' Hh
                   |name full_name path tags is_current final_name Hn
                   |name e d it Hn Hin Hit Hrc]; intros Hc Htight; try done.
  - by destruct (Hc f).
  - intros d it. simpl. destruct (decide (d = next_addr s)) as [->|Hne].
    + rewrite lookup_insert_eq. intros [= <-]. split; [by left|done].
    + rewrite lookup_insert_ne by done. intros [Hd Hrc]%Htight.
      split; [by right|done].
  - destruct (cell_split _ _ _ (wf_nodes s Hwf) (wf_data s Hwf) Hin)
      as (l1 & l2 & Hl & He1 & Hd1 & He2 & Hd2).
    destruct (Htight d it Hit) as [_ Hone].
    intros d' it'. simpl. unfold released. rewrite Hone.
    destruct (decide (d' = d)) as [->|Hne]; [by rewrite lookup_delete_eq|].
    rewrite lookup_delete_ne by done. intros [Hd' Hrc']%Htight.
    split; [|done]. rewrite Hl, g_list_remove_app by done.
    rewrite Hl, fmap_app, fmap_cons in Hd'. rewrite fmap_app.
    apply elem_of_app in Hd' as [?|[?|?]%elem_of_cons];
      [apply elem_of_app; by left|done|apply elem_of_app; by right].
Qed.

Lemma tight_run cs s s' :
  Forall (λ c, ∀ f, c ≠ CallGetList f) cs → run cs s s' → tight s → tight s'.
Proof.
  intros Hcs Hrun. induction Hrun as [s|c cs s s1 s' Hwf Heff _ IH]; [done|].
  apply Forall_cons in Hcs as [Hc Hcs]. intros Htight.
  apply IH; [done|]. by eapply tight_effect.
Qed.

(** X10: the playlist leaks no item. After any run of operations from the
    new playlist that hands out no list ([get_list] apart, each operation
    gives back the references that it takes), the items are those of the
    list and [melo_playlist_simple_finalize] releases them all. *)
Theorem finalize_releases_every_item pl override cs s :
  Forall (λ c, ∀ tags_fields, c ≠ CallGetList tags_fields) cs →
  calls cs (init pl override) = Some (tt, s) →
  (∀ d, is_Some (heap s !! d) ↔ d ∈ (playlist s).*2) ∧
  ∃ s', melo_playlist_simple_finalize s = Some (tt, s') ∧ heap s' = ∅.
Proof.
  intros Hcs Hcalls.
  pose proof (reachable_wf _ _ _ _ Hcalls) as Hwf.
  assert (tight s) as Htight.
  { eapply tight_run; [done|apply calls_run; [apply wf_init|done]|].
    intros d it Hd. simpl in Hd. by rewrite lookup_empty in Hd. }
  split.
  - intros d. split; [intros [it Hit]; by apply (Htight d it)|].
    intros ([e d'] & -> & Hin)%list_elem_of_fmap. simpl.
    destruct (wf_items s Hwf _ _ Hin) as (it & _ & -> & _). eauto.
  - destruct (finalize_spec s Hwf) as (h' & Hfin & Hh').
    eexists. split; [exact Hfin|]. simpl. apply map_eq. intros d.
    rewrite Hh', lookup_empty. case_decide as Hd.
    + destruct (heap s !! d) as [it|] eqn:Hit; [|done]. simpl.
      destruct (Htight d it Hit) as [_ Hone]. unfold unref. by rewrite Hone.
    + destruct (heap s !! d) as [it|] eqn:Hit; [|done].
      by destruct (Htight d it Hit).
Qed.

(** ** The room for new names *)

Lemma append_inj (a b c : string) : a +:+ b = a +:+ c → b = c.
Proof.
  induction a as [|x a IH]; [done|]. rewrite !append_cons.
  intros [= ?]. by apply IH.
Qed.

(** The candidates up to the suffix [_99999999] are all different. *)
Lemma candidate_inj base j k :
  0 <= j < 100000000 → 0 <= k < 100000000 →
  candidate base j = candidate base k → j = k.
Proof.
  assert (∀ i, 1 <= i < 100000000 → base ≠ candidate base i) as Hbase.
  { intros i Hi Heq. unfold candidate in Heq. rewrite decide_False in Heq by lia.
    rewrite g_snprintf_ext_fits in Heq by done.
    apply (f_equal String.length) in Heq. rewrite length_append in Heq.
    rewrite append_cons in Heq. simpl in Heq. lia. }
  intros Hj Hk Heq.
  destruct (decide (j = 0)) as [->|Hj0], (decide (k = 0)) as [->|Hk0]; [done| | |].
  - destruct (Hbase k ltac:(lia)). by rewrite <- Heq.
  - destruct (Hbase j ltac:(lia)). by rewrite Heq.
  - unfold candidate in Heq. rewrite !decide_False in Heq by done.
    rewrite !g_snprintf_ext_fits in Heq by lia.
    apply append_inj, append_inj in Heq. by apply (inj pretty) in Heq.
Qed.

(** A table of fewer than [100000000] names leaves one of the first
    candidates free. *)
Lemma free_candidate (m : gmap string addr) base :
  Z.of_nat (size m) < 100000000 →
  ∃ k, 0 <= k <= Z.of_nat (size m) ∧ m !! candidate base k = None.
Proof.
  intros Hsize.
  destruct (decide (Exists (λ k, m !! candidate base k = None)
                      (seqZ 0 (Z.of_nat (size m) + 1)))) as [Hex|Hall].
  - apply Exists_exists in Hex as (k & Hk%elem_of_seqZ & Hfree).
    exists k. split; [lia|done].
  - exfalso. apply not_Exists_Forall in Hall; [|apply _].
    assert (NoDup (candidate base <$> seqZ 0 (Z.of_nat (size m) + 1))) as Hnd.
    { apply NoDup_fmap_2_strong; [|apply NoDup_seqZ].
      intros j k Hj%elem_of_seqZ Hk%elem_of_seqZ. apply candidate_inj; lia. }
    assert (list_to_set (candidate base <$> seqZ 0 (Z.of_nat (size m) + 1))
              ⊆ dom m) as Hsub.
    { intros n [k [-> Hk]]%elem_of_list_to_set%list_elem_of_fmap.
      rewrite Forall_forall in Hall. apply Hall in Hk. simpl in Hk.
      apply elem_of_dom. by destruct (m !! candidate base k). }
    apply subseteq_size in Hsub.
    rewrite size_list_to_set, length_fmap, length_seqZ, size_dom in Hsub
      by done.
    lia.
Qed.

(** ** The index of the names *)

(** The name of the item of a cell. *)
Definition name_of (s : State) (c : addr * addr) : string :=
  default EmptyString (heap s !! c.2 ≫= Item.name).

Lemma wf_item_names s : wf s → item_names s = Some <$> (name_of s <$> playlist s).
Proof.
  intros Hwf. unfold item_names. rewrite <- list_fmap_compose.
  apply list_fmap_ext. intros i [e d] Hc. unfold name_of. simpl.
  destruct (wf_items s Hwf e d) as (it & n & -> & Hn & _);
    [apply list_elem_of_lookup; eauto|].
  simpl. by rewrite Hn.
Qed.

Lemma wf_dom_names s :
  wf s → dom (names s) = list_to_set (name_of s <$> playlist s).
Proof.
  intros Hwf. apply set_eq. intros n.
  rewrite elem_of_dom, elem_of_list_to_set, list_elem_of_fmap. split.
  - intros [e Hn].
    destruct (wf_names s Hwf _ _ Hn) as (d & it & Hin & Hit & Hname).
    exists (e, d). split; [|done]. unfold name_of. simpl.
    rewrite Hit. simpl. by rewrite Hname.
  - intros ([e d] & -> & Hin).
    destruct (wf_items s Hwf _ _ Hin) as (it & n & Hit & Hn & _ & Hm).
    unfold name_of. simpl. rewrite Hit. simpl. rewrite Hn. simpl. eauto.
Qed.

Lemma wf_size s : wf s → size (names s) = length (playlist s).
Proof.
  intros Hwf. rewrite <- size_dom, (wf_dom_names s Hwf).
  rewrite size_list_to_set, length_fmap; [done|].
  apply (NoDup_fmap_1 Some). rewrite <- wf_item_names by done.
  apply wf_invariant in Hwf. by destruct Hwf.
Qed.


(** X12: [add] does not fail on a playlist of fewer than [100000000] items:
    it names the new item by the base name or by the base name with a
    suffix that is at most the number of the items, a name that no item
    has, and links it at the head of the list. *)
Theorem add_succeeds_below_capacity name full_name path tags is_current s base :
  wf s → base_name name full_name path = Some base →
  Z.of_nat (length (playlist s)) < 100000000 →
  ∃ k s',
    0 <= k <= Z.of_nat (length (playlist s)) ∧
    names s !! candidate base k = None ∧
    melo_playlist_simple_add name full_name path tags is_current s
      = Some (true, s') ∧
    playlist s' = (S (next_addr s), next_addr s) :: playlist s ∧
    names s' = <[candidate base k := S (next_addr s)]> (names s) ∧
    heap s' = <[next_addr s := Item.mk (Some (candidate base k)) full_name path
                                 tags true true 1]> (heap s).
Proof.
  intros Hwf Hbase Hlen. rewrite <- (wf_size s Hwf) in *.
  destruct (free_candidate (names s) base Hlen) as (k0 & Hk0 & Hfree0).
  destruct (add_spec name full_name path tags is_current s base Hbase)
    as (ok & s' & Hadd & Hfail & Hok).
  destruct ok.
  - destruct (Hok eq_refl) as (k & Hk & Hfree & Htaken & ->).
    exists k. eexists. split_and!; [lia| |done..].
    destruct (decide (k <= k0)) as [|Hgt]; [lia|].
    destruct (Htaken k0 ltac:(lia)) as [? Hsome]. congruence.
  - destruct (proj1 Hfail eq_refl k0 ltac:(lia)) as [? Hsome]. congruence.
Qed.

(** ** An item from [add] to [remove] *)

(** A successful [add] leaves the state [added], under a name that was
    free. *)
Lemma add_true name full_name path tags is_current s s1 :
  melo_playlist_simple_add name full_name path tags is_current s
    = Some (true, s1) →
  ∃ final_name, names s !! final_name = None ∧
                s1 = added full_name path tags is_current final_name s.
Proof.
  intros Hadd.
  destruct (base_name name full_name path) as [base|] eqn:Hbase;
    [|by rewrite add_undefined in Hadd].
  destruct (name_loop (names s) base base 1) as [final_name i] eqn:Hloop.
  destruct (decide (i < 0)) as [Hi|Hi].
  - by erewrite add_exhausted in Hadd.
  - erewrite add_done in Hadd by (done || lia). injection Hadd as <-.
    exists final_name. split; [|done].
    destruct (name_loop_spec (names s) base base 1 final_name i
                ltac:(lia) eq_refl Hloop)
      as [(_ & _ & Hfree & _)|[-> _]]; [done|lia].
Qed.

Lemma node_data_head (l : GList) n d : node_data ((n, d) :: l) n = Some d.
Proof. unfold node_data. simpl. by rewrite decide_True. Qed.

(** X13: [remove] undoes [add]. After a successful [add] on a well-formed
    playlist, the [remove] of the name that the new item got succeeds and
    releases the item: the list, the table of the names and the items are
    what they were before the [add]; [current] is too, unless the item was
    added as the current one, in which case no item is current. *)
Theorem add_then_remove_restores name full_name path tags is_current s s1 :
  wf s →
  melo_playlist_simple_add name full_name path tags is_current s
    = Some (true, s1) →
  ∃ final_name node item it s2,
    playlist s1 = (node, item) :: playlist s ∧
    heap s1 !! item = Some it ∧ Item.name it = Some final_name ∧
    melo_playlist_simple_remove final_name s1 = Some (true, s2) ∧
    playlist s2 = playlist s ∧ names s2 = names s ∧ heap s2 = heap s ∧
    current s2 = if is_current then None else current s.
Proof.
  intros Hwf (final_name & Hfree & ->)%add_true.
  exists final_name. eexists _, _, _, _.
  split_and!; [done|by apply lookup_insert_eq|done| |..].
  - apply (remove_found final_name _ (S (next_addr s)) (next_addr s)).
    + apply lookup_insert_eq.
    + apply node_data_head.
    + apply lookup_insert_eq.
  - simpl. by rewrite decide_True.
  - simpl. rewrite delete_insert_eq. by apply delete_id.
  - simpl. unfold released. simpl. rewrite delete_insert_eq. apply delete_id.
    destruct (heap s !! next_addr s) eqn:Hit; [|done].
    assert (next_addr s < next_addr s)%nat by (eapply wf_fresh_heap; eauto).
    lia.
  - simpl. destruct is_current; [by rewrite bool_decide_true|].
    rewrite bool_decide_false; [done|]. intros Hc. symmetry in Hc.
    apply (wf_current s Hwf), node_elem in Hc as [d Hin].
    destruct (wf_fresh_cells s Hwf _ _ Hin). lia.
Qed.

(** X14: what [add] is given is what the playlist gives back under the name
    of the new item, whatever the state: [get_tags] of that name returns the
    tags of the [add], with a reference taken on them, and [play] of that
    name succeeds, makes the new item current and hands its path, its name
    and its tags to the player, if the playlist has one. *)
Theorem added_item_is_found name full_name path tags is_current fields s s1 :
  melo_playlist_simple_add name full_name path tags is_current s
    = Some (true, s1) →
  ∃ final_name node s2 s3,
    names s1 !! final_name = Some node ∧
    melo_playlist_simple_get_tags final_name fields s1 = Some (tags, s2) ∧
    trace s2 = trace s1 ++ [g_mutex_lock]
                 ++ match tags with Some t => [melo_tags_ref t] | None => [] end
                 ++ [g_mutex_unlock] ∧
    melo_playlist_simple_play final_name s1 = Some (true, s3) ∧
    current s3 = Some node ∧
    trace s3 = trace s1 ++ [g_mutex_lock; g_mutex_unlock]
                 ++ match player s with
                    | Some pl => [melo_player_play pl path (Some final_name)
                                    tags false]
                    | None => []
                    end.
Proof.
  intros (final_name & Hfree & ->)%add_true.
  exists final_name, (S (next_addr s)).
  rewrite (get_tags_found final_name fields _ (S (next_addr s)) (next_addr s)
             (Item.mk (Some final_name) full_name path tags true true 1));
    [|apply lookup_insert_eq|apply node_data_head|apply lookup_insert_eq].
  rewrite (play_found final_name _ (S (next_addr s)) (next_addr s)
             (Item.mk (Some final_name) full_name path tags true true 1));
    [|apply lookup_insert_eq|apply node_data_head|apply lookup_insert_eq|done].
  eexists _, _. split_and!; [apply lookup_insert_eq|done..].
Qed.

(** X15: [melo_playlist_simple_override_cover_url] decides whether [add]
    names the cover of the tags after the item: an [add] that follows calls
    [melo_tags_set_cover_url] if the option is set and the tags have a
    cover, once, between the lock and the unlock, with the name that the new
    item got; otherwise it does not call it. *)
Theorem override_cover_url_names_the_cover
    override_url name full_name path tags is_current s s0 s1 :
  melo_playlist_simple_override_cover_url override_url s = Some (tt, s0) →
  melo_playlist_simple_add name full_name path tags is_current s0
    = Some (true, s1) →
  ∃ final_name node item it,
    playlist s1 = (node, item) :: playlist s ∧
    heap s1 !! item = Some it ∧ Item.name it = Some final_name ∧
    trace s1 = trace s ++ [g_mutex_lock]
                 ++ (if override_url && melo_tags_has_cover tags
                     then [melo_tags_set_cover_url tags final_name] else [])
                 ++ [g_mutex_unlock].
Proof.
  intros [= <-] (final_name & Hfree & ->)%add_true.
  exists final_name. eexists _, _, _.
  split_and!; [done|by apply lookup_insert_eq|done..].
Qed.

(** ** References *)

(** X16: [get_list] takes one reference on each item of the playlist. It
    is defined on a well-formed playlist, the list that it returns has the
    items of the playlist, in their order, in nodes that are new, and the
    name of the current item; each item of the playlist has one reference
    more than before, and nothing else changes. *)
Theorem get_list_takes_one_reference tags_fields s :
  wf s →
  ∃ l s',
    melo_playlist_simple_get_list tags_fields s = Some (l, s') ∧
    (list_items l).*2 = (playlist s).*2 ∧
    (list_items l).*1 = seq (next_addr s) (length (playlist s)) ∧
    list_current l = current_name s ∧
    playlist s' = playlist s ∧ names s' = names s ∧ current s' = current s ∧
    (∀ e d, (e, d) ∈ playlist s →
       ∃ it, heap s !! d = Some it ∧
             heap s' !! d
             = Some (Item.set_ref_count (S (Item.ref_count it)) it)) ∧
    (∀ d, d ∉ (playlist s).*2 → heap s' !! d = heap s !! d).
Proof.
  intros Hwf.
  destruct (get_list_refs tags_fields s Hwf)
    as (l & h' & Hget & Hdata & Hnodes & Hcur & Hheap).
  exists l. eexists. split; [exact Hget|]. simpl. split_and!; [done..| |].
  - intros e d Hin.
    destruct (wf_items s Hwf _ _ Hin) as (it & _ & Hit & _).
    exists it. split; [done|]. rewrite Hheap. unfold referenced.
    rewrite decide_True by (apply list_elem_of_fmap; by exists (e, d)).
    rewrite Hit. simpl. unfold add_refs. do 2 f_equal. lia.
  - intros d Hd. rewrite Hheap. unfold referenced. rewrite decide_False by done.
    destruct (heap s !! d); simpl; by rewrite ?add_refs_0.
Qed.

(** X17: [remove] drops the reference of the playlist on the item, and no
    other: the item is released if the playlist alone held it, it stays
    allocated with one reference less if a list returned by [get_list] holds
    it too, and the other items are left alone. *)
Theorem remove_drops_one_reference name s e :
  wf s → names s !! name = Some e →
  ∃ d it s',
    (e, d) ∈ playlist s ∧ heap s !! d = Some it ∧
    (1 ≤ Item.ref_count it)%nat ∧
    melo_playlist_simple_remove name s = Some (true, s') ∧
    heap s' !! d
    = (if decide (Item.ref_count it = 1%nat) then None
       else Some (Item.set_ref_count (Item.ref_count it - 1) it)) ∧
    (∀ d', d' ≠ d → heap s' !! d' = heap s !! d').
Proof.
  intros Hwf Hn.
  destruct (wf_lookup s name e Hwf Hn) as (d & it & Hin & Hd & Hit & _ & Hrc).
  exists d, it. eexists. rewrite (remove_found name s e d it) by done.
  split_and!; [done..| |]; simpl.
  - unfold released.
    destruct (Item.ref_count it) as [|[|n]] eqn:Hcount; [lia| |].
    + by rewrite lookup_delete_eq.
    + rewrite lookup_insert_eq, decide_False by lia. done.
  - intros d' Hne. by apply released_other.
Qed.

(** ** The ends of the list *)

(** X18: [get_prev] and [get_next] stop at the ends of the list. When no
    item is current, when the current item is the last of the list for
    [get_prev], and when it is the first of the list for [get_next], they
    return no path, they leave the name and the tags of the caller as they
    are, and they change nothing but the trace, whatever [set]. *)
Theorem get_prev_and_get_next_stop_at_the_ends name tags set s :
  wf s →
  let nothing := Some (mkAdjacent None name tags,
                       traced [g_mutex_lock; g_mutex_unlock] s) in
  (current s = None →
   melo_playlist_simple_get_prev name tags set s = nothing ∧
   melo_playlist_simple_get_next name tags set s = nothing) ∧
  (∀ c d l, current s = Some c → playlist s = l ++ [(c, d)] →
            melo_playlist_simple_get_prev name tags set s = nothing) ∧
  (∀ c d l, current s = Some c → playlist s = (c, d) :: l →
            melo_playlist_simple_get_next name tags set s = nothing).
Proof.
  intros Hwf nothing. split_and!.
  - intros Hc. split; [by apply get_prev_none|by apply get_next_none].
  - intros c d l Hc Hl. apply (get_prev_last _ _ _ _ c); [done|].
    pose proof (wf_nodes s Hwf) as Hnd. rewrite Hl in Hnd |- *.
    by rewrite node_next_app by (by apply nodup_middle in Hnd).
  - intros c d l Hc Hl. apply (get_next_first _ _ _ _ c); [done|].
    rewrite Hl. apply (node_prev_app [] l c d), not_elem_of_nil.
Qed.

(** X19: [get_next] undoes [get_prev]. From a current item that has an
    item after it in the list, [get_prev] with [set] resolves that item and
    makes it current, and the [get_next] that follows resolves the item
    that was current and makes it current again; the list, the table of the
    names and the items are left as they were. *)
Theorem get_prev_then_get_next_returns
    name tags name' tags' set' s c l1 dc o d l2 :
  wf s → current s = Some c →
  playlist s = l1 ++ (c, dc) :: (o, d) :: l2 →
  ∃ it_o it_c s1 s2,
    heap s !! d = Some it_o ∧ heap s !! dc = Some it_c ∧
    melo_playlist_simple_get_prev name tags true s
      = Some (adjacent it_o name tags, s1) ∧
    current s1 = Some o ∧
    melo_playlist_simple_get_next name' tags' set' s1
      = Some (adjacent it_c name' tags', s2) ∧
    current s2 = Some c ∧
    playlist s2 = playlist s ∧ names s2 = names s ∧ heap s2 = heap s.
Proof.
  intros Hwf Hc Hl.
  pose proof (wf_nodes s Hwf) as Hnd. rewrite Hl in Hnd.
  destruct (nodup_link _ _ _ _ _ _ Hnd) as (Hnext & Hprev & Hdc & Hd).
  rewrite <- Hl in Hnext, Hprev, Hdc, Hd.
  destruct (wf_items s Hwf o d) as (it_o & _ & Hit_o & _).
  { rewrite Hl. apply elem_of_app. right. right. by left. }
  destruct (wf_items s Hwf c dc) as (it_c & _ & Hit_c & _).
  { rewrite Hl. apply elem_of_app. right. by left. }
  exists it_o, it_c. eexists _, _.
  rewrite (get_prev_found name tags true s c o d it_o) by done.
  split_and!; [done..| | | | |].
  - by apply (get_next_found name' tags' set' _ o c dc it_c).
  - done.
  - done.
  - done.
  - done.
Qed.

(** ** Lookups *)

(** X20: [play] hands the item to the player and keeps no reference. On a
    well-formed playlist [play] of a name that the table holds succeeds,
    makes the node of the item current, and calls [melo_player_play] once,
    after the unlock, with the path, the name and the tags of the item and
    with [insert] false; without a player it makes no call. The reference
    that it takes on the item is given back: the items, the list and the
    table are left as they were. *)
Theorem play_hands_the_item_to_the_player name s e :
  wf s → names s !! name = Some e →
  ∃ d it s',
    (e, d) ∈ playlist s ∧ heap s !! d = Some it ∧
    Item.name it = Some name ∧
    melo_playlist_simple_play name s = Some (true, s') ∧
    current s' = Some e ∧
    heap s' = heap s ∧ playlist s' = playlist s ∧ names s' = names s ∧
    trace s' = trace s ++ [g_mutex_lock; g_mutex_unlock]
                 ++ match player s with
                    | Some pl => [melo_player_play pl (Item.path it)
                                    (Some name) (Item.tags it) false]
                    | None => []
                    end.
Proof.
  intros Hwf Hn.
  destruct (wf_lookup s name e Hwf Hn) as (d & it & Hin & Hd & Hit & Hname & Hrc).
  exists d, it. eexists. rewrite (play_found name s e d it) by done.
  split_and!; [done..|]. simpl. unfold play_call. by rewrite Hname.
Qed.

(** X21: [get_tags] of a name that the table does not hold returns [NULL]
    and takes no reference; on a well-formed playlist, [get_tags] of a name
    that it holds returns the tags of the item of that name, with one
    reference taken on them under the lock if the item has tags. The state
    of the playlist is left as it was. *)
Theorem get_tags_returns_the_tags_of_the_item name fields s :
  wf s →
  (names s !! name = None →
   melo_playlist_simple_get_tags name fields s
     = Some (None, traced [g_mutex_lock; g_mutex_unlock] s)) ∧
  (∀ e, names s !! name = Some e →
   ∃ d it,
     (e, d) ∈ playlist s ∧ heap s !! d = Some it ∧
     Item.name it = Some name ∧
     melo_playlist_simple_get_tags name fields s
       = Some (Item.tags it,
               traced ([g_mutex_lock]
                       ++ match Item.tags it with
                          | Some t => [melo_tags_ref t]
                          | None => []
                          end ++ [g_mutex_unlock]) s)).
Proof.
  intros Hwf. split; [by apply get_tags_missing|]. intros e Hn.
  destruct (wf_lookup s name e Hwf Hn) as (d & it & Hin & Hd & Hit & Hname & _).
  exists d, it. split_and!; [done..|]. by apply (get_tags_found _ _ _ e d).
Qed.

(** X22: a name is free again after [remove]. After the [remove] of a name
    on a well-formed playlist, the table does not hold the name: [play] and
    a second [remove] of it fail, and an [add] under that name gives it to
    the new item as it is, without suffix. The other names keep their
    items. *)
Theorem removed_name_is_free name full_name path tags is_current s s1 :
  wf s → melo_playlist_simple_remove name s = Some (true, s1) →
  names s1 !! name = None ∧
  melo_playlist_simple_play name s1
    = Some (false, traced [g_mutex_lock; g_mutex_unlock] s1) ∧
  melo_playlist_simple_remove name s1
    = Some (false, traced [g_mutex_lock; g_mutex_unlock] s1) ∧
  melo_playlist_simple_add (Some name) full_name path tags is_current s1
    = Some (true, added full_name path tags is_current name s1) ∧
  (∀ other e, other ≠ name → names s !! other = Some e →
     names s1 !! other = Some e ∧
     ∃ d it, (e, d) ∈ playlist s1 ∧ heap s1 !! d = Some it ∧
             heap s !! d = Some it ∧ Item.name it = Some other).
Proof.
  intros Hwf Hrm.
  destruct (names s !! name) as [e|] eqn:Hn;
    [|by rewrite remove_missing in Hrm].
  destruct (wf_lookup s name e Hwf Hn) as (d & it & Hin & Hd & Hit & Hname & _).
  rewrite (remove_found name s e d it) in Hrm by done. injection Hrm as <-.
  assert (names (removed name e d it s) !! name = None) as Hfree
    by apply lookup_delete_eq.
  split_and!; [done|by apply play_missing|by apply remove_missing| |].
  - apply (add_done _ _ _ _ _ _ name name 1); [done| |done].
    rewrite name_loop_eq. simpl. by rewrite lookup_delete_eq.
  - intros other e' Hne Hother. simpl.
    rewrite lookup_delete_ne by done. split; [done|].
    destruct (wf_lookup s other e' Hwf Hother)
      as (d' & it' & Hin' & _ & Hit' & Hname' & _).
    assert (d' ≠ d) as Hd'.
    { intros ->. assert (e' = e) as -> by (by eapply wf_same_name; eauto; congruence).
      congruence. }
    exists d', it'. rewrite released_other by done. split_and!; [|done..].
    destruct (cell_split _ _ _ (wf_nodes s Hwf) (wf_data s Hwf) Hin)
      as (l1 & l2 & Hl & He1 & Hd1 & He2 & Hd2).
    rewrite Hl, g_list_remove_app by done. rewrite Hl in Hin'.
    apply elem_of_app in Hin' as [?|[[= -> ->]|?]%elem_of_cons];
      [apply elem_of_app; by left|done|apply elem_of_app; by right].
Qed.

(** X23: a playlist without item answers nothing. On a well-formed
    playlist whose list is empty, as the new playlist is, whatever the name,
    [play], [remove] and [get_cover] fail and [get_tags] returns [NULL];
    [get_prev] and [get_next] return no path; [get_list] returns the empty
    list, without the name of a current item; and
    [melo_playlist_simple_finalize] has no item to release. *)
Theorem empty_playlist_answers_nothing name fields data type nm tags set s :
  wf s → playlist s = [] →
  let t := traced [g_mutex_lock; g_mutex_unlock] s in
  melo_playlist_simple_play name s = Some (false, t) ∧
  melo_playlist_simple_remove name s = Some (false, t) ∧
  melo_playlist_simple_get_cover name data type s
    = Some ((false, data, type), t) ∧
  melo_playlist_simple_get_tags name fields s = Some (None, t) ∧
  melo_playlist_simple_get_prev nm tags set s
    = Some (mkAdjacent None nm tags, t) ∧
  melo_playlist_simple_get_next nm tags set s
    = Some (mkAdjacent None nm tags, t) ∧
  (∃ s', melo_playlist_simple_get_list fields s = Some (mkList [] None, s') ∧
         heap s' = heap s) ∧
  (∃ s', melo_playlist_simple_finalize s = Some (tt, s') ∧ heap s' = heap s).
Proof.
  intros Hwf Hl t.
  assert (names s !! name = None) as Hn.
  { destruct (names s !! name) as [e|] eqn:Hn; [|done].
    destruct (wf_names s Hwf _ _ Hn) as (d & it & Hin & _).
    rewrite Hl in Hin. by apply elem_of_nil in Hin. }
  assert (current s = None) as Hc.
  { destruct (current s) as [c|] eqn:Hc; [|done].
    apply (wf_current s Hwf) in Hc. rewrite Hl in Hc.
    by apply elem_of_nil in Hc. }
  split_and!; [by apply play_missing|by apply remove_missing
              |by apply get_cover_missing|by apply get_tags_missing
              |by apply get_prev_none|by apply get_next_none| |].
  - destruct (get_list_refs fields s Hwf)
      as ([items cur] & h' & Hget & Hdata & _ & Hcur & Hheap).
    simpl in Hdata, Hcur. rewrite Hl in Hdata. apply fmap_nil_inv in Hdata.
    unfold current_name in Hcur. rewrite Hc in Hcur. simpl in Hcur. subst.
    eexists. split; [exact Hget|]. simpl. apply map_eq. intros d.
    rewrite Hheap, Hl. unfold referenced.
    rewrite decide_False by apply not_elem_of_nil.
    destruct (heap s !! d); simpl; by rewrite ?add_refs_0.
  - destruct (finalize_spec s Hwf) as (h' & Hfin & Hh').
    eexists. split; [exact Hfin|]. simpl. apply map_eq. intros d.
    rewrite Hh', Hl. by rewrite decide_False by apply not_elem_of_nil.
Qed.

(** X24: a list returned by [get_list] outlives the playlist. After
    [get_list] on a well-formed playlist, [melo_playlist_simple_finalize] is
    defined and leaves every item of the returned list allocated, as it was
    before the [get_list]: the references of the playlist have passed to
    the list. *)
Theorem list_outlives_the_playlist tags_fields s l s1 :
  wf s → melo_playlist_simple_get_list tags_fields s = Some (l, s1) →
  ∃ s2,
    melo_playlist_simple_finalize s1 = Some (tt, s2) ∧
    ∀ n d, (n, d) ∈ list_items l →
           ∃ it, heap s !! d = Some it ∧ heap s2 !! d = Some it.
Proof.
  intros Hwf Hget.
  destruct (get_list_refs tags_fields s Hwf)
    as (l' & h' & Hget' & Hdata & _ & _ & Hheap).
  rewrite Hget in Hget'. injection Hget' as <- ->.
  assert (wf (traced [g_mutex_lock; g_mutex_unlock]
                (copied (length (playlist s)) h' s))) as Hwf1.
  { apply wf_traced, wf_copied; [done|]. intros d. rewrite Hheap.
    unfold referenced. case_decide; eauto. }
  destruct (finalize_spec _ Hwf1) as (h2 & Hfin & Hh2).
  eexists. split; [exact Hfin|]. simpl. intros n d Hd.
  assert (d ∈ (playlist s).*2) as Hmem
    by (rewrite <- Hdata; apply list_elem_of_fmap; by exists (n, d)).
  pose proof Hmem as ([e d'] & Heq & Hin)%list_elem_of_fmap.
  simpl in Heq. subst d'.
  destruct (wf_items s Hwf _ _ Hin) as (it & _ & Hit & _ & Hrc & _).
  exists it. split; [done|]. rewrite Hh2. simpl.
  rewrite decide_True by done. rewrite Hheap. unfold referenced.
  rewrite decide_True by done. rewrite Hit. simpl. unfold unref, add_refs.
  destruct it as [nm fn pa tg cp cr rc]. simpl in *.
  destruct rc as [|rc]; [lia|].
  replace (S rc + 1)%nat with (S (S rc)) by lia. done.
Qed.

End More.

(** ** The theorems on the playlist of two items *)

#[local] Existing Instance no_cover.

(** The playlist of two items after [add] of [C], and after [remove] of
    [A]. *)
Definition three_items : State :=
  added None (Some "/c"%string) None false "C" two_items.
Definition one_item : State := removed "A" 2%nat 1%nat item_A two_items.


Lemma only_play_and_remove_call_the_player_witness :
  wf two_items ∧ call_defined (CallGetTags "A" 0%N) ∧
  (∀ name, CallGetTags "A" 0%N ≠ CallPlay name) ∧
  (∀ name, CallGetTags "A" 0%N ≠ CallRemove name) ∧
  ∃ s' t,
    call (CallGetTags "A" 0%N) two_items = Some (tt, s') ∧
    trace s' = trace two_items ++ [g_mutex_lock] ++ t ++ [g_mutex_unlock] ∧
    Forall (λ a, is_tags_call a = true) t ∧
    Forall (λ a, is_player_call a = false)
      ([g_mutex_lock] ++ t ++ [g_mutex_unlock]).
Proof.
  assert (∀ name, CallGetTags "A" 0%N ≠ CallPlay name) as Hplay by done.
  assert (∀ name, CallGetTags "A" 0%N ≠ CallRemove name) as Hremove by done.
  split; [exact two_items_wf|]. split; [exact I|]. split; [exact Hplay|].
  split; [exact Hremove|].
  exact (only_play_and_remove_call_the_player (CallGetTags "A" 0%N) two_items
           two_items_wf I Hplay Hremove).
Defined.

Lemma finalize_drops_one_reference_witness :
  wf two_items ∧
  ∃ s',
    melo_playlist_simple_finalize two_items = Some (tt, s') ∧
    playlist s' = [] ∧ names s' = ∅ ∧
    (∀ e d, (e, d) ∈ playlist two_items →
       ∃ it, heap two_items !! d = Some it ∧ (1 ≤ Item.ref_count it)%nat ∧
             heap s' !! d
             = if decide (Item.ref_count it = 1%nat) then None
               else Some (Item.set_ref_count (Item.ref_count it - 1) it)) ∧
    (∀ d, d ∉ (playlist two_items).*2 → heap s' !! d = heap two_items !! d).
Proof.
  split; [exact two_items_wf|].
  exact (finalize_drops_one_reference two_items two_items_wf).
Defined.

Lemma finalize_releases_every_item_witness :
  Forall (λ c, ∀ tags_fields, c ≠ CallGetList tags_fields)
    [CallAdd (Some "A"%string) None (Some "/a"%string) None true;
     CallAdd (Some "B"%string) None (Some "/b"%string) None false] ∧
  calls [CallAdd (Some "A"%string) None (Some "/a"%string) None true;
         CallAdd (Some "B"%string) None (Some "/b"%string) None false]
    (init (Some 7%nat) false) = Some (tt, two_items) ∧
  (∀ d, is_Some (heap two_items !! d) ↔ d ∈ (playlist two_items).*2) ∧
  ∃ s', melo_playlist_simple_finalize two_items = Some (tt, s') ∧ heap s' = ∅.
Proof.
  assert (Forall (λ c, ∀ tags_fields, c ≠ CallGetList tags_fields)
            [CallAdd (Some "A"%string) None (Some "/a"%string) None true;
             CallAdd (Some "B"%string) None (Some "/b"%string) None false])
    as Hcs by (repeat constructor; discriminate).
  split; [exact Hcs|]. split; [exact two_items_built|].
  exact (finalize_releases_every_item (Some 7%nat) false _ two_items Hcs
           two_items_built).
Defined.


Lemma add_succeeds_below_capacity_witness :
  wf two_items ∧
  base_name (Some "A"%string) None (Some "/c"%string) = Some "A"%string ∧
  Z.of_nat (length (playlist two_items)) < 100000000 ∧
  ∃ k s',
    0 <= k <= Z.of_nat (length (playlist two_items)) ∧
    names two_items !! candidate "A" k = None ∧
    melo_playlist_simple_add (Some "A"%string) None (Some "/c"%string) None
      false two_items = Some (true, s') ∧
    playlist s' = (S (next_addr two_items), next_addr two_items)
                    :: playlist two_items ∧
    names s' = <[candidate "A" k := S (next_addr two_items)]> (names two_items) ∧
    heap s' = <[next_addr two_items :=
                  Item.mk (Some (candidate "A" k)) None (Some "/c"%string)
                    None true true 1]> (heap two_items).
Proof.
  assert (Z.of_nat (length (playlist two_items)) < 100000000) as Hlen
    by (simpl; lia).
  split; [exact two_items_wf|]. split; [reflexivity|]. split; [exact Hlen|].
  exact (add_succeeds_below_capacity (Some "A"%string) None (Some "/c"%string)
           None false two_items "A" two_items_wf eq_refl Hlen).
Defined.

Lemma three_items_added :
  melo_playlist_simple_add (Some "C"%string) None (Some "/c"%string) None false
    two_items = Some (true, three_items).
Proof. by vm_compute. Qed.

Lemma add_then_remove_restores_witness :
  wf two_items ∧
  melo_playlist_simple_add (Some "C"%string) None (Some "/c"%string) None false
    two_items = Some (true, three_items) ∧
  ∃ final_name node item it s2,
    playlist three_items = (node, item) :: playlist two_items ∧
    heap three_items !! item = Some it ∧ Item.name it = Some final_name ∧
    melo_playlist_simple_remove final_name three_items = Some (true, s2) ∧
    playlist s2 = playlist two_items ∧ names s2 = names two_items ∧
    heap s2 = heap two_items ∧
    current s2 = if false then None else current two_items.
Proof.
  split; [exact two_items_wf|]. split; [exact three_items_added|].
  exact (add_then_remove_restores (Some "C"%string) None (Some "/c"%string)
           None false two_items three_items two_items_wf three_items_added).
Defined.

Lemma added_item_is_found_witness :
  melo_playlist_simple_add (Some "C"%string) None (Some "/c"%string) None false
    two_items = Some (true, three_items) ∧
  ∃ final_name node s2 s3,
    names three_items !! final_name = Some node ∧
    melo_playlist_simple_get_tags final_name 0%N three_items = Some (None, s2) ∧
    trace s2 = trace three_items ++ [g_mutex_lock] ++ [] ++ [g_mutex_unlock] ∧
    melo_playlist_simple_play final_name three_items = Some (true, s3) ∧
    current s3 = Some node ∧
    trace s3 = trace three_items ++ [g_mutex_lock; g_mutex_unlock]
                 ++ [melo_player_play 7%nat (Some "/c"%string) (Some final_name)
                       None false].
Proof.
  split; [exact three_items_added|].
  exact (added_item_is_found (Some "C"%string) None (Some "/c"%string) None
           false 0%N two_items three_items three_items_added).
Defined.

(** The playlist of two items once it overrides the URL of the covers. *)
Definition two_items_overriding : State :=
  mkState (player two_items) (playlist two_items) (names two_items)
    (current two_items) true (heap two_items) (next_addr two_items)
    (trace two_items).
Definition three_items_overriding : State :=
  added None (Some "/c"%string) (Some 9%nat) false "C" two_items_overriding.

Lemma three_items_overriding_added :
  melo_playlist_simple_add (Some "C"%string) None (Some "/c"%string)
    (Some 9%nat) false two_items_overriding
  = Some (true, three_items_overriding).
Proof. by vm_compute. Qed.

Lemma override_cover_url_names_the_cover_witness :
  melo_playlist_simple_override_cover_url true two_items
    = Some (tt, two_items_overriding) ∧
  melo_playlist_simple_add (Some "C"%string) None (Some "/c"%string)
    (Some 9%nat) false two_items_overriding
    = Some (true, three_items_overriding) ∧
  ∃ final_name node item it,
    playlist three_items_overriding = (node, item) :: playlist two_items ∧
    heap three_items_overriding !! item = Some it ∧
    Item.name it = Some final_name ∧
    trace three_items_overriding
    = trace two_items ++ [g_mutex_lock]
        ++ (if true && melo_tags_has_cover (Some 9%nat)
            then [melo_tags_set_cover_url (Some 9%nat) final_name] else [])
        ++ [g_mutex_unlock].
Proof.
  assert (melo_playlist_simple_override_cover_url true two_items
          = Some (tt, two_items_overriding)) as Ho by reflexivity.
  split; [exact Ho|]. split; [exact three_items_overriding_added|].
  exact (override_cover_url_names_the_cover true (Some "C"%string) None
           (Some "/c"%string) (Some 9%nat) false two_items
           two_items_overriding three_items_overriding
           Ho three_items_overriding_added).
Defined.

Lemma get_list_takes_one_reference_witness :
  wf two_items ∧
  ∃ l s',
    melo_playlist_simple_get_list 0%N two_items = Some (l, s') ∧
    (list_items l).*2 = (playlist two_items).*2 ∧
    (list_items l).*1
    = seq (next_addr two_items) (length (playlist two_items)) ∧
    list_current l = current_name two_items ∧
    playlist s' = playlist two_items ∧ names s' = names two_items ∧
    current s' = current two_items ∧
    (∀ e d, (e, d) ∈ playlist two_items →
       ∃ it, heap two_items !! d = Some it ∧
             heap s' !! d
             = Some (Item.set_ref_count (S (Item.ref_count it)) it)) ∧
    (∀ d, d ∉ (playlist two_items).*2 → heap s' !! d = heap two_items !! d).
Proof.
  split; [exact two_items_wf|].
  exact (get_list_takes_one_reference 0%N two_items two_items_wf).
Defined.

Lemma remove_drops_one_reference_witness :
  wf two_items ∧ names two_items !! "A"%string = Some 2%nat ∧
  ∃ d it s',
    (2%nat, d) ∈ playlist two_items ∧ heap two_items !! d = Some it ∧
    (1 ≤ Item.ref_count it)%nat ∧
    melo_playlist_simple_remove "A" two_items = Some (true, s') ∧
    heap s' !! d
    = (if decide (Item.ref_count it = 1%nat) then None
       else Some (Item.set_ref_count (Item.ref_count it - 1) it)) ∧
    (∀ d', d' ≠ d → heap s' !! d' = heap two_items !! d').
Proof.
  split; [exact two_items_wf|]. split; [reflexivity|].
  exact (remove_drops_one_reference "A" two_items 2%nat two_items_wf eq_refl).
Defined.

Lemma get_prev_and_get_next_stop_at_the_ends_witness :
  wf two_items ∧
  let nothing := Some (mkAdjacent None (Some None) (Some None),
                       traced [g_mutex_lock; g_mutex_unlock] two_items) in
  (current two_items = None →
   melo_playlist_simple_get_prev (Some None) (Some None) true two_items
     = nothing ∧
   melo_playlist_simple_get_next (Some None) (Some None) true two_items
     = nothing) ∧
  (∀ c d l, current two_items = Some c → playlist two_items = l ++ [(c, d)] →
            melo_playlist_simple_get_prev (Some None) (Some None) true
              two_items = nothing) ∧
  (∀ c d l, current two_items = Some c → playlist two_items = (c, d) :: l →
            melo_playlist_simple_get_next (Some None) (Some None) true
              two_items = nothing).
Proof.
  split; [exact two_items_wf|].
  exact (get_prev_and_get_next_stop_at_the_ends (Some None) (Some None) true
           two_items two_items_wf).
Defined.

Lemma get_prev_then_get_next_returns_witness :
  wf two_items_at_B ∧ current two_items_at_B = Some 4%nat ∧
  playlist two_items_at_B = [] ++ (4, 3)%nat :: (2, 1)%nat :: [] ∧
  ∃ it_o it_c s1 s2,
    heap two_items_at_B !! 1%nat = Some it_o ∧
    heap two_items_at_B !! 3%nat = Some it_c ∧
    melo_playlist_simple_get_prev (Some None) None true two_items_at_B
      = Some (adjacent it_o (Some None) None, s1) ∧
    current s1 = Some 2%nat ∧
    melo_playlist_simple_get_next None (Some None) false s1
      = Some (adjacent it_c None (Some None), s2) ∧
    current s2 = Some 4%nat ∧
    playlist s2 = playlist two_items_at_B ∧ names s2 = names two_items_at_B ∧
    heap s2 = heap two_items_at_B.
Proof.
  split; [exact two_items_at_B_wf|]. split; [reflexivity|].
  split; [reflexivity|].
  exact (get_prev_then_get_next_returns (Some None) None None (Some None) false
           two_items_at_B 4%nat [] 3%nat 2%nat 1%nat [] two_items_at_B_wf
           eq_refl eq_refl).
Defined.

Lemma play_hands_the_item_to_the_player_witness :
  wf two_items ∧ names two_items !! "B"%string = Some 4%nat ∧
  ∃ d it s',
    (4%nat, d) ∈ playlist two_items ∧ heap two_items !! d = Some it ∧
    Item.name it = Some "B"%string ∧
    melo_playlist_simple_play "B" two_items = Some (true, s') ∧
    current s' = Some 4%nat ∧
    heap s' = heap two_items ∧ playlist s' = playlist two_items ∧
    names s' = names two_items ∧
    trace s' = trace two_items ++ [g_mutex_lock; g_mutex_unlock]
                 ++ [melo_player_play 7%nat (Item.path it) (Some "B"%string)
                       (Item.tags it) false].
Proof.
  split; [exact two_items_wf|]. split; [reflexivity|].
  exact (play_hands_the_item_to_the_player "B" two_items 4%nat two_items_wf
           eq_refl).
Defined.

Lemma get_tags_returns_the_tags_of_the_item_witness :
  wf two_items ∧
  (names two_items !! "B"%string = None →
   melo_playlist_simple_get_tags "B" 0%N two_items
     = Some (None, traced [g_mutex_lock; g_mutex_unlock] two_items)) ∧
  (∀ e, names two_items !! "B"%string = Some e →
   ∃ d it,
     (e, d) ∈ playlist two_items ∧ heap two_items !! d = Some it ∧
     Item.name it = Some "B"%string ∧
     melo_playlist_simple_get_tags "B" 0%N two_items
       = Some (Item.tags it,
               traced ([g_mutex_lock]
                       ++ match Item.tags it with
                          | Some t => [melo_tags_ref t]
                          | None => []
                          end ++ [g_mutex_unlock]) two_items)).
Proof.
  split; [exact two_items_wf|].
  exact (get_tags_returns_the_tags_of_the_item "B" 0%N two_items two_items_wf).
Defined.

Lemma one_item_removed :
  melo_playlist_simple_remove "A" two_items = Some (true, one_item).
Proof. by vm_compute. Qed.

Lemma removed_name_is_free_witness :
  wf two_items ∧
  melo_playlist_simple_remove "A" two_items = Some (true, one_item) ∧
  names one_item !! "A"%string = None ∧
  melo_playlist_simple_play "A" one_item
    = Some (false, traced [g_mutex_lock; g_mutex_unlock] one_item) ∧
  melo_playlist_simple_remove "A" one_item
    = Some (false, traced [g_mutex_lock; g_mutex_unlock] one_item) ∧
  melo_playlist_simple_add (Some "A"%string) None (Some "/a2"%string) None true
    one_item
    = Some (true, added None (Some "/a2"%string) None true "A" one_item) ∧
  (∀ other e, other ≠ "A"%string → names two_items !! other = Some e →
     names one_item !! other = Some e ∧
     ∃ d it, (e, d) ∈ playlist one_item ∧ heap one_item !! d = Some it ∧
             heap two_items !! d = Some it ∧ Item.name it = Some other).
Proof.
  split; [exact two_items_wf|]. split; [exact one_item_removed|].
  exact (removed_name_is_free "A" None (Some "/a2"%string) None true two_items
           one_item two_items_wf one_item_removed).
Defined.

(** The new playlist of the player [7]. *)
Definition new_playlist : State := init (Some 7%nat) false.

Lemma empty_playlist_answers_nothing_witness :
  wf new_playlist ∧ playlist new_playlist = [] ∧
  let t := traced [g_mutex_lock; g_mutex_unlock] new_playlist in
  melo_playlist_simple_play "A" new_playlist = Some (false, t) ∧
  melo_playlist_simple_remove "A" new_playlist = Some (false, t) ∧
  melo_playlist_simple_get_cover "A" None None new_playlist
    = Some ((false, None, None), t) ∧
  melo_playlist_simple_get_tags "A" 0%N new_playlist = Some (None, t) ∧
  melo_playlist_simple_get_prev (Some None) (Some None) true new_playlist
    = Some (mkAdjacent None (Some None) (Some None), t) ∧
  melo_playlist_simple_get_next (Some None) (Some None) true new_playlist
    = Some (mkAdjacent None (Some None) (Some None), t) ∧
  (∃ s', melo_playlist_simple_get_list 0%N new_playlist
         = Some (mkList [] None, s') ∧
         heap s' = heap new_playlist) ∧
  (∃ s', melo_playlist_simple_finalize new_playlist = Some (tt, s') ∧
         heap s' = heap new_playlist).
Proof.
  split; [apply wf_init|]. split; [reflexivity|].
  exact (empty_playlist_answers_nothing "A" 0%N None None (Some None)
           (Some None) true new_playlist (wf_init _ _) eq_refl).
Defined.

Lemma two_items_got_list :
  melo_playlist_simple_get_list 0%N two_items
    = Some (two_items_list, two_items_listed).
Proof. by vm_compute. Qed.

Lemma list_outlives_the_playlist_witness :
  wf two_items ∧
  melo_playlist_simple_get_list 0%N two_items
    = Some (two_items_list, two_items_listed) ∧
  ∃ s2,
    melo_playlist_simple_finalize two_items_listed = Some (tt, s2) ∧
    ∀ n d, (n, d) ∈ list_items two_items_list →
           ∃ it, heap two_items !! d = Some it ∧ heap s2 !! d = Some it.
Proof.
  split; [exact two_items_wf|]. split; [exact two_items_got_list|].
  exact (list_outlives_the_playlist 0%N two_items two_items_list
           two_items_listed two_items_wf two_items_got_list).
Defined.


End PlaylistMore.

(** * Properties of the paths of the file browser *)

Module BrowserFileProps.
Import BrowserFile PlaylistProps.

(** [n] slashes. *)
Fixpoint slashes (n : nat) : string :=
  match n with O => EmptyString | S n => String "/" (slashes n) end.

(** A string that does not start with a slash. *)
Definition relative (path : string) : Prop :=
  match path with String c _ => c ≠ "/"%char | EmptyString => True end.

Lemma fix_path_spec path :
  ∃ n, path = slashes n +:+ melo_brower_file_fix_path path ∧
       relative (melo_brower_file_fix_path path).
Proof.
  induction path as [|c path (n & Hn & Hrel)]; [by exists 0%nat|].
  simpl. case_decide as Hc.
  - subst c. exists (S n). simpl. rewrite append_cons. by rewrite <- Hn.
  - by exists 0%nat.
Qed.

Lemma fix_path_relative path :
  relative path → melo_brower_file_fix_path path = path.
Proof. destruct path as [|c path]; [done|]. simpl. intros ?. by case_decide. Qed.

(** X25: [melo_brower_file_fix_path] removes the leading slashes of a path
    and nothing else: the path is some slashes followed by the result, the
    result does not start with a slash, and a path that does not start with
    a slash, the result among them, is returned as it is. *)
Theorem fix_path_strips_leading_slashes path :
  (∃ n, path = slashes n +:+ melo_brower_file_fix_path path) ∧
  relative (melo_brower_file_fix_path path) ∧
  (relative path → melo_brower_file_fix_path path = path) ∧
  melo_brower_file_fix_path (melo_brower_file_fix_path path)
  = melo_brower_file_fix_path path.
Proof.
  destruct (fix_path_spec path) as (n & Hn & Hrel).
  split_and!; [by exists n|done|apply fix_path_relative|].
  by apply fix_path_relative.
Qed.

(** A string without slash. *)
Definition no_slash (s : string) : Prop :=
  ∀ a b, s ≠ a +:+ String "/" b.

Lemma volume_id_and_path_spec path :
  ∀ id rest, volume_id_and_path path = (id, rest) →
  no_slash id ∧
  (path = id +:+ String "/" rest ∨ (path = id ∧ rest = EmptyString)).
Proof.
  induction path as [|c path IH]; intros id rest; simpl.
  - intros [= <- <-]. split; [|by right]. by intros [|??] ?.
  - case_decide as Hc.
    + intros [= <- <-]. subst c. split; [|by left]. by intros [|??] ?.
    + destruct (volume_id_and_path path) as [id' rest'].
      intros [= <- <-]. destruct (IH id' rest' eq_refl) as [Hid Hpath].
      split.
      * intros [|x a] b; rewrite ?append_empty, ?append_cons;
          intros [= ? Heq]; [done|]. by eapply Hid.
      * destruct Hpath as [->|[-> ->]]; [left|right]; by rewrite ?append_cons.
Qed.

(** X26: the paths of the file browser. [melo_browser_file_get_list] lists
    nothing for no path and for a path that does not start with a slash;
    [/] is the root; a path that goes on with [local] is a directory of the
    local file system, whose URI is [file:/] followed by the rest of the
    path without its leading slashes, whatever follows [local]; any other
    path is the identifier of a volume, without slash, followed or not by a
    slash and a path in the volume. *)
Theorem get_list_reads_the_path :
  melo_browser_file_get_list None = None ∧
  (∀ path, melo_browser_file_get_list (Some path) = None
           ↔ ∀ rest, path ≠ String "/" rest) ∧
  melo_browser_file_get_list (Some "/"%string) = Some LIST_ROOT ∧
  (∀ rest, melo_browser_file_get_list (Some ("/local" +:+ rest))
           = Some (LIST_LOCAL ("file:/" +:+ melo_brower_file_fix_path rest))) ∧
  (∀ path, path ≠ EmptyString → String.prefix "local" path = false →
           ∃ id rest,
             melo_browser_file_get_list (Some (String "/" path))
               = Some (LIST_VOLUME id rest) ∧
             no_slash id ∧
             (path = id +:+ String "/" rest ∨ (path = id ∧ rest = EmptyString))).
Proof.
  split_and!.
  - done.
  - intros [|c path]; simpl.
    + split; [by intros _ rest|done].
    + case_decide as Hc.
      * subst c. split; [|by intros Hne; destruct (Hne path)].
        case_decide; [done|]. destruct (String.prefix "local" path); [done|].
        by destruct (volume_id_and_path path).
      * split; [|done]. intros _ rest [= ? _]. done.
  - done.
  - intros rest.
    assert (String.prefix "local" ("local" +:+ rest) = true) as Hlocal
      by (by destruct rest).
    change ("/local" +:+ rest) with (String "/" ("local" +:+ rest)).
    unfold melo_browser_file_get_list. rewrite decide_True by done.
    rewrite decide_False by (by rewrite append_cons). by rewrite Hlocal.
  - intros path Hne Hlocal. simpl. rewrite decide_False by done. rewrite Hlocal.
    destruct (volume_id_and_path path) as [id rest] eqn:Hv.
    exists id, rest. split; [done|]. by apply volume_id_and_path_spec.
Qed.

End BrowserFileProps.
